(** * query-crawler: a model of [src/main.py] and its specification

    The development has four layers.

    - [Str]: the Python [str] methods the crawler and [urllib.parse] call
      ([startswith], [in], [lower], [find], [split], ...), over byte strings
      (a Python [str] is read as its UTF-8 encoding; prefix and substring
      tests on UTF-8 agree with the tests on code points).
    - [urllib_parse]: [urljoin] with the helpers it calls, transcribed from
      CPython 3.11's [Lib/urllib/parse.py] for [str] arguments.
    - the crawler itself: [crawl_page] is recursive, shares one mutable set
      between all its activations and runs the activations of one page's
      links on a thread pool of its own.  It is modelled as a tree of
      activation frames with an interleaving step function; one step is one
      access to the shared state or one blocking operation.
    - the rest of the program: [save_results_to_csv], with the rows that
      [csv.writer] writes in its default dialect, and the two lines of
      [main] that call the crawler and save its result.  The command line
      is read by [argparse]; the model starts from the parsed arguments. *)

From stdpp Require Import gmap strings list.
From Stdlib Require Import ZArith Ascii.

#[local] Set Warnings "-clear-no-such-hyp".

Local Open Scope string_scope.
Local Open Scope list_scope.
Local Open Scope Z_scope.

(** ** Python string methods *)

Module Str.

Definition code (c : ascii) : N := N_of_ascii c.

Definition is_upper (c : ascii) : bool := ((65 <=? code c) && (code c <=? 90))%N.
Definition is_lower (c : ascii) : bool := ((97 <=? code c) && (code c <=? 122))%N.
Definition is_digit (c : ascii) : bool := ((48 <=? code c) && (code c <=? 57))%N.
Definition is_ascii (c : ascii) : bool := (code c <? 128)%N.
(** [c.isascii() and c.isalpha()] *)
Definition is_ascii_alpha (c : ascii) : bool := is_upper c || is_lower c.

Definition lower_char (c : ascii) : ascii :=
  if is_upper c then ascii_of_N (code c + 32) else c.

(** [s.lower()] on ASCII text: the letters A-Z are mapped to a-z, every
    other byte is kept. *)
Fixpoint ascii_lower (s : string) : string :=
  match s with
  | "" => ""
  | String c s' => String (lower_char c) (ascii_lower s')
  end.

(** [s.startswith(p)] *)
Fixpoint startswith (s p : string) {struct p} : bool :=
  match p with
  | "" => true
  | String b p' =>
      match s with
      | "" => false
      | String a s' => if Ascii.eqb a b then startswith s' p' else false
      end
  end.

(** [sub in s] *)
Fixpoint contains (s sub : string) : bool :=
  startswith s sub ||
  match s with
  | "" => false
  | String _ s' => contains s' sub
  end.

(** [c in s] for a single character *)
Fixpoint has_char (c : ascii) (s : string) : bool :=
  match s with
  | "" => false
  | String a s' => Ascii.eqb a c || has_char c s'
  end.

(** [s[:n]] and [s[n:]] for [n >= 0] *)
Fixpoint take (n : nat) (s : string) : string :=
  match n, s with
  | S n', String a s' => String a (take n' s')
  | _, _ => ""
  end.

Fixpoint drop (n : nat) (s : string) : string :=
  match n, s with
  | S n', String _ s' => drop n' s'
  | _, _ => s
  end.

(** [s.find(c)]: the index of the first [c], [None] for Python's [-1] *)
Fixpoint find (c : ascii) (s : string) : option nat :=
  match s with
  | "" => None
  | String a s' => if Ascii.eqb a c then Some O else S <$> find c s'
  end.

(** [s.find(c, start)] *)
Definition find_from (c : ascii) (s : string) (start : nat) : option nat :=
  (λ i, start + i)%nat <$> find c (drop start s).

(** [s.rfind(c)] *)
Fixpoint rfind (c : ascii) (s : string) : option nat :=
  match s with
  | "" => None
  | String a s' =>
      match rfind c s' with
      | Some i => Some (S i)
      | None => if Ascii.eqb a c then Some O else None
      end
  end.

(** [s.split(c)] *)
Fixpoint split (c : ascii) (s : string) : list string :=
  match s with
  | "" => [""]
  | String a s' =>
      if Ascii.eqb a c then "" :: split c s'
      else match split c s' with
           | w :: ws => String a w :: ws
           | [] => [String a ""]
           end
  end.

(** [s.partition(c)]: [(before, found, after)] *)
Definition partition (c : ascii) (s : string) : string * bool * string :=
  match find c s with
  | Some i => (take i s, true, drop (S i) s)
  | None => (s, false, "")
  end.

(** [s.rpartition(c)[2]] *)
Definition rpartition_tail (c : ascii) (s : string) : string :=
  match rfind c s with
  | Some i => drop (S i) s
  | None => s
  end.

(** [sep.join(l)] *)
Fixpoint join (sep : string) (l : list string) : string :=
  match l with
  | [] => ""
  | [w] => w
  | w :: ws => w +:+ sep +:+ join sep ws
  end.

Fixpoint forallb (p : ascii → bool) (s : string) : bool :=
  match s with
  | "" => true
  | String a s' => p a && forallb p s'
  end.

Fixpoint lstrip (p : ascii → bool) (s : string) : string :=
  match s with
  | "" => ""
  | String a s' => if p a then lstrip p s' else s
  end.

Fixpoint rstrip (p : ascii → bool) (s : string) : string :=
  match s with
  | "" => ""
  | String a s' =>
      match rstrip p s' with
      | "" => if p a then "" else String a ""
      | r => String a r
      end
  end.

(** [s.replace(c, "")] for each [c] satisfying [p] *)
Fixpoint remove (p : ascii → bool) (s : string) : string :=
  match s with
  | "" => ""
  | String a s' => if p a then remove p s' else String a (remove p s')
  end.

Definition nonempty (s : string) : bool :=
  match s with "" => false | _ => true end.

End Str.

(** ** [urllib.parse.urljoin] *)

Module urllib_parse.
Import Str.

Section parse.

(** [_check_bracketed_host] validates a bracketed host with the
    [ipaddress] and [re] modules and [_checknetloc] tests a non-ASCII
    authority with [unicodedata]; both are taken as given.  [true] means
    that the function returns, [false] that it raises [ValueError]. *)
Variable check_bracketed_host : string → bool.
Variable checknetloc_nfkc : string → bool.

Definition uses_relative : list string :=
  [""; "ftp"; "http"; "gopher"; "nntp"; "imap";
   "wais"; "file"; "https"; "shttp"; "mms";
   "prospero"; "rtsp"; "rtspu"; "sftp";
   "svn"; "svn+ssh"; "ws"; "wss"].

Definition uses_netloc : list string :=
  [""; "ftp"; "http"; "gopher"; "nntp"; "telnet";
   "imap"; "wais"; "file"; "mms"; "https"; "shttp";
   "snews"; "prospero"; "rtsp"; "rtspu"; "rsync";
   "svn"; "svn+ssh"; "sftp"; "nfs"; "git"; "git+ssh";
   "ws"; "wss"].

Definition uses_params : list string :=
  [""; "ftp"; "hdl"; "prospero"; "http"; "imap";
   "https"; "shttp"; "rtsp"; "rtspu"; "sip"; "sips";
   "mms"; "sftp"; "tel"].

Definition mem (s : string) (l : list string) : bool := bool_decide (s ∈ l).

(** [c in scheme_chars] *)
Definition scheme_char (c : ascii) : bool :=
  is_lower c || is_upper c || is_digit c ||
  Ascii.eqb c "+" || Ascii.eqb c "-" || Ascii.eqb c ".".

(** [c in _WHATWG_C0_CONTROL_OR_SPACE] *)
Definition c0_control_or_space (c : ascii) : bool := (code c <=? 32)%N.

(** [c in _UNSAFE_URL_BYTES_TO_REMOVE] *)
Definition unsafe_url_byte (c : ascii) : bool :=
  (code c =? 9)%N || (code c =? 13)%N || (code c =? 10)%N.

Definition _splitparams (url : string) : string * string :=
  if has_char "/" url then
    match find_from ";" url (default O (rfind "/" url)) with
    | None => (url, "")
    | Some i => (take i url, drop (S i) url)
    end
  else
    match find ";" url with
    | None => (take (String.length url - 1) url, url)
    | Some i => (take i url, drop (S i) url)
    end.

Definition _splitnetloc (url : string) (start : nat) : string * string :=
  let delim :=
    foldl (λ delim c,
             match find_from c url start with
             | Some wdelim => Nat.min delim wdelim
             | None => delim
             end)
          (String.length url) ["/"; "?"; "#"]%char in
  (drop start (take delim url), drop delim url).

Definition _checknetloc (netloc : string) : bool :=
  if negb (nonempty netloc) || forallb is_ascii netloc then true
  else checknetloc_nfkc netloc.

Definition _check_bracketed_netloc (netloc : string) : bool :=
  let hostname_and_port := rpartition_tail "@" netloc in
  let '(before_bracket, have_open_br, bracketed) :=
    partition "[" hostname_and_port in
  if have_open_br then
    if nonempty before_bracket then false
    else
      let '(hostname, _, port) := partition "]" bracketed in
      if nonempty port && negb (startswith port ":") then false
      else check_bracketed_host hostname
  else
    let '(hostname, _, _) := partition ":" hostname_and_port in
    check_bracketed_host hostname.

Record SplitResult := mkSplit {
  s_scheme : string; s_netloc : string; s_path : string;
  s_query : string; s_fragment : string }.

Record ParseResult := mkParse {
  scheme : string; netloc : string; path : string;
  params : string; query : string; fragment : string }.

(** [urlsplit(url, scheme)]; [None] stands for [ValueError]. *)
Definition urlsplit (url scheme : string) : option SplitResult :=
  let url := lstrip c0_control_or_space url in
  let scheme := lstrip c0_control_or_space (rstrip c0_control_or_space scheme) in
  let url := remove unsafe_url_byte url in
  let scheme := remove unsafe_url_byte scheme in
  let '(scheme, url) :=
    match find ":" url, url with
    | Some (S i'), String c0 _ =>
        let i := S i' in
        if is_ascii_alpha c0 && forallb scheme_char (take i url)
        then (ascii_lower (take i url), drop (S i) url)
        else (scheme, url)
    | _, _ => (scheme, url)
    end in
  let '(netloc, url) :=
    if String.eqb (take 2 url) "//" then _splitnetloc url 2 else ("", url) in
  if (has_char "[" netloc && negb (has_char "]" netloc)) ||
     (has_char "]" netloc && negb (has_char "[" netloc)) then None
  else if has_char "[" netloc && has_char "]" netloc &&
          negb (_check_bracketed_netloc netloc) then None
  else
    let '(url, fragment) :=
      if has_char "#" url
      then let '(a, _, b) := partition "#" url in (a, b) else (url, "") in
    let '(url, query) :=
      if has_char "?" url
      then let '(a, _, b) := partition "?" url in (a, b) else (url, "") in
    if _checknetloc netloc
    then Some (mkSplit scheme netloc url query fragment)
    else None.

Definition urlparse (url scheme : string) : option ParseResult :=
  r ← urlsplit url scheme;
  let '(url, params) :=
    if mem (s_scheme r) uses_params && has_char ";" (s_path r)
    then _splitparams (s_path r) else (s_path r, "") in
  Some (mkParse (s_scheme r) (s_netloc r) url params (s_query r) (s_fragment r)).

Definition urlunsplit (scheme netloc url query fragment : string) : string :=
  let url :=
    if nonempty netloc ||
       (nonempty scheme && mem scheme uses_netloc &&
        negb (String.eqb (take 2 url) "//"))
    then
      let url :=
        if nonempty url && negb (String.eqb (take 1 url) "/")
        then "/" +:+ url else url in
      "//" +:+ netloc +:+ url
    else url in
  let url := if nonempty scheme then scheme +:+ ":" +:+ url else url in
  let url := if nonempty query then url +:+ "?" +:+ query else url in
  if nonempty fragment then url +:+ "#" +:+ fragment else url.

Definition urlunparse (p : ParseResult) : string :=
  let url :=
    if nonempty (params p) then path p +:+ ";" +:+ params p else path p in
  urlunsplit (scheme p) (netloc p) url (query p) (fragment p).

(** The loop over [segments] that builds [resolved_path]. *)
Definition resolve_segment (resolved_path : list string) (seg : string)
  : list string :=
  if String.eqb seg ".." then removelast resolved_path
  else if String.eqb seg "." then resolved_path
  else resolved_path ++ [seg].

(** [segments[1:-1] = filter(None, segments[1:-1])] *)
Definition filter_middle (segments : list string) : list string :=
  match segments with
  | first :: (_ :: _) as rest =>
      first :: List.filter nonempty (removelast rest) ++ [List.last rest ""]
  | _ => segments
  end.

(** [urljoin(base, url)]; [None] stands for [ValueError]. *)
Definition urljoin (base url : string) : option string :=
  if negb (nonempty base) then Some url
  else if negb (nonempty url) then Some base
  else
    b ← urlparse base "";
    u ← urlparse url (scheme b);
    if negb (String.eqb (scheme u) (scheme b)) ||
       negb (mem (scheme u) uses_relative)
    then Some url
    else if mem (scheme u) uses_netloc && nonempty (netloc u)
    then Some (urlunparse u)
    else
      let netloc' :=
        if mem (scheme u) uses_netloc then netloc b else netloc u in
      if negb (nonempty (path u)) && negb (nonempty (params u)) then
        let query' := if nonempty (query u) then query u else query b in
        Some (urlunparse
                (mkParse (scheme u) netloc' (path b) (params b) query'
                         (fragment u)))
      else
        let base_parts := split "/" (path b) in
        let base_parts :=
          if nonempty (List.last base_parts "")
          then removelast base_parts else base_parts in
        let segments :=
          if String.eqb (take 1 (path u)) "/" then split "/" (path u)
          else filter_middle (base_parts ++ split "/" (path u)) in
        let resolved_path := foldl resolve_segment [] segments in
        let resolved_path :=
          if mem (List.last segments "") ["."; ".."]
          then resolved_path ++ [""] else resolved_path in
        let joined := join "/" resolved_path in
        Some (urlunparse
                (mkParse (scheme u) netloc'
                         (if nonempty joined then joined else "/")
                         (params u) (query u) (fragment u))).

End parse.

End urllib_parse.

(** ** The collaborators of [crawl_page] *)

(** What [crawl_page] reads off [BeautifulSoup(response.text, 'html.parser')]:
    [soup.get_text(separator=" ", strip=True)] and the [href] values of
    [soup.find_all('a', href=True)], in document order. *)
Record Soup := mkSoup { get_text : string; a_href : list string }.

(** A [requests.Response]. *)
Record Response := mkResponse { status_code : Z; soup : Soup }.

Inductive Exception :=
| RequestException (detail : string)
    (** raised inside [requests.get]: [ConnectionError], [Timeout],
        [MissingSchema], [TooManyRedirects], ... *)
| HTTPError (status : Z)
    (** raised by [raise_for_status]; a subclass of [RequestException] *)
| ValueError
    (** raised by [urljoin] and by [ThreadPoolExecutor(max_workers=0)] *).

(** [isinstance(e, requests.exceptions.RequestException)] *)
Definition is_RequestException (e : Exception) : bool :=
  match e with
  | RequestException _ | HTTPError _ => true
  | ValueError => false
  end.

(** [Response.raise_for_status()] of [requests]: an [HTTPError] for a client
    error (4xx) or a server error (5xx), nothing otherwise. *)
Definition raise_for_status (r : Response) : option Exception :=
  if (400 <=? status_code r) && (status_code r <? 600)
  then Some (HTTPError (status_code r))
  else None.

(** The library functions and the network are parameters of the model. *)
Class Platform := {
  (** [str.lower] *)
  lower : string → string;
  (** [urllib.parse.urljoin]; [None] stands for [ValueError] *)
  urljoin : string → string → option string;
  (** [requests.get(url)]: the detail of the [RequestException] it raises or
      the response it returns *)
  requests_get : string → string + Response;
}.

(** The arguments that every activation of [crawl_page] passes on unchanged. *)
Class CrawlConfig := {
  query : string;
  max_threads : Z;
}.

(** A result pair [(query.lower(), url)]. *)
Definition Match : Type := string * string.

(** ** The body of [crawl_page] between two accesses to shared state *)

Section page.
Context `{Platform}.

(** Line 33. *)
Definition page_matches (query url all_text : string) : list Match :=
  if Str.contains (lower all_text) (lower query)
  then [(lower query, url)] else [].

(** The condition of the comprehension of line 35. *)
Definition candidate (url href : string) : bool :=
  Str.startswith href "/" || Str.startswith href url.

(** Line 35. *)
Definition candidates (url : string) (hrefs : list string) : list string :=
  List.filter (candidate url) hrefs.

(** Lines 35 and 36; [None] when one [urljoin] raises. *)
Definition page_links (url : string) (hrefs : list string)
  : option (list string) :=
  mapM (urljoin url) (candidates url hrefs).

End page.

(** ** Activations, futures and the shared state

    [crawl_page] runs in many threads at once: line 40 submits one call per
    link to a pool that line 39 has just created, and the caller waits in
    the loop of line 41.  All calls share the one set [visited_urls].

    The model is a tree: an activation that has reached its pool holds its
    futures, and a future that runs holds the activation it runs.  A step
    moves one thread.  What lies between two steps of a thread:

    - Python promises no atomicity across statements, so the test of
      line 23 and the add of line 25 are two steps, and so is everything
      else that reads or writes the shared set;
    - [requests.get] is entered in one step and left in another, so that
      the requests in flight can be counted;
    - lines 28 to 40 only touch local variables (and, at line 47, the
      output) and are taken together with the return of [requests.get];
    - a pool starts its work items in the order of submission, at most
      [max_threads] at a time, and [as_completed] hands out the finished
      futures in any order.

    The web does not change during a run: [requests_get] is a function of
    the url. *)

(** A future of a [ThreadPoolExecutor]: submitted and waiting for a worker,
    being run by a worker (or finished, when the activation it runs has
    returned or raised), or already handed out by [as_completed]. *)
Inductive future (F : Type) :=
| Pending (link : string)
| Running (f : F)
| Yielded.
Arguments Pending {F} link.
Arguments Running {F} f.
Arguments Yielded {F}.
Scheme All for list.
Scheme All for future.

(** An activation of [crawl_page], by the point its thread has reached. *)
Inductive frame :=
| AtTest (url : string)
    (** about to evaluate [url in visited_urls], line 23 *)
| AtAdd (url : string)
    (** the test was false; about to run [visited_urls.add(url)], line 25 *)
| AtGet (url : string)
    (** about to call [requests.get(url)], line 27 *)
| InGet (url : string)
    (** blocked in [requests.get(url)] *)
| InPool (url : string) (matches : list Match) (futures : list (future frame))
    (** inside the [with] block, in the loop of line 41 *)
| Unwinding (url : string) (e : Exception) (futures : list (future frame))
    (** [future.result()] raised [e]; the [with] block is being left and
        [shutdown(wait=True)] waits for the workers *)
| Returned (url : string) (result : list Match)
| Raised (url : string) (e : Exception).

(** What an observer of a run sees, in order. *)
Inductive event :=
| Requested (url : string)              (** [requests.get(url)] was called *)
| Accepted (url : string)               (** line 28 let the response through *)
| Printed (url : string) (e : Exception)  (** line 47 *)
| Escaped (url : string) (e : Exception). (** [e] left [crawl_page(url)] *)

(** The set object that all activations share, and the history of the run. *)
Record shared := mkShared {
  visited_urls : gset string;
  history : list event;
}.

Definition log (ev : event) (σ : shared) : shared :=
  mkShared (visited_urls σ) (history σ ++ [ev]).

Definition add_visited (url : string) (σ : shared) : shared :=
  mkShared ({[url]} ∪ visited_urls σ) (history σ).

Definition finished (f : frame) : bool :=
  match f with
  | Returned _ _ | Raised _ _ => true
  | _ => false
  end.

Definition future_done (x : future frame) : bool :=
  match x with
  | Pending _ => false
  | Running g => finished g
  | Yielded => true
  end.

Definition is_Yielded (x : future frame) : bool :=
  match x with Yielded => true | _ => false end.

Definition is_busy (x : future frame) : bool :=
  match x with Running g => negb (finished g) | _ => false end.

(** The number of workers of a pool that are running a task. *)
Definition busy (futures : list (future frame)) : nat :=
  length (List.filter is_busy futures).

(** A call [crawl_page(url, query, visited_urls, max_threads)]: a new
    activation, at line 23.  [query] and [max_threads] are those of the
    [CrawlConfig], [visited_urls] is the set of the shared state. *)
Definition crawl_page (url : string) : frame := AtTest url.

(** A free worker takes the oldest pending work item, a call of
    [crawl_page] submitted at line 40. *)
Fixpoint start_first (futures : list (future frame))
  : option (list (future frame)) :=
  match futures with
  | [] => None
  | Pending link :: rest => Some (Running (crawl_page link) :: rest)
  | x :: rest => cons x <$> start_first rest
  end.

(** The schedule of a run names, step by step, the thread that moves. *)
Inductive action :=
| Tick                       (** the thread of this activation moves *)
| Start                      (** a worker of this activation's pool starts *)
| Yield (i : nat)            (** [as_completed] hands out future [i] *)
| In (i : nat) (a : action). (** [a] happens inside future [i] *)

Section crawl.
Context `{Platform} `{CrawlConfig}.

(** Lines 46 to 48 for a [RequestException]; any other exception leaves
    the activation. *)
Definition handle (σ : shared) (url : string) (e : Exception)
  : shared * frame :=
  if is_RequestException e
  then (log (Printed url e) σ, Returned url [])
  else (log (Escaped url e) σ, Raised url e).

(** Lines 27 to 40, from the moment [requests.get] comes back. *)
Definition receive (σ : shared) (url : string) : shared * frame :=
  match requests_get url with
  | inl detail => handle σ url (RequestException detail)
  | inr response =>
      match raise_for_status response with
      | Some e => handle σ url e
      | None =>
          let σ := log (Accepted url) σ in
          let matches := page_matches query url (get_text (soup response)) in
          match page_links url (a_href (soup response)) with
          | None => handle σ url ValueError
          | Some links =>
              if max_threads <=? 0 then handle σ url ValueError
              else (σ, InPool url matches (Pending <$> links))
          end
      end
  end.

(** One move of the activation's own thread. *)
Definition tick (σ : shared) (f : frame) : option (shared * frame) :=
  match f with
  | AtTest url =>
      if bool_decide (url ∈ visited_urls σ)
      then Some (σ, Returned url [])
      else Some (σ, AtAdd url)
  | AtAdd url => Some (add_visited url σ, AtGet url)
  | AtGet url => Some (log (Requested url) σ, InGet url)
  | InGet url => Some (receive σ url)
  | InPool url matches futures =>
      if forallb is_Yielded futures
      then Some (σ, Returned url matches) else None
  | Unwinding url e futures =>
      if forallb future_done futures
      then Some (handle σ url e) else None
  | Returned _ _ | Raised _ _ => None
  end.

(** The same moves as a relation. *)
Inductive ticks (σ : shared) : frame → shared → frame → Prop :=
| ticks_test_in url :
    url ∈ visited_urls σ → ticks σ (AtTest url) σ (Returned url [])
| ticks_test_out url :
    url ∉ visited_urls σ → ticks σ (AtTest url) σ (AtAdd url)
| ticks_add url : ticks σ (AtAdd url) (add_visited url σ) (AtGet url)
| ticks_get url : ticks σ (AtGet url) (log (Requested url) σ) (InGet url)
| ticks_receive url :
    ticks σ (InGet url) (receive σ url).1 (receive σ url).2
| ticks_return url matches futures :
    forallb is_Yielded futures = true →
    ticks σ (InPool url matches futures) σ (Returned url matches)
| ticks_unwound url e futures :
    forallb future_done futures = true →
    ticks σ (Unwinding url e futures) (handle σ url e).1 (handle σ url e).2.

(** A worker of the activation's pool takes the next work item, if fewer
    than [max_threads] of them are at work. *)
Definition start (f : frame) : option frame :=
  match f with
  | InPool url matches futures =>
      if Z.of_nat (busy futures) <? max_threads
      then InPool url matches <$> start_first futures else None
  | Unwinding url e futures =>
      if Z.of_nat (busy futures) <? max_threads
      then Unwinding url e <$> start_first futures else None
  | _ => None
  end.

(** Line 42 for a finished future: [matches.extend(future.result())]. *)
Definition yield (i : nat) (f : frame) : option frame :=
  match f with
  | InPool url matches futures =>
      match futures !! i with
      | Some (Running (Returned _ result)) =>
          Some (InPool url (matches ++ result) (<[i := Yielded]> futures))
      | Some (Running (Raised _ e)) =>
          Some (Unwinding url e (<[i := Yielded]> futures))
      | _ => None
      end
  | _ => None
  end.

Definition step_in (i : nat) (f : frame)
    (k : frame → option (shared * frame)) : option (shared * frame) :=
  match f with
  | InPool url matches futures =>
      match futures !! i with
      | Some (Running g) =>
          '(σ', g') ← k g;
          Some (σ', InPool url matches (<[i := Running g']> futures))
      | _ => None
      end
  | Unwinding url e futures =>
      match futures !! i with
      | Some (Running g) =>
          '(σ', g') ← k g;
          Some (σ', Unwinding url e (<[i := Running g']> futures))
      | _ => None
      end
  | _ => None
  end.

(** One step of the whole tree of activations. *)
Fixpoint step (a : action) (σ : shared) (f : frame)
  : option (shared * frame) :=
  match a with
  | Tick => tick σ f
  | Start => pair σ <$> start f
  | Yield i => pair σ <$> yield i f
  | In i a' => step_in i f (step a' σ)
  end.

Fixpoint run (schedule : list action) (σ : shared) (f : frame)
  : option (shared * frame) :=
  match schedule with
  | [] => Some (σ, f)
  | a :: rest => '(σ', f') ← step a σ f; run rest σ' f'
  end.

End crawl.

(** The shared state at the call of line 72,
    [crawl_page(args.homepage, args.query, set(), args.threads)]. *)
Definition initial : shared := mkShared ∅ [].

(** The urls that [requests.get] was called with, in order. *)
Definition fetches (σ : shared) : list string :=
  omap (λ ev, match ev with Requested u => Some u | _ => None end) (history σ).

(** The lines printed by line 47. *)
Definition stdout (σ : shared) : list (string * Exception) :=
  omap (λ ev, match ev with Printed u e => Some (u, e) | _ => None end)
       (history σ).

(** The sum of a weight over the activations that the futures of a pool are
    running. *)
Definition sum_futures (w : frame → nat) (futures : list (future frame)) : nat :=
  list_sum (List.map (λ x, match x with Running g => w g | _ => O end) futures).

(** The number of activations that are blocked in [requests.get]. *)
Fixpoint in_flight (f : frame) : nat :=
  match f with
  | InGet _ => 1%nat
  | InPool _ _ futures | Unwinding _ _ futures => sum_futures in_flight futures
  | _ => O
  end.

(** The number of thread pools that exist. *)
Fixpoint pools (f : frame) : nat :=
  match f with
  | InPool _ _ futures | Unwinding _ _ futures => S (sum_futures pools futures)
  | _ => O
  end.

(** ** Observations on a tree of activations *)

Definition running (sub : frame → list frame) (x : future frame) : list frame :=
  match x with Running g => sub g | _ => [] end.

(** All the activations of a tree, the root first. *)
Fixpoint subframes (f : frame) : list frame :=
  f :: match f with
       | InPool _ _ futures | Unwinding _ _ futures =>
           futures ≫= running subframes
       | _ => []
       end.

Definition url_of (f : frame) : string :=
  match f with
  | AtTest u | AtAdd u | AtGet u | InGet u | InPool u _ _ | Unwinding u _ _
  | Returned u _ | Raised u _ => u
  end.

(** The activation has left line 25 behind, or has returned at line 24. *)
Definition past_add (f : frame) : bool :=
  match f with
  | AtTest _ | AtAdd _ => false
  | _ => true
  end.

(** The activation has passed the test of line 23 and has not yet called
    [requests.get]. *)
Definition claiming (url : string) (f : frame) : bool :=
  match f with
  | AtAdd u | AtGet u => bool_decide (u = url)
  | _ => false
  end.

(** The result pairs an activation holds in [matches] or as its result. *)
Definition holds (f : frame) : list Match :=
  match f with
  | InPool _ matches _ => matches
  | Returned _ result => result
  | _ => []
  end.

(** All the result pairs that exist in a tree. *)
Definition held (f : frame) : list Match := subframes f ≫= holds.

Definition raising (f : frame) : bool :=
  match f with
  | Unwinding _ _ _ | Raised _ _ => true
  | _ => false
  end.

(** The exception an activation is propagating, if any. *)
Definition carried (f : frame) : option Exception :=
  match f with
  | Unwinding _ e _ | Raised _ e => Some e
  | _ => None
  end.

(** The urls whose response line 28 let through, in order. *)
Definition accepted (σ : shared) : list string :=
  omap (λ ev, match ev with Accepted u => Some u | _ => None end) (history σ).

(** The exceptions that left an activation, in order. *)
Definition escapes (σ : shared) : list (string * Exception) :=
  omap (λ ev, match ev with Escaped u e => Some (u, e) | _ => None end)
       (history σ).

(** How often [x] occurs in [l]. *)
Definition occurrences (x : string) (l : list string) : nat :=
  length (filter (λ y, y = x) l).

(** How often [requests.get] was called with [url]. *)
Definition fetch_count (url : string) (σ : shared) : nat :=
  occurrences url (fetches σ).

(** The action [a] at the activation that [path] leads to. *)
Fixpoint at_path (path : list nat) (a : action) : action :=
  match path with
  | [] => a
  | i :: path' => In i (at_path path' a)
  end.

(** The activation owns a thread pool. *)
Definition pooled (f : frame) : bool :=
  match f with
  | InPool _ _ _ | Unwinding _ _ _ => true
  | _ => false
  end.

Definition futures_of (f : frame) : list (future frame) :=
  match f with
  | InPool _ _ futures | Unwinding _ _ futures => futures
  | _ => []
  end.

Definition with_futures (f : frame) (futures : list (future frame)) : frame :=
  match f with
  | InPool url matches _ => InPool url matches futures
  | Unwinding url e _ => Unwinding url e futures
  | _ => f
  end.

(** The activation that [path] leads to. *)
Fixpoint subframe (path : list nat) (f : frame) : option frame :=
  match path with
  | [] => Some f
  | i :: path' =>
      match futures_of f !! i with
      | Some (Running g) => subframe path' g
      | _ => None
      end
  end.

(** The tree [f] with the activation at [path] replaced by [new]. *)
Fixpoint replace (path : list nat) (new : frame) (f : frame) : frame :=
  match path with
  | [] => new
  | i :: path' =>
      match futures_of f !! i with
      | Some (Running g) =>
          with_futures f (<[i := Running (replace path' new g)]> (futures_of f))
      | _ => f
      end
  end.

Section observations.
Context `{Platform} `{CrawlConfig}.

(** [requests.get(url)] or [raise_for_status()] raises [e]. *)
Definition fetch_error (url : string) : option Exception :=
  match requests_get url with
  | inl detail => Some (RequestException detail)
  | inr response => raise_for_status response
  end.

(** The result pairs that line 33 makes of the page at [url]. *)
Definition matches_at (url : string) : list Match :=
  match requests_get url with
  | inl _ => []
  | inr response => page_matches query url (get_text (soup response))
  end.

(** The links of lines 35 and 36 for the page at [url]. *)
Definition links_at (url : string) : option (list string) :=
  match requests_get url with
  | inl _ => Some []
  | inr response => page_links url (a_href (soup response))
  end.

(** Every activation that has passed line 25 finds its url in the set. *)
Definition claimed_visited (σ : shared) (f : frame) : Prop :=
  ∀ g, g ∈ subframes f → past_add g = true → url_of g ∈ visited_urls σ.

(** Every url that was requested is in the set. *)
Definition fetched_visited (σ : shared) : Prop :=
  ∀ u, u ∈ fetches σ → u ∈ visited_urls σ.

(** [url] is in the set and no activation stands between its test of
    [url] and its request for it. *)
Definition settled (url : string) (σ : shared) (f : frame) : Prop :=
  url ∈ visited_urls σ ∧ ∀ g, g ∈ subframes f → claiming url g = false.

(** No activation propagates an exception. *)
Definition clean (f : frame) : Prop :=
  ∀ g, g ∈ subframes f → raising g = false.

(** Some activation propagates an exception. *)
Definition dirty (f : frame) : Prop :=
  ∃ g, g ∈ subframes f ∧ raising g = true.

(** The result pairs of the accepted responses, in order. *)
Definition expected (σ : shared) : list Match := accepted σ ≫= matches_at.

(** The exceptions being propagated are the ones line 46 does not catch. *)
Definition uncaught_only (f : frame) : Prop :=
  ∀ g e, g ∈ subframes f → carried g = Some e → is_RequestException e = false.

(** [schedule] is a run of [crawl_page(homepage, query, set(), threads)]
    that has led to the shared state [σ] and the tree [f]. *)
Definition reaches (homepage : string) (schedule : list action)
    (σ : shared) (f : frame) : Prop :=
  run schedule initial (crawl_page homepage) = Some (σ, f).

End observations.

(** ** A measure of the work that is left *)

(** The most steps that an activation at line 23 can cause, when [n] urls
    of the site are not yet in the set and no page has more than [B]
    links: two steps to the request, two more to the pool, and for each
    link a start, the child's own steps and a yield, then the return. *)
Fixpoint test_cost (B n : nat) : nat :=
  match n with
  | O => 1
  | S m => 5 + B * (2 + test_cost B m)
  end.

(** The same for an activation that waits in [requests.get]. *)
Definition receive_cost (B n : nat) : nat := 2 + B * (2 + test_cost B n).

(** The urls of a site. *)
Class Site := site_urls : gset string.

Section measure.
Context `{Platform} `{CrawlConfig} `{Site}.

(** No link of a page of the site leads out of the site. *)
Definition closed : Prop :=
  ∀ url links link,
    url ∈ site_urls → links_at url = Some links → link ∈ links →
    link ∈ site_urls.

(** The largest number of links on a page of the site. *)
Definition fanout : nat :=
  max_list ((λ url, length (default [] (links_at url))) <$> elements site_urls).

(** The urls of the site that are not in the set, [url] not counted. *)
Definition unvisited (σ : shared) (url : string) : nat :=
  size (site_urls ∖ ({[url]} ∪ visited_urls σ)).

(** A bound on the steps of an activation that stands at line 23. *)
Definition test_weight (σ : shared) (url : string) : nat :=
  if bool_decide (url ∈ visited_urls σ) then 1
  else 3 + receive_cost fanout (unvisited σ url).

Definition future_weight (w : frame → nat) (σ : shared) (x : future frame)
  : nat :=
  match x with
  | Pending link => 2 + test_weight σ link
  | Running g => 1 + w g
  | Yielded => 0
  end.

(** A bound on the number of steps that the tree [f] can still take. *)
Fixpoint weight (σ : shared) (f : frame) : nat :=
  match f with
  | AtTest url => test_weight σ url
  | AtAdd url => 2 + receive_cost fanout (unvisited σ url)
  | AtGet url => 1 + receive_cost fanout (unvisited σ url)
  | InGet url => receive_cost fanout (unvisited σ url)
  | InPool _ _ futures | Unwinding _ _ futures =>
      1 + list_sum (List.map (future_weight (weight σ) σ) futures)
  | Returned _ _ | Raised _ _ => 0
  end.

(** Every url that occurs in the tree is a url of the site. *)
Definition inside (f : frame) : Prop :=
  ∀ g, g ∈ subframes f →
       url_of g ∈ site_urls ∧
       ∀ link, Pending link ∈ futures_of g → link ∈ site_urls.

End measure.

(** No pool runs more than [max_threads] activations at a time. *)
Definition bounded `{CrawlConfig} (f : frame) : Prop :=
  ∀ g, g ∈ subframes f → pooled g = true →
       Z.of_nat (busy (futures_of g)) ≤ max_threads.

(** No activation that stands between its test and its request has been
    overtaken: the url it is about to add is not in the set, the url it is
    about to request has not been requested. *)
Definition unclaimed (σ : shared) (f : frame) : Prop :=
  ∀ g url, g ∈ subframes f →
           (g = AtAdd url → url ∉ visited_urls σ) ∧
           (g = AtGet url → url ∉ fetches σ).

(** What holds throughout a run with one worker per pool. *)
Definition one_worker_invariant `{CrawlConfig} (σ : shared) (f : frame)
  : Prop :=
  bounded f ∧ claimed_visited σ f ∧ fetched_visited σ ∧ unclaimed σ f ∧
  NoDup (fetches σ).

(** A pool exists only if [max_threads] is positive. *)
Definition pools_allowed `{CrawlConfig} (f : frame) : Prop :=
  0 < max_threads ∨ pools f = O.

(** ** Further observations on a run *)

(** The url of the request an activation is waiting for. *)
Definition awaits (f : frame) : list string :=
  match f with InGet url => [url] | _ => [] end.

(** The urls of all the requests that are in flight. *)
Definition awaited (f : frame) : list string := subframes f ≫= awaits.

(** The urls of the lines printed by line 47. *)
Definition printed (σ : shared) : list string := (stdout σ).*1.

(** The number of activations that stand between their test of [url]
    and their request for it. *)
Definition racers (url : string) (f : frame) : nat :=
  length (List.filter (claiming url) (subframes f)).

Section more_observations.
Context `{Platform} `{CrawlConfig}.

(** A page was accepted for which line 36 or line 39 raises. *)
Definition cause (σ : shared) : Prop :=
  ∃ url, url ∈ accepted σ ∧ (links_at url = None ∨ max_threads ≤ 0).

(** A page that was accepted although line 36 or line 39 raises for it
    has let [ValueError] out of its activation. *)
Definition rejected_escaped (σ : shared) : Prop :=
  ∀ page, page ∈ accepted σ → links_at page = None ∨ max_threads ≤ 0 →
          (page, ValueError) ∈ escapes σ.

(** The urls that can be reached from the homepage along the links of
    pages whose fetch does not fail. *)
Inductive reachable (homepage : string) : string → Prop :=
| reachable_homepage : reachable homepage homepage
| reachable_link page links link :
    reachable homepage page →
    fetch_error page = None → links_at page = Some links → link ∈ links →
    reachable homepage link.

(** Every url that occurs in the tree or in the set can be reached. *)
Definition all_reachable (homepage : string) (σ : shared) (f : frame)
  : Prop :=
  (∀ g, g ∈ subframes f →
        reachable homepage (url_of g) ∧
        ∀ link, Pending link ∈ futures_of g → reachable homepage link) ∧
  (∀ url, url ∈ visited_urls σ → reachable homepage url).

(** [url] is the homepage or a link of a page that the events [h] show
    as accepted. *)
Definition found (homepage : string) (h : list event) (url : string)
  : Prop :=
  url = homepage ∨
  ∃ page links,
    Accepted page ∈ h ∧ links_at page = Some links ∧ url ∈ links.

(** Every url that occurs in the tree was found, and every request
    was made for a url that had been found before. *)
Definition all_found (homepage : string) (σ : shared) (f : frame) : Prop :=
  (∀ g, g ∈ subframes f →
        found homepage (history σ) (url_of g) ∧
        ∀ link, Pending link ∈ futures_of g →
                found homepage (history σ) link) ∧
  (∀ before url after,
      history σ = before ++ Requested url :: after →
      found homepage before url).

(** [link] is in the set, or a call of [crawl_page] for it is waiting in a
    pool or has not yet reached line 27. *)
Definition covered (σ : shared) (f : frame) (link : string) : Prop :=
  link ∈ visited_urls σ ∨
  ∃ g, g ∈ subframes f ∧
       (Pending link ∈ futures_of g ∨ g = AtTest link ∨ g = AtAdd link).

(** The links of every accepted page are covered. *)
Definition all_covered (σ : shared) (f : frame) : Prop :=
  ∀ page links link,
    page ∈ accepted σ → links_at page = Some links → link ∈ links →
    covered σ f link.

(** Every url of the set was requested or is about to be. *)
Definition visited_fetched (σ : shared) (f : frame) : Prop :=
  ∀ url, url ∈ visited_urls σ →
         url ∈ fetches σ ∨ AtGet url ∈ subframes f.

End more_observations.

(** ** [csv.writer] with its default dialect *)

Module csv.

(** The dialect [excel]: fields are separated by a comma and quoted with
    the double quote, only where needed ([QUOTE_MINIMAL]); a quote inside
    a field is doubled ([doublequote], no [escapechar]); a row ends with
    CR LF. *)
Definition delimiter : ascii := ","%char.
Definition quotechar : ascii := "034"%char.
Definition lineterminator : string := String "013" (String "010" "").

(** The characters for which [join_append_data] sets [quoted]. *)
Definition special (c : ascii) : bool :=
  Ascii.eqb c delimiter || Ascii.eqb c quotechar ||
  Str.has_char c lineterminator.

Definition needs_quotes (field : string) : bool :=
  negb (Str.forallb (λ c, negb (special c)) field).

(** The copy loop of [join_append_data]: the characters of the field, a
    [quotechar] written twice. *)
Fixpoint field_data (field : string) : string :=
  match field with
  | "" => ""
  | String c rest =>
      if Ascii.eqb c quotechar
      then String quotechar (String c (field_data rest))
      else String c (field_data rest)
  end.

(** The record under construction: the number of fields it holds and its
    text. *)
Record Writer := mkWriter { num_fields : nat; rec : string }.

(** [join_append]: the delimiter unless the field is the first, then the
    field, between quotes when [quoted] is set or the field needs them. *)
Definition join_append (w : Writer) (field : string) (quoted : bool)
  : Writer :=
  let quoted := quoted || needs_quotes field in
  mkWriter (S (num_fields w))
    (rec w +:+
     (if num_fields w is O then "" else String delimiter "") +:+
     (if quoted
      then String quotechar (field_data field +:+ String quotechar "")
      else field_data field)).

(** [writer.writerow(row)] for a row of strings: the text that is passed
    to the [write] of the file.  A row of one empty field is written as a
    pair of quotes. *)
Definition writerow (row : list string) : string :=
  let w := foldl (λ w field, join_append w field false) (mkWriter 0 "") row in
  let w :=
    if bool_decide (num_fields w ≠ O ∧ rec w = "")
    then join_append (mkWriter 0 "") "" true else w in
  rec w +:+ lineterminator.

End csv.

(** ** [save_results_to_csv] *)

(** The files of the working directory, by name: the text of each. *)
Definition files : Type := gmap string string.

(** Lines 58 to 62.  [open(csv_file, 'w', newline='')] makes the file
    empty, and no newline is translated; every [writerow] appends its
    text.  The file is taken to open: an [OSError] of [open] is outside
    the model. *)
Definition save_results_to_csv (results : list Match) (csv_file : string)
    (fs : files) : files :=
  let file := "" in
  let file := file +:+ csv.writerow ["Text"; "URL"] in
  let file :=
    foldl (λ file '(text, url), file +:+ csv.writerow [text; url])
          file results in
  <[csv_file := file]> fs.

(** A reader for the rows that [save_results_to_csv] writes.  It is not
    part of the program: the proofs use it as a left inverse of the
    writer. *)
Module csv_read.
Import csv.

(** The rest of a quoted field, after its opening quote: up to the first
    quote that is not doubled. *)
Fixpoint read_quoted (s : string) : option (string * string) :=
  match s with
  | "" => None
  | String c s' =>
      if Ascii.eqb c quotechar then
        match s' with
        | String c' s'' =>
            if Ascii.eqb c' quotechar
            then '(field, rest) ← read_quoted s''; Some (String c' field, rest)
            else Some ("", s')
        | "" => Some ("", "")
        end
      else '(field, rest) ← read_quoted s'; Some (String c field, rest)
  end.

(** A field without quotes: up to the first special character. *)
Fixpoint read_plain (s : string) : string * string :=
  match s with
  | "" => ("", "")
  | String c s' =>
      if special c then ("", s)
      else let '(field, rest) := read_plain s' in (String c field, rest)
  end.

Definition read_field (s : string) : option (string * string) :=
  match s with
  | String c s' =>
      if Ascii.eqb c quotechar then read_quoted s' else Some (read_plain s)
  | "" => Some ("", "")
  end.

Definition expect (p s : string) : option string :=
  if Str.startswith s p then Some (Str.drop (String.length p) s) else None.

(** One row of two fields, and what follows it. *)
Definition read_pair (s : string) : option (Match * string) :=
  '(text, s) ← read_field s;
  s ← expect (String delimiter "") s;
  '(url, s) ← read_field s;
  s ← expect lineterminator s;
  Some ((text, url), s).

(** The text that [join_append] adds for a field. *)
Definition written (field : string) : string :=
  if needs_quotes field
  then String quotechar (field_data field +:+ String quotechar "")
  else field_data field.

(** The text of the rows of [results]. *)
Definition rows (results : list Match) : string :=
  foldr (λ '(text, url) s, writerow [text; url] +:+ s) "" results.

End csv_read.

(** ** The program *)

(** The [Namespace] that [parser.parse_args()] returns: the two
    positional arguments and the value of [-t]/[--threads], an [int], 8
    when the option is not given. *)
Module Namespace.
Record t := mk { homepage : string; query : string; threads : Z }.
End Namespace.

(** The arguments that line 72 passes to [crawl_page]. *)
Definition config_of (args : Namespace.t) : CrawlConfig :=
  {| query := Namespace.query args; max_threads := Namespace.threads args |}.

(** Lines 72 and 73 of [main], for the arguments [args], in a directory
    with the files [fs].  The crawl runs under [schedule]; when it
    returns, the results are saved, and when it raises, the exception
    ends the program before line 73.  The outcome is the shared state
    at the end of the crawl, the files, and the exception that ended
    the program, if any; there is none when [schedule] stops before
    the crawl has ended. *)
Definition main `{Platform} (args : Namespace.t) (schedule : list action)
    (fs : files) : option (shared * files * option Exception) :=
  match
    @run _ (config_of args) schedule initial
      (crawl_page (Namespace.homepage args))
  with
  | Some (σ, Returned _ results) =>
      Some (σ, save_results_to_csv results "search_results.csv" fs, None)
  | Some (σ, Raised _ e) => Some (σ, fs, Some e)
  | _ => None
  end.

(** ** Concrete platforms *)

(** [urljoin] of CPython 3.11, for authorities whose bracketed hosts and
    non-ASCII characters pass the two library checks. *)
Definition cpython_urljoin : string → string → option string :=
  urllib_parse.urljoin (λ _, true) (λ _, true).

(** A web site given by the table of its pages; [requests.get] fails to
    connect for every other url. *)
Definition site (pages : list (string * (string + Response))) : Platform := {|
  lower := Str.ascii_lower;
  urljoin := cpython_urljoin;
  requests_get url := default (inl "ConnectionError") (list_to_map (M := gmap string _) pages !! url);
|}.

Definition page (url all_text : string) (hrefs : list string)
  : string * (string + Response) :=
  (url, inr (mkResponse 200 (mkSoup all_text hrefs))).

(** A links to B twice, B links back to A. *)
Definition twice_site : Platform :=
  site [ page "http://x.com/" "home" ["/b"; "/b"];
         page "http://x.com/b" "hello" ["/"] ].

(** A links to B and C, both link to D, and D links back to A. *)
Definition diamond_site : Platform :=
  site [ page "http://x.com/" "home" ["/b"; "/c"];
         page "http://x.com/b" "b" ["/d"];
         page "http://x.com/c" "c" ["/d"];
         page "http://x.com/d" "hello" ["/"] ].

Definition diamond_urls : Site :=
  ({[ "http://x.com/"; "http://x.com/b"; "http://x.com/c"; "http://x.com/d" ]}
   : gset string).

(** A links to B and C, B to D and E, C to F and G. *)
Definition tree_site : Platform :=
  site [ page "http://x.com/" "home" ["/b"; "/c"];
         page "http://x.com/b" "b" ["/d"; "/e"];
         page "http://x.com/c" "c" ["/f"; "/g"];
         page "http://x.com/d" "d" [];
         page "http://x.com/e" "e" [];
         page "http://x.com/f" "f" [];
         page "http://x.com/g" "g" [] ].

Definition config (query : string) (max_threads : Z) : CrawlConfig :=
  {| query := query; max_threads := max_threads |}.

(** A answers 300 Multiple Choices with a body. *)
Definition choices_site : Platform :=
  site [ ("http://x.com/",
          inr (mkResponse 300 (mkSoup "hello" ["/b"]))) ].

(** A links to B, which answers 500, and to C. *)
Definition faulty_site : Platform :=
  site [ page "http://x.com/" "home" ["/b"; "/c"];
         ("http://x.com/b", inr (mkResponse 500 (mkSoup "hello" ["/d"])));
         page "http://x.com/c" "say hello" [] ].

(** A links to B and C, B links back to A and on to D; only D says hello. *)
Definition scenario_site : Platform :=
  site [ page "http://x.com/" "home" ["/b"; "/c"];
         page "http://x.com/b" "b" ["/"; "/d"];
         page "http://x.com/c" "c" [];
         page "http://x.com/d" "Hello there" [] ].

(** A has an anchor whose authority opens a bracket and never closes it. *)
Definition malformed_site : Platform :=
  site [ page "http://x.com/" "home" ["//["] ].

(** A links to B and C; B has an anchor whose authority opens a bracket
    and never closes it; C says hello. *)
Definition inner_malformed_site : Platform :=
  site [ page "http://x.com/" "home" ["/b"; "/c"];
         page "http://x.com/b" "b" ["//["];
         page "http://x.com/c" "say hello" [] ].

(** A site whose homepage does not answer. *)
Definition silent_site : Platform := site [].

(** ** Schedules *)

Definition walk (path : list nat) (n : nat) : list action :=
  replicate n (at_path path Tick).

(** The activation at [path] runs from line 23 into [requests.get]. *)
Definition to_get (path : list nat) : list action := walk path 3.

(** The activation at [path] runs from line 23 up to its pool, and
    [workers] workers of the pool start. *)
Definition to_pool (path : list nat) (workers : nat) : list action :=
  walk path 4 ++ replicate workers (at_path path Start).

(** On [diamond_site]: A, B and C have opened their pools and each of B
    and C has started its worker for D. *)
Definition pools_open : list action :=
  to_pool [] 2 ++ to_pool [0%nat] 1 ++ to_pool [1%nat] 1.

(** Both activations for D evaluate the test of line 23 before either runs
    line 25. *)
Definition both_test : list action :=
  pools_open ++ walk [0; 0]%nat 1 ++ walk [1; 0]%nat 1.

(** Then both add D and both call [requests.get]. *)
Definition both_request : list action :=
  both_test ++ walk [0; 0]%nat 1 ++ walk [1; 0]%nat 1 ++
  walk [0; 0]%nat 1 ++ walk [1; 0]%nat 1.

(** The activation for D at [path] gets its response, starts the worker
    for A, which returns at line 24, and returns. *)
Definition finish_D (path : list nat) : list action :=
  [at_path path Tick; at_path path Start; at_path (path ++ [0%nat]) Tick;
   at_path path (Yield 0); at_path path Tick].

(** Then everything runs to its end and the root returns. *)
Definition both_return : list action :=
  both_request ++ finish_D [0; 0]%nat ++ finish_D [1; 0]%nat ++
  [In 0 (Yield 0); In 0 Tick; In 1 (Yield 0); In 1 Tick;
   Yield 0; Yield 1; Tick].

(** On [tree_site]: the pools of A, B and C are open and the activations
    for D, E, F and G are in [requests.get]. *)
Definition four_requests : list action :=
  to_pool [] 2 ++ to_pool [0%nat] 2 ++ to_pool [1%nat] 2 ++
  to_get [0; 0]%nat ++ to_get [0; 1]%nat ++
  to_get [1; 0]%nat ++ to_get [1; 1]%nat.

(** On [faulty_site], one worker at a time: B fails, C is crawled. *)
Definition until_B_requested : list action :=
  to_pool [] 1 ++ to_get [0%nat].

Definition until_B_failed : list action :=
  until_B_requested ++ walk [0%nat] 1.

(** On [twice_site], one worker at a time, to the end. *)
Definition twice_one_by_one : list action :=
  to_pool [] 1 ++ to_pool [0%nat] 1 ++
  [In 0 (In 0 Tick); In 0 (Yield 0); In 0 Tick; Yield 0; Start; In 1 Tick;
   Yield 1; Tick].

(** The activation at [path] has no links: it runs from line 23 to its
    return. *)
Definition leaf (path : list nat) : list action := walk path 5.

(** On [faulty_site], one worker at a time, to the end. *)
Definition faulty_one_by_one : list action :=
  until_B_failed ++ [Yield 0; Start] ++ leaf [1%nat] ++ [Yield 1; Tick].

(** On [scenario_site], one worker at a time, to the end. *)
Definition scenario_one_by_one : list action :=
  to_pool [] 1 ++ to_pool [0%nat] 1 ++ walk [0; 0]%nat 1 ++
  [In 0 (Yield 0); In 0 Start] ++ leaf [0; 1]%nat ++
  [In 0 (Yield 1); In 0 Tick; Yield 0; Start] ++ leaf [1%nat] ++
  [Yield 1; Tick].

(** On [inner_malformed_site], one worker at a time, to the end: the call
    for B raises, the root takes the exception out of the future of B,
    the worker still runs the call for C while the pool shuts down, and
    the root raises. *)
Definition malformed_one_by_one : list action :=
  to_pool [] 1 ++ walk [0%nat] 4 ++ [Yield 0; Start] ++ leaf [1%nat] ++
  [Tick].

(** * Properties *)

(** ** Strings *)

Section str_facts.
Import Str.

Lemma startswith_spec s p :
  startswith s p = true ↔ ∃ rest, s = p +:+ rest.
Proof.
  revert s. induction p as [|b p IH]; intros s; simpl.
  - split; [intros _; by exists s | done].
  - destruct s as [|a s].
    + split; [done | intros [rest Hrest]; discriminate].
    + destruct (Ascii.eqb_spec a b) as [->|Hne].
      * rewrite IH. split; intros [rest Hrest]; exists rest.
        -- by rewrite Hrest.
        -- by injection Hrest.
      * split; [done | intros [rest Hrest]].
        injection Hrest as Hab _. by destruct Hne.
Qed.

Lemma startswith_empty s : startswith s "" = true.
Proof. done. Qed.

Lemma contains_spec s sub :
  contains s sub = true ↔ ∃ before after, s = before +:+ sub +:+ after.
Proof.
  induction s as [|a s IH]; simpl.
  - rewrite orb_false_r, startswith_spec. split.
    + intros [rest Hrest]. by exists "", rest.
    + intros [[|c before] [after Hs]]; [by exists after | discriminate].
  - rewrite orb_true_iff, startswith_spec, IH. split.
    + intros [[rest Hrest] | (before & after & Hs)].
      * by exists "", rest.
      * exists (String a before), after. simpl. by rewrite Hs.
    + intros [[|c before] [after Hs]].
      * left. by exists after.
      * right. exists before, after. simpl in Hs. by injection Hs.
Qed.

Lemma contains_empty s : contains s "" = true.
Proof. by destruct s. Qed.

End str_facts.

(** ** One page *)

Section page_facts.
Context `{Platform}.

Lemma candidate_spec url href :
  candidate url href = true ↔
  (∃ rest, href = "/" +:+ rest) ∨ (∃ rest, href = url +:+ rest).
Proof.
  unfold candidate. by rewrite orb_true_iff, !startswith_spec.
Qed.

Lemma elem_of_candidates url hrefs href :
  href ∈ candidates url hrefs ↔ href ∈ hrefs ∧ candidate url href = true.
Proof.
  unfold candidates. by rewrite !list_elem_of_In, filter_In.
Qed.

Lemma page_links_Some url hrefs links :
  page_links url hrefs = Some links ↔
  Forall2 (λ href link, urljoin url href = Some link)
          (candidates url hrefs) links.
Proof. apply mapM_Some. Qed.

Lemma page_links_None url hrefs :
  page_links url hrefs = None ↔
  ∃ href, href ∈ candidates url hrefs ∧ urljoin url href = None.
Proof.
  unfold page_links. rewrite mapM_None, Exists_exists.
  split; intros (href & Hin & Hnone); by exists href.
Qed.

Lemma page_matches_cases query url all_text :
  (Str.contains (lower all_text) (lower query) = true ∧
   page_matches query url all_text = [(lower query, url)]) ∨
  (Str.contains (lower all_text) (lower query) = false ∧
   page_matches query url all_text = []).
Proof.
  unfold page_matches.
  destruct (Str.contains _ _); [left | right]; done.
Qed.

End page_facts.

(** ** Steps *)

Section step_facts.
Context `{Platform} `{CrawlConfig}.

Lemma subframes_unfold f :
  subframes f = f :: (futures_of f ≫= running subframes).
Proof. by destruct f. Qed.

Lemma futures_of_with_futures f futures :
  pooled f = true → futures_of (with_futures f futures) = futures.
Proof. by destruct f. Qed.

Lemma step_in_Some i f k σ' f' :
  step_in i f k = Some (σ', f') →
  ∃ g g', pooled f = true ∧ futures_of f !! i = Some (Running g) ∧
          k g = Some (σ', g') ∧
          f' = with_futures f (<[i := Running g']> (futures_of f)).
Proof.
  intros Hstep.
  destruct f; simpl in *; try done;
    destruct (futures !! i) as [[| g |]|] eqn:Hi; try done;
    destruct (k g) as [[σ'' g']|] eqn:Hk; simplify_eq/=; by exists g, g'.
Qed.

(** Induction on the path of a step. *)
Lemma step_path_ind (Φ : shared → frame → shared → frame → Prop) :
  (∀ σ f σ' f', tick σ f = Some (σ', f') → Φ σ f σ' f') →
  (∀ σ f f', start f = Some f' → Φ σ f σ f') →
  (∀ σ i f f', yield i f = Some f' → Φ σ f σ f') →
  (∀ σ σ' i f g g',
      pooled f = true → futures_of f !! i = Some (Running g) →
      Φ σ g σ' g' →
      Φ σ f σ' (with_futures f (<[i := Running g']> (futures_of f)))) →
  ∀ a σ f σ' f', step a σ f = Some (σ', f') → Φ σ f σ' f'.
Proof.
  intros Htick Hstart Hyield Hin a.
  induction a as [| | i | i a IH]; intros σ f σ' f' Hstep; simpl in Hstep.
  - by apply Htick.
  - destruct (start f) as [f''|] eqn:Hs; simplify_eq/=. by apply Hstart.
  - destruct (yield i f) as [f''|] eqn:Hy; simplify_eq/=. by eapply Hyield.
  - apply step_in_Some in Hstep as (g & g' & Hp & Hi & Hk & ->).
    eapply Hin; eauto.
Qed.

Lemma bind_insert_perm {A B} (F : A → list B) (l : list A) i x y :
  l !! i = Some x →
  (<[i := y]> l ≫= F) ++ F x ≡ₚ (l ≫= F) ++ F y.
Proof.
  revert i. induction l as [|z l IH]; intros [|i] Hi; simplify_eq/=.
  - rewrite <-!(assoc_L (++)). rewrite (comm (++) (F y)), (comm (++) (F x)).
    by rewrite <-!(assoc_L (++)), (comm (++) (F x)).
  - by rewrite <-!(assoc_L (++)), IH.
Qed.

Lemma elem_of_bind_lookup {A B} (F : A → list B) (l : list A) i x b :
  l !! i = Some x → b ∈ F x → b ∈ l ≫= F.
Proof.
  intros Hi Hb. apply list_elem_of_bind. exists x. split; [done|].
  by eapply list_elem_of_lookup_2.
Qed.

Lemma elem_of_bind_insert {A B} (F : A → list B) (l : list A) i x y b :
  l !! i = Some x → b ∈ <[i := y]> l ≫= F → b ∈ F y ∨ b ∈ l ≫= F.
Proof.
  intros Hi Hb.
  assert (b ∈ (l ≫= F) ++ F y) as Hin.
  { rewrite <-(bind_insert_perm F l i x y Hi). apply elem_of_app. by left. }
  apply elem_of_app in Hin as [?|?]; auto.
Qed.

Lemma subframes_lookup f i g x :
  futures_of f !! i = Some (Running g) → x ∈ subframes g → x ∈ subframes f.
Proof.
  intros Hi Hx. rewrite (subframes_unfold f). apply elem_of_cons. right.
  by eapply (elem_of_bind_lookup (running subframes)).
Qed.

Lemma subframes_with_futures f futures :
  pooled f = true →
  subframes (with_futures f futures) =
  with_futures f futures :: (futures ≫= running subframes).
Proof. by destruct f. Qed.

Lemma subframes_insert f i g g' x :
  pooled f = true → futures_of f !! i = Some (Running g) →
  x ∈ subframes (with_futures f (<[i := Running g']> (futures_of f))) →
  x = with_futures f (<[i := Running g']> (futures_of f)) ∨
  x ∈ subframes g' ∨ x ∈ futures_of f ≫= running subframes.
Proof.
  intros Hp Hi. rewrite subframes_with_futures by done.
  intros [->|Hx]%elem_of_cons; [by left | right].
  by eapply elem_of_bind_insert in Hx as [Hx|Hx]; [left | right |].
Qed.

Lemma url_of_with_futures f futures :
  url_of (with_futures f futures) = url_of f.
Proof. by destruct f. Qed.

Lemma past_add_pooled f : pooled f = true → past_add f = true.
Proof. by destruct f. Qed.

Lemma pooled_with_futures f futures :
  pooled (with_futures f futures) = pooled f.
Proof. by destruct f. Qed.

(** What [receive] can do. *)
Lemma receive_cases σ url :
  (∃ e, fetch_error url = Some e ∧ is_RequestException e = true ∧
        receive σ url = (log (Printed url e) σ, Returned url [])) ∨
  (fetch_error url = None ∧
   (links_at url = None ∨ max_threads ≤ 0) ∧
   receive σ url =
     (log (Escaped url ValueError) (log (Accepted url) σ),
      Raised url ValueError)) ∨
  (∃ links, fetch_error url = None ∧ links_at url = Some links ∧
            0 < max_threads ∧
            receive σ url =
              (log (Accepted url) σ,
               InPool url (matches_at url) (Pending <$> links))).
Proof.
  unfold receive, fetch_error, links_at, matches_at, raise_for_status.
  destruct (requests_get url) as [detail|response].
  { left. by eexists. }
  case_match.
  { left. by eexists. }
  right. destruct (page_links _ _) as [links|]; [|left; auto].
  destruct (Z.leb_spec max_threads 0); [left; auto | right].
  by exists links.
Qed.

Lemma bind_running_Pending (links : list string) :
  (Pending <$> links) ≫= running subframes = [].
Proof. induction links; by simpl. Qed.

Lemma handle_cases σ url e :
  (is_RequestException e = true ∧
   handle σ url e = (log (Printed url e) σ, Returned url [])) ∨
  (is_RequestException e = false ∧
   handle σ url e = (log (Escaped url e) σ, Raised url e)).
Proof. unfold handle. destruct (is_RequestException e); auto. Qed.

Lemma tick_ticks σ f σ' f' : tick σ f = Some (σ', f') ↔ ticks σ f σ' f'.
Proof.
  split.
  - intros Htick. destruct f; simpl in Htick; try done.
    + case_bool_decide; simplify_eq; by constructor.
    + simplify_eq. constructor.
    + simplify_eq. constructor.
    + injection Htick as Htick.
      change σ' with (σ', f').1. change f' with (σ', f').2 at 2.
      rewrite <-Htick. constructor.
    + case_match; simplify_eq. by constructor.
    + case_match; [|done]. injection Htick as Htick.
      change σ' with (σ', f').1. change f' with (σ', f').2 at 2.
      rewrite <-Htick. by constructor.
  - intros [url Hin|url Hout| | | |url m fs Hall|url e fs Hall]; simpl;
      try done.
    + by rewrite bool_decide_eq_true_2.
    + by rewrite bool_decide_eq_false_2.
    + by destruct (receive σ url).
    + by rewrite Hall.
    + rewrite Hall. by destruct (handle σ url e).
Qed.
End step_facts.

(** ** The visited set *)

Section visited_facts.
Context `{Platform} `{CrawlConfig}.

Lemma handle_visited σ url e :
  visited_urls (handle σ url e).1 = visited_urls σ.
Proof. by destruct (handle_cases σ url e) as [[_ ->]|[_ ->]]. Qed.

Lemma receive_visited σ url :
  visited_urls (receive σ url).1 = visited_urls σ.
Proof.
  by destruct (receive_cases σ url)
    as [(e & _ & _ & ->)|[(_ & _ & ->)|(links & _ & _ & _ & ->)]].
Qed.

Lemma fetches_log ev σ :
  fetches (log ev σ) =
  fetches σ ++ match ev with Requested u => [u] | _ => [] end.
Proof.
  unfold fetches, log. simpl. rewrite omap_app. f_equal. by destruct ev.
Qed.

Lemma handle_fetches σ url e : fetches (handle σ url e).1 = fetches σ.
Proof.
  destruct (handle_cases σ url e) as [[_ ->]|[_ ->]]; simpl;
    by rewrite fetches_log, app_nil_r.
Qed.

Lemma receive_fetches σ url : fetches (receive σ url).1 = fetches σ.
Proof.
  destruct (receive_cases σ url)
    as [(e & _ & _ & ->)|[(_ & _ & ->)|(links & _ & _ & _ & ->)]]; simpl;
    by rewrite ?fetches_log, ?app_nil_r.
Qed.

(** A move of a thread leaves an activation without running futures. *)
Lemma ticks_subframes σ f σ' f' : ticks σ f σ' f' → subframes f' = [f'].
Proof.
  intros [| | | |url| |url e fs _]; try done.
  - destruct (receive_cases σ url)
      as [(e & _ & _ & ->)|[(_ & _ & ->)|(links & _ & _ & _ & ->)]]; try done.
    simpl. by rewrite bind_running_Pending.
  - by destruct (handle_cases σ url e) as [[_ ->]|[_ ->]].
Qed.

Lemma ticks_url_of σ f σ' f' : ticks σ f σ' f' → url_of f' = url_of f.
Proof.
  intros [| | | |url| |url e fs _]; try done.
  - by destruct (receive_cases σ url)
      as [(e & _ & _ & ->)|[(_ & _ & ->)|(links & _ & _ & _ & ->)]].
  - by destruct (handle_cases σ url e) as [[_ ->]|[_ ->]].
Qed.

Lemma ticks_visited σ f σ' f' :
  ticks σ f σ' f' → visited_urls σ ⊆ visited_urls σ'.
Proof.
  intros [| | | | | |]; rewrite ?receive_visited, ?handle_visited; simpl;
    set_solver.
Qed.

Lemma start_first_frames futures futures' x :
  start_first futures = Some futures' →
  x ∈ futures' ≫= running subframes →
  (∃ link, x = AtTest link) ∨ x ∈ futures ≫= running subframes.
Proof.
  revert futures'. induction futures as [|y futures IH]; intros futures' Hs;
    [done|].
  destruct y as [link|g|]; simpl in Hs.
  - simplify_eq. simpl. rewrite elem_of_cons. intros [->|Hx]; eauto.
  - destruct (start_first futures) as [rest|]; simplify_eq/=.
    rewrite !elem_of_app. intros [Hx|Hx]; [by right; left|].
    destruct (IH rest eq_refl Hx); auto.
  - destruct (start_first futures) as [rest|]; simplify_eq/=.
    intros Hx. destruct (IH rest eq_refl Hx); auto.
Qed.

Lemma start_Some f f' :
  start f = Some f' →
  ∃ futures', pooled f = true ∧
              start_first (futures_of f) = Some futures' ∧
              f' = with_futures f futures'.
Proof.
  destruct f; simpl; try done; case_match; try done;
    destruct (start_first futures) as [futures'|]; intros; simplify_eq/=;
    by exists futures'.
Qed.

Lemma yield_Some i f f' :
  yield i f = Some f' →
  ∃ url matches futures g,
    f = InPool url matches futures ∧
    futures !! i = Some (Running g) ∧
    ((∃ result, g = Returned (url_of g) result ∧
                f' = InPool url (matches ++ result) (<[i := Yielded]> futures)) ∨
     (∃ e, g = Raised (url_of g) e ∧
           f' = Unwinding url e (<[i := Yielded]> futures))).
Proof.
  destruct f as [| | | |url matches futures| | |]; simpl; try done.
  destruct (futures !! i) as [[|g|]|] eqn:Hi; try done.
  destruct g; try done; intros; simplify_eq; eexists _, _, _, _;
    (split; [done|]); (split; [done|]); [left | right]; by eexists.
Qed.

(** A step never takes a url out of the set. *)
Lemma step_visited a σ f σ' f' :
  step a σ f = Some (σ', f') → visited_urls σ ⊆ visited_urls σ'.
Proof.
  revert a σ f σ' f'.
  apply (step_path_ind (λ σ f σ' f', visited_urls σ ⊆ visited_urls σ'));
    try done.
  intros σ f σ' f' Ht%tick_ticks. by eapply ticks_visited.
Qed.

Lemma step_url_of a σ f σ' f' :
  step a σ f = Some (σ', f') → url_of f' = url_of f.
Proof.
  revert a σ f σ' f'.
  apply (step_path_ind (λ _ f _ f', url_of f' = url_of f)).
  - intros σ f σ' f' Ht%tick_ticks. by eapply ticks_url_of.
  - intros σ f f' (futures' & _ & _ & ->)%start_Some.
    apply url_of_with_futures.
  - intros σ i f f' (u & m & fs & g & -> & _ & [(r & _ & ->)|(e & _ & ->)])%yield_Some;
      done.
  - intros. apply url_of_with_futures.
Qed.

Lemma claimed_visited_mono σ σ' f :
  visited_urls σ ⊆ visited_urls σ' →
  claimed_visited σ f → claimed_visited σ' f.
Proof. intros Hsub Hf g Hg Hp. apply Hsub. by apply Hf. Qed.

Lemma step_claimed_visited a σ f σ' f' :
  step a σ f = Some (σ', f') →
  claimed_visited σ f → claimed_visited σ' f'.
Proof.
  intros Hstep.
  enough (visited_urls σ ⊆ visited_urls σ' ∧
          (claimed_visited σ f → claimed_visited σ' f')) as [_ ?]; [done|].
  revert a σ f σ' f' Hstep.
  apply (step_path_ind (λ σ f σ' f',
           visited_urls σ ⊆ visited_urls σ' ∧
           (claimed_visited σ f → claimed_visited σ' f'))).
  - intros σ f σ' f' Ht%tick_ticks. split; [by eapply ticks_visited|].
    intros Hf g. rewrite (ticks_subframes _ _ _ _ Ht), list_elem_of_singleton.
    intros -> Hp. pose proof (Hf f) as Hroot.
    rewrite (subframes_unfold f), elem_of_cons in Hroot.
    destruct Ht as [url Hin| | | |url| |url e fs Hall]; simpl in *;
      rewrite ?receive_visited, ?handle_visited; try done; auto.
    + set_solver.
    + rewrite (ticks_url_of _ _ _ _ (ticks_receive σ url)). simpl. auto.
    + rewrite (ticks_url_of _ _ _ _ (ticks_unwound σ url e fs Hall)).
      simpl. auto.
  - intros σ f f' (futures' & Hp & Hs & ->)%start_Some. split; [done|].
    intros Hf g. rewrite subframes_with_futures, elem_of_cons by done.
    intros [->|Hg] Hpast.
    + rewrite url_of_with_futures. apply Hf.
      * rewrite (subframes_unfold f). by left.
      * by apply past_add_pooled.
    + eapply start_first_frames in Hg as [[link ->]|Hg]; [done| |done].
      apply Hf; [|done]. rewrite (subframes_unfold f). by right.
  - intros σ i f f' (u & m & fs & g & -> & Hi & Hf')%yield_Some.
    split; [done|]. intros Hf x Hx Hpast.
    assert (x ∈ fs ≫= running subframes → url_of x ∈ visited_urls σ) as Hold.
    { intros ?. apply Hf; [|done]. simpl. by right. }
    assert (u ∈ visited_urls σ) as Hu.
    { apply (Hf (InPool u m fs)); [by left | done]. }
    destruct Hf' as [(r & _ & ->)|(e & _ & ->)]; simpl in Hx;
      apply elem_of_cons in Hx as [->|Hx]; try done;
      (eapply elem_of_bind_insert in Hx as [Hx|Hx]; [| by apply Hold | done]);
      by apply elem_of_nil in Hx.
  - intros σ σ' i f g g' Hp Hi [Hsub IH]. split; [done|].
    intros Hf x Hx Hpast.
    eapply subframes_insert in Hx as [->|[Hx|Hx]]; [| | |done..].
    + rewrite url_of_with_futures. apply Hsub, Hf.
      * rewrite (subframes_unfold f). by left.
      * by apply past_add_pooled.
    + apply IH; [|done..]. intros y Hy. apply Hf.
      by eapply subframes_lookup.
    + apply Hsub, Hf; [|done]. rewrite (subframes_unfold f). by right.
Qed.

End visited_facts.

(** ** Requests *)

Section fetch_facts.
Context `{Platform} `{CrawlConfig}.

(** Every new request is the request of an activation that stood at
    line 27. *)
Lemma step_fetches a σ f σ' f' :
  step a σ f = Some (σ', f') →
  ∃ new, fetches σ' = fetches σ ++ new ∧
         ∀ u, u ∈ new → AtGet u ∈ subframes f.
Proof.
  revert a σ f σ' f'.
  apply (step_path_ind (λ σ f σ' f',
           ∃ new, fetches σ' = fetches σ ++ new ∧
                  ∀ u, u ∈ new → AtGet u ∈ subframes f)).
  - intros σ f σ' f' Ht%tick_ticks.
    destruct Ht as [| | |url| | |];
      rewrite ?receive_fetches, ?handle_fetches;
      try (exists []; split; [by rewrite app_nil_r | by intros ? ?%elem_of_nil]).
    exists [url]. rewrite fetches_log. split; [done|].
    intros u ->%list_elem_of_singleton. by left.
  - intros. exists []. split; [by rewrite app_nil_r | by intros ? ?%elem_of_nil].
  - intros. exists []. split; [by rewrite app_nil_r | by intros ? ?%elem_of_nil].
  - intros σ σ' i f g g' Hp Hi (new & Hnew & Hfrom).
    exists new. split; [done|]. intros u Hu.
    by eapply subframes_lookup, Hfrom.
Qed.

Lemma step_fetched_visited a σ f σ' f' :
  step a σ f = Some (σ', f') →
  claimed_visited σ f → fetched_visited σ → fetched_visited σ'.
Proof.
  intros Hstep Hf Hσ u.
  destruct (step_fetches _ _ _ _ _ Hstep) as (new & -> & Hfrom).
  rewrite elem_of_app. intros [Hu|Hu].
  - by eapply step_visited, Hσ.
  - eapply step_visited; [done|]. apply (Hf (AtGet u)); [by apply Hfrom | done].
Qed.

Lemma claiming_with_futures url f futures :
  claiming url (with_futures f futures) = claiming url f.
Proof. by destruct f. Qed.

Lemma ticks_settled url σ f σ' f' :
  ticks σ f σ' f' → url ∈ visited_urls σ →
  claiming url f = false → claiming url f' = false.
Proof.
  intros [u Hin|u Hout| | |u| |u e fs _] Hurl; simpl; try done.
  - intros _. apply bool_decide_eq_false. by intros ->.
  - by destruct (receive_cases σ u)
      as [(e & _ & _ & ->)|[(_ & _ & ->)|(links & _ & _ & _ & ->)]].
  - by destruct (handle_cases σ u e) as [[_ ->]|[_ ->]].
Qed.

Lemma step_claiming url a σ f σ' f' :
  step a σ f = Some (σ', f') →
  url ∈ visited_urls σ →
  (∀ g, g ∈ subframes f → claiming url g = false) →
  ∀ g, g ∈ subframes f' → claiming url g = false.
Proof.
  revert a σ f σ' f'.
  apply (step_path_ind (λ σ f σ' f',
           url ∈ visited_urls σ →
           (∀ g, g ∈ subframes f → claiming url g = false) →
           ∀ g, g ∈ subframes f' → claiming url g = false)).
  - intros σ f σ' f' Ht%tick_ticks Hurl Hf g.
    rewrite (ticks_subframes _ _ _ _ Ht), list_elem_of_singleton.
    intros ->. eapply ticks_settled; [done..|].
    apply Hf. rewrite (subframes_unfold f). by left.
  - intros σ f f' (futures' & Hp & Hs & ->)%start_Some Hurl Hf g.
    rewrite subframes_with_futures, elem_of_cons by done.
    intros [->|Hg].
    + rewrite claiming_with_futures. apply Hf.
      rewrite (subframes_unfold f). by left.
    + eapply start_first_frames in Hg as [[link ->]|Hg]; [done| |done].
      apply Hf. rewrite (subframes_unfold f). by right.
  - intros σ i f f' (u & m & fs & g & -> & Hi & Hf')%yield_Some Hurl Hf x Hx.
    assert (x ∈ fs ≫= running subframes → claiming url x = false) as Hold.
    { intros ?. apply Hf. simpl. by right. }
    destruct Hf' as [(r & _ & ->)|(e & _ & ->)]; simpl in Hx;
      apply elem_of_cons in Hx as [->|Hx]; try done;
      (eapply elem_of_bind_insert in Hx as [Hx|Hx]; [| by apply Hold | done]);
      by apply elem_of_nil in Hx.
  - intros σ σ' i f g g' Hp Hi IH Hurl Hf x Hx.
    eapply subframes_insert in Hx as [->|[Hx|Hx]]; [| | |done..].
    + rewrite claiming_with_futures. apply Hf.
      rewrite (subframes_unfold f). by left.
    + apply IH; [done| |done]. intros y Hy. apply Hf.
      by eapply subframes_lookup.
    + apply Hf. rewrite (subframes_unfold f). by right.
Qed.

Lemma filter_eq_nil (url : string) (l : list string) :
  url ∉ l → filter (λ u, u = url) l = [].
Proof.
  induction l as [|u l IH]; [done|].
  rewrite not_elem_of_cons. intros [Hne Hl].
  rewrite filter_cons_False by done. by apply IH.
Qed.

(** Once [url] is in the set and nobody stands between the test and the
    request, this stays so and [url] is not requested again. *)
Lemma step_settled url a σ f σ' f' :
  step a σ f = Some (σ', f') →
  settled url σ f →
  settled url σ' f' ∧ fetch_count url σ' = fetch_count url σ.
Proof.
  intros Hstep [Hurl Hf]. split; [split|].
  - by eapply step_visited.
  - by eapply step_claiming.
  - destruct (step_fetches _ _ _ _ _ Hstep) as (new & Hnew & Hfrom).
    unfold fetch_count, occurrences. rewrite Hnew, filter_app, length_app.
    assert (filter (λ u, u = url) new = []) as ->; [|simpl; lia].
    apply filter_eq_nil. intros Hu.
    specialize (Hf _ (Hfrom _ Hu)). simpl in Hf.
    by rewrite bool_decide_eq_true_2 in Hf.
Qed.

Lemma run_cons a schedule σ f :
  run (a :: schedule) σ f =
  step a σ f ≫= λ '(σ', f'), run schedule σ' f'.
Proof. done. Qed.

Lemma run_app s1 s2 σ f :
  run (s1 ++ s2) σ f = run s1 σ f ≫= λ '(σ', f'), run s2 σ' f'.
Proof.
  revert σ f. induction s1 as [|a s1 IH]; intros σ f; simpl; [done|].
  destruct (step a σ f) as [[σ' f']|]; simpl; [apply IH | done].
Qed.

(** Induction on the steps of a run. *)
Lemma run_ind (Φ : shared → frame → shared → frame → Prop) :
  (∀ σ f, Φ σ f σ f) →
  (∀ a σ f σ1 f1 σ2 f2,
      step a σ f = Some (σ1, f1) → Φ σ1 f1 σ2 f2 → Φ σ f σ2 f2) →
  ∀ schedule σ f σ' f',
    run schedule σ f = Some (σ', f') → Φ σ f σ' f'.
Proof.
  intros Hrefl Hstep schedule.
  induction schedule as [|a schedule IH]; intros σ f σ' f' Hrun;
    simpl in Hrun.
  - simplify_eq. apply Hrefl.
  - destruct (step a σ f) as [[σ1 f1]|] eqn:Ha; [|done].
    eapply Hstep; [done|]. by apply IH.
Qed.

Lemma run_visited schedule σ f σ' f' :
  run schedule σ f = Some (σ', f') → visited_urls σ ⊆ visited_urls σ'.
Proof.
  revert schedule σ f σ' f'.
  apply (run_ind (λ σ _ σ' _, visited_urls σ ⊆ visited_urls σ')); [done|].
  intros a σ f σ1 f1 σ2 f2 Hstep%step_visited ?. by etrans.
Qed.

Lemma run_claimed_visited schedule σ f σ' f' :
  run schedule σ f = Some (σ', f') →
  claimed_visited σ f → claimed_visited σ' f'.
Proof.
  revert schedule σ f σ' f'.
  apply (run_ind (λ σ f σ' f',
           claimed_visited σ f → claimed_visited σ' f')); [done|].
  intros a σ f σ1 f1 σ2 f2 Hstep IH Hf.
  by eapply IH, step_claimed_visited.
Qed.

Lemma run_fetched_visited schedule σ f σ' f' :
  run schedule σ f = Some (σ', f') →
  claimed_visited σ f → fetched_visited σ → fetched_visited σ'.
Proof.
  revert schedule σ f σ' f'.
  apply (run_ind (λ σ f σ' f',
           claimed_visited σ f → fetched_visited σ → fetched_visited σ'));
    [done|].
  intros a σ f σ1 f1 σ2 f2 Hstep IH Hf Hσ.
  apply IH; [by eapply step_claimed_visited | by eapply step_fetched_visited].
Qed.

Lemma run_settled url schedule σ f σ' f' :
  run schedule σ f = Some (σ', f') →
  settled url σ f →
  settled url σ' f' ∧ fetch_count url σ' = fetch_count url σ.
Proof.
  revert schedule σ f σ' f'.
  apply (run_ind (λ σ f σ' f',
           settled url σ f →
           settled url σ' f' ∧ fetch_count url σ' = fetch_count url σ));
    [done|].
  intros a σ f σ1 f1 σ2 f2 Hstep IH Hf.
  destruct (step_settled _ _ _ _ _ _ Hstep Hf) as [Hf1 <-]. by apply IH.
Qed.

Lemma claimed_visited_initial homepage :
  claimed_visited initial (AtTest homepage).
Proof. intros g ->%list_elem_of_singleton. done. Qed.

Lemma fetched_visited_initial : fetched_visited initial.
Proof. intros u. by intros ?%elem_of_nil. Qed.

End fetch_facts.

(** ** Results and exceptions *)

Section result_facts.
Context `{Platform} `{CrawlConfig}.

Lemma start_first_perm futures futures' :
  start_first futures = Some futures' →
  ∃ link, futures' ≫= running subframes ≡ₚ
          AtTest link :: (futures ≫= running subframes).
Proof.
  revert futures'. induction futures as [|y futures IH]; intros futures' Hs;
    [done|].
  destruct y as [link|g|]; simpl in Hs.
  - simplify_eq. by exists link.
  - destruct (start_first futures) as [rest|]; simplify_eq/=.
    destruct (IH rest eq_refl) as [link Hperm]. exists link.
    by rewrite Hperm, Permutation_middle.
  - destruct (start_first futures) as [rest|]; simplify_eq/=.
    destruct (IH rest eq_refl) as [link Hperm]. by exists link.
Qed.

Lemma subframes_finished g : finished g = true → subframes g = [g].
Proof. by destruct g. Qed.

Lemma all_Yielded_frames futures :
  forallb is_Yielded futures = true → futures ≫= running subframes = [].
Proof.
  induction futures as [|[| |] futures IH]; simpl; try done.
Qed.

Lemma held_unfold f :
  held f = holds f ++ ((futures_of f ≫= running subframes) ≫= holds).
Proof. unfold held. by rewrite subframes_unfold. Qed.

Lemma holds_with_futures f futures :
  holds (with_futures f futures) = holds f.
Proof. by destruct f. Qed.

Lemma raising_with_futures f futures :
  raising (with_futures f futures) = raising f.
Proof. by destruct f. Qed.

Lemma accepted_log ev σ :
  accepted (log ev σ) =
  accepted σ ++ match ev with Accepted u => [u] | _ => [] end.
Proof.
  unfold accepted, log. simpl. rewrite omap_app. f_equal. by destruct ev.
Qed.

Lemma escapes_log ev σ :
  escapes (log ev σ) =
  escapes σ ++ match ev with Escaped u e => [(u, e)] | _ => [] end.
Proof.
  unfold escapes, log. simpl. rewrite omap_app. f_equal. by destruct ev.
Qed.

Lemma accepted_add_visited url σ : accepted (add_visited url σ) = accepted σ.
Proof. done. Qed.

Lemma escapes_add_visited url σ : escapes (add_visited url σ) = escapes σ.
Proof. done. Qed.

Lemma clean_leaf f : subframes f = [f] → raising f = false → clean f.
Proof. intros Hsub Hf g. rewrite Hsub. by intros ->%list_elem_of_singleton. Qed.

Lemma dirty_root f : raising f = true → dirty f.
Proof. intros Hf. exists f. split; [|done]. rewrite subframes_unfold. by left. Qed.

Lemma clean_not_dirty f : clean f → ¬ dirty f.
Proof. intros Hf (g & Hg & Hr). by rewrite (Hf g Hg) in Hr. Qed.

Lemma held_leaf f : subframes f = [f] → held f = holds f.
Proof. unfold held. intros ->. simpl. by rewrite app_nil_r. Qed.

(** The events and the result pairs of a move of a thread. *)
Lemma ticks_held σ f σ' f' :
  ticks σ f σ' f' →
  ∃ acc esc,
    accepted σ' = accepted σ ++ acc ∧ escapes σ' = escapes σ ++ esc ∧
    (esc ≠ [] → dirty f') ∧
    (clean f → esc = [] →
     clean f' ∧ held f' ≡ₚ held f ++ (acc ≫= matches_at)).
Proof.
  intros Ht. pose proof (ticks_subframes _ _ _ _ Ht) as Hleaf.
  destruct Ht as [url Hin|url Hout|url|url|url|url m fs Hall|url e fs Hall].
  - exists [], []. rewrite !app_nil_r. repeat split; try done.
    by apply clean_leaf.
  - exists [], []. rewrite !app_nil_r. repeat split; try done.
    by apply clean_leaf.
  - exists [], []. rewrite !app_nil_r. repeat split; try done.
    by apply clean_leaf.
  - exists [], []. rewrite accepted_log, escapes_log, !app_nil_r.
    repeat split; try done. by apply clean_leaf.
  - destruct (receive_cases σ url)
      as [(e & _ & _ & Hr)|[(_ & _ & Hr)|(links & _ & _ & _ & Hr)]];
      rewrite Hr in Hleaf |- *; cbn [fst snd] in *.
    + exists [], []. rewrite accepted_log, escapes_log, !app_nil_r.
      repeat split; try done. by apply clean_leaf.
    + exists [url], [(url, ValueError)].
      rewrite !accepted_log, !escapes_log, !app_nil_r. simpl.
      rewrite app_nil_r. repeat split; try done.
      intros _. by apply dirty_root.
    + exists [url], []. rewrite !accepted_log, !escapes_log, !app_nil_r.
      repeat split; try done; [by apply clean_leaf|].
      rewrite (held_leaf _ Hleaf). simpl. by rewrite app_nil_r.
  - exists [], []. rewrite !app_nil_r. repeat split; try done.
    + by apply clean_leaf.
    + rewrite !held_unfold. simpl. by rewrite all_Yielded_frames, !app_nil_r.
  - assert (¬ clean (Unwinding url e fs)) as Hdirty.
    { intros Hc. apply (clean_not_dirty _ Hc). by apply dirty_root. }
    destruct (handle_cases σ url e) as [[_ Hh]|[_ Hh]];
      rewrite Hh in Hleaf |- *; cbn [fst snd] in *.
    + exists [], []. rewrite accepted_log, escapes_log, !app_nil_r.
      repeat split; try done.
    + exists [], [(url, e)]. rewrite accepted_log, escapes_log, !app_nil_r.
      repeat split; try done. intros _. by apply dirty_root.
Qed.

Lemma bind_bind_running (futures : list (future frame)) :
  (futures ≫= running subframes) ≫= holds =
  futures ≫= λ x, running subframes x ≫= holds.
Proof.
  induction futures as [|x futures IH]; [done|].
  by rewrite !bind_cons, bind_app, IH.
Qed.

Lemma clean_with_futures f futures :
  pooled f = true → clean f →
  (∀ g, g ∈ futures ≫= running subframes → raising g = false) →
  clean (with_futures f futures).
Proof.
  intros Hp Hf Hfs g. rewrite subframes_with_futures, elem_of_cons by done.
  intros [->|Hg]; [|by apply Hfs].
  rewrite raising_with_futures. apply Hf. rewrite subframes_unfold. by left.
Qed.

Lemma clean_descendants f g :
  clean f → g ∈ futures_of f ≫= running subframes → raising g = false.
Proof. intros Hf Hg. apply Hf. rewrite subframes_unfold. by right. Qed.

(** The events and the result pairs of a step. *)
Lemma step_held a σ f σ' f' :
  step a σ f = Some (σ', f') →
  ∃ acc esc,
    accepted σ' = accepted σ ++ acc ∧ escapes σ' = escapes σ ++ esc ∧
    (esc ≠ [] → dirty f') ∧
    (clean f → esc = [] →
     clean f' ∧ held f' ≡ₚ held f ++ (acc ≫= matches_at)).
Proof.
  revert a σ f σ' f'.
  apply (step_path_ind (λ σ f σ' f',
    ∃ acc esc,
      accepted σ' = accepted σ ++ acc ∧ escapes σ' = escapes σ ++ esc ∧
      (esc ≠ [] → dirty f') ∧
      (clean f → esc = [] →
       clean f' ∧ held f' ≡ₚ held f ++ (acc ≫= matches_at)))).
  - intros σ f σ' f' Ht%tick_ticks. by apply ticks_held.
  - intros σ f f' (futures' & Hp & Hs & ->)%start_Some.
    exists [], []. rewrite !app_nil_r. repeat split; try done.
    + destruct (start_first_perm _ _ Hs) as [link Hperm].
      apply clean_with_futures; [done..|]. intros g. rewrite Hperm.
      intros [->|Hg]%elem_of_cons; [done|]. by eapply clean_descendants.
    + destruct (start_first_perm _ _ Hs) as [link Hperm].
      rewrite !held_unfold, holds_with_futures,
        futures_of_with_futures by done.
      by rewrite Hperm.
  - intros σ i f f' (u & m & fs & g & -> & Hi & Hf')%yield_Some.
    exists [], []. rewrite !app_nil_r. repeat split; try done.
    + intros g0 Hg0.
      destruct Hf' as [(r & Hg & ->)|(e & Hg & ->)].
      * simpl in Hg0. apply elem_of_cons in Hg0 as [->|Hg0]; [done|].
        eapply elem_of_bind_insert in Hg0 as [Hg0|Hg0]; [|by eapply (clean_descendants (InPool u m fs))|done].
        by apply elem_of_nil in Hg0.
      * assert (raising g = false) as Hg'; [|by rewrite Hg in Hg'].
        eapply (clean_descendants (InPool u m fs)); [done|].
        eapply (elem_of_bind_lookup (running subframes)); [done|].
        simpl. rewrite subframes_unfold. by left.
    + destruct Hf' as [(r & Hg & ->)|(e & Hg & ->)].
      * rewrite !held_unfold. simpl. rewrite !bind_bind_running.
        pose proof (bind_insert_perm (λ x, running subframes x ≫= holds)
                      fs i _ Yielded Hi) as Hperm.
        rewrite Hg in Hperm. simpl in Hperm.
        rewrite !app_nil_r in Hperm.
        rewrite <-Hperm, <-(assoc_L (++)). apply Permutation_app_head.
        apply Permutation_app_comm.
      * assert (raising g = false) as Hg'; [|by rewrite Hg in Hg'].
        eapply (clean_descendants (InPool u m fs)); [done|].
        eapply (elem_of_bind_lookup (running subframes)); [done|].
        simpl. rewrite subframes_unfold. by left.
  - intros σ σ' i f g g' Hp Hi (acc & esc & Hacc & Hesc & Hdirty & IH).
    exists acc, esc. split; [done|]. split; [done|]. split.
    + intros (g0 & Hg0 & Hr)%Hdirty. exists g0. split; [|done].
      rewrite subframes_with_futures, elem_of_cons by done. right.
      eapply (elem_of_bind_lookup (running subframes) _ i (Running g'));
        [|done].
      apply list_lookup_insert_eq. by eapply lookup_lt_Some.
    + intros Hf ->.
      assert (clean g) as Hg.
      { intros x Hx. apply Hf. by eapply subframes_lookup. }
      destruct (IH Hg eq_refl) as [Hg' Hheld]. split.
      * apply clean_with_futures; [done..|]. intros x Hx.
        eapply elem_of_bind_insert in Hx as [Hx|Hx]; [| |done].
        -- by apply Hg'.
        -- by eapply (clean_descendants f).
      * rewrite !held_unfold, holds_with_futures,
          futures_of_with_futures, !bind_bind_running by done.
        pose proof (bind_insert_perm (λ x, running subframes x ≫= holds)
                      (futures_of f) i _ (Running g') Hi) as Hperm.
        simpl in Hperm. fold (held g) (held g') in Hperm.
        rewrite Hheld in Hperm.
        rewrite <-(assoc_L (++)). apply Permutation_app_head.
        apply (Permutation_app_inv_r (held g)).
        rewrite Hperm, <-!(assoc_L (++)). apply Permutation_app_head.
        apply Permutation_app_comm.
Qed.

Lemma carried_with_futures f futures :
  carried (with_futures f futures) = carried f.
Proof. by destruct f. Qed.

Lemma carried_raising f e : carried f = Some e → raising f = true.
Proof. by destruct f. Qed.

(** Line 46 catches every [RequestException]: the exceptions that travel
    up the tree are of another kind. *)
Lemma step_uncaught_only a σ f σ' f' :
  step a σ f = Some (σ', f') → uncaught_only f → uncaught_only f'.
Proof.
  revert a σ f σ' f'.
  apply (step_path_ind (λ _ f _ f', uncaught_only f → uncaught_only f')).
  - intros σ f σ' f' Ht%tick_ticks Hf g e0.
    rewrite (ticks_subframes _ _ _ _ Ht), list_elem_of_singleton.
    intros ->.
    destruct Ht as [url Hin|url Hout|url|url|url|url m fs Hall|url e fs Hall];
      try done.
    + by destruct (receive_cases σ url)
        as [(e & _ & _ & ->)|[(_ & _ & ->)|(links & _ & _ & _ & ->)]];
        simpl; intros; simplify_eq.
    + destruct (handle_cases σ url e) as [[_ ->]|[He ->]]; simpl; [done|].
      by intros; simplify_eq.
  - intros σ f f' (futures' & Hp & Hs & ->)%start_Some Hf g e.
    rewrite subframes_with_futures, elem_of_cons by done.
    intros [->|Hg].
    + rewrite carried_with_futures. apply Hf. rewrite subframes_unfold.
      by left.
    + eapply start_first_frames in Hg as [[link ->]|Hg]; [done| |done].
      apply Hf. rewrite (subframes_unfold f). by right.
  - intros σ i f f' (u & m & fs & g & -> & Hi & Hf')%yield_Some Hf x e0 Hx.
    assert (x ∈ fs ≫= running subframes →
            carried x = Some e0 → is_RequestException e0 = false) as Hold.
    { intros ?. apply Hf. simpl. by right. }
    destruct Hf' as [(r & _ & ->)|(e & Hg & ->)]; simpl in Hx;
      apply elem_of_cons in Hx as [->|Hx]; try done.
    + eapply elem_of_bind_insert in Hx as [Hx|Hx]; [| by apply Hold | done].
      by apply elem_of_nil in Hx.
    + simpl. intros [= <-]. apply (Hf g); [|by rewrite Hg].
      simpl. right.
      eapply (elem_of_bind_lookup (running subframes)); [done|].
      simpl. rewrite subframes_unfold. by left.
    + eapply elem_of_bind_insert in Hx as [Hx|Hx]; [| by apply Hold | done].
      by apply elem_of_nil in Hx.
  - intros σ σ' i f g g' Hp Hi IH Hf x e Hx.
    eapply subframes_insert in Hx as [->|[Hx|Hx]]; [| | |done..].
    + rewrite carried_with_futures. apply Hf.
      rewrite (subframes_unfold f). by left.
    + apply IH; [|done]. intros y e' Hy. apply Hf.
      by eapply subframes_lookup.
    + apply Hf. rewrite (subframes_unfold f). by right.
Qed.

(** An exception that travels up the tree does not get lost. *)
Lemma step_dirty a σ f σ' f' :
  step a σ f = Some (σ', f') → uncaught_only f → dirty f → dirty f'.
Proof.
  revert a σ f σ' f'.
  apply (step_path_ind (λ _ f _ f', uncaught_only f → dirty f → dirty f')).
  - intros σ f σ' f' Ht%tick_ticks Hf (g & Hg & Hr).
    destruct Ht as [url Hin|url Hout|url|url|url|url m fs Hall|url e fs Hall];
      try (by apply list_elem_of_singleton in Hg as ->).
    + simpl in Hg. rewrite all_Yielded_frames in Hg by done.
      by apply list_elem_of_singleton in Hg as ->.
    + unfold handle. rewrite (Hf (Unwinding url e fs) e); [|by left|done].
      by apply dirty_root.
  - intros σ f f' (futures' & Hp & Hs & ->)%start_Some Hf (g & Hg & Hr).
    rewrite subframes_unfold in Hg. apply elem_of_cons in Hg as [->|Hg].
    + apply dirty_root. by rewrite raising_with_futures.
    + exists g. split; [|done].
      rewrite subframes_with_futures, elem_of_cons by done. right.
      destruct (start_first_perm _ _ Hs) as [link ->]. by right.
  - intros σ i f f' (u & m & fs & g & -> & Hi & Hf')%yield_Some Hf
      (x & Hx & Hr).
    destruct Hf' as [(r & Hg & ->)|(e & Hg & ->)]; [|by apply dirty_root].
    simpl in Hx. apply elem_of_cons in Hx as [->|Hx]; [done|].
    exists x. split; [|done]. simpl. right.
    pose proof (bind_insert_perm (running subframes) fs i _ Yielded Hi)
      as Hperm.
    rewrite Hg in Hperm. simpl in Hperm. rewrite app_nil_r in Hperm.
    rewrite <-Hperm in Hx. apply elem_of_app in Hx as [Hx|Hx]; [done|].
    by apply list_elem_of_singleton in Hx as ->.
  - intros σ σ' i f g g' Hp Hi IH Hf (x & Hx & Hr).
    rewrite subframes_unfold in Hx. apply elem_of_cons in Hx as [->|Hx].
    { apply dirty_root. by rewrite raising_with_futures. }
    pose proof (bind_insert_perm (running subframes) (futures_of f) i _
                  (Running g') Hi) as Hperm.
    assert (x ∈ (futures_of f ≫= running subframes) ++ subframes g') as Hx'.
    { apply elem_of_app. by left. }
    rewrite <-Hperm in Hx'. apply elem_of_app in Hx' as [Hx'|Hx'].
    + exists x. split; [|done].
      rewrite subframes_with_futures, elem_of_cons by done. by right.
    + destruct IH as (y & Hy & Hry).
      * intros y e Hy. apply Hf. by eapply subframes_lookup.
      * by exists x.
      * exists y. split; [|done].
        rewrite subframes_with_futures, elem_of_cons by done. right.
        eapply (elem_of_bind_lookup (running subframes) _ i (Running g'));
          [|done].
        apply list_lookup_insert_eq. by eapply lookup_lt_Some.
Qed.

(** What a run has gathered, as long as no exception has left an
    activation. *)
Lemma run_held schedule σ f σ' f' :
  run schedule σ f = Some (σ', f') →
  uncaught_only f →
  ∃ acc esc,
    accepted σ' = accepted σ ++ acc ∧ escapes σ' = escapes σ ++ esc ∧
    uncaught_only f' ∧
    (dirty f ∨ esc ≠ [] → dirty f') ∧
    (clean f → esc = [] →
     clean f' ∧ held f' ≡ₚ held f ++ (acc ≫= matches_at)).
Proof.
  revert schedule σ f σ' f'.
  apply (run_ind (λ σ f σ' f',
    uncaught_only f →
    ∃ acc esc,
      accepted σ' = accepted σ ++ acc ∧ escapes σ' = escapes σ ++ esc ∧
      uncaught_only f' ∧
      (dirty f ∨ esc ≠ [] → dirty f') ∧
      (clean f → esc = [] →
       clean f' ∧ held f' ≡ₚ held f ++ (acc ≫= matches_at)))).
  - intros σ f Hf. exists [], []. rewrite !app_nil_r.
    repeat split; try done. by intros [?|?].
  - intros a σ f σ1 f1 σ2 f2 Hstep IH Hf.
    destruct (step_held _ _ _ _ _ Hstep)
      as (acc1 & esc1 & Hacc1 & Hesc1 & Hdirty1 & Hheld1).
    pose proof (step_uncaught_only _ _ _ _ _ Hstep Hf) as Hf1.
    destruct (IH Hf1) as (acc2 & esc2 & Hacc2 & Hesc2 & Hf2 & Hdirty2 & Hheld2).
    exists (acc1 ++ acc2), (esc1 ++ esc2).
    rewrite Hacc2, Hacc1, Hesc2, Hesc1, !(assoc_L (++)).
    split; [done|]. split; [done|]. split; [done|]. split.
    + intros [Hd|Hne]; apply Hdirty2.
      * left. by eapply step_dirty.
      * destruct esc1 as [|x esc1]; [by right | left]. by apply Hdirty1.
    + intros Hc [-> ->]%app_eq_nil.
      destruct (Hheld1 Hc eq_refl) as [Hc1 Hp1].
      destruct (Hheld2 Hc1 eq_refl) as [Hc2 Hp2]. split; [done|].
      by rewrite Hp2, Hp1, bind_app, (assoc_L (++)).
Qed.

(** Only responses that [requests.get] returned and [raise_for_status]
    let through are accepted. *)
Lemma step_accepted a σ f σ' f' :
  step a σ f = Some (σ', f') →
  Forall (λ u, fetch_error u = None) (accepted σ) →
  Forall (λ u, fetch_error u = None) (accepted σ').
Proof.
  revert a σ f σ' f'.
  apply (step_path_ind (λ σ _ σ' _,
           Forall (λ u, fetch_error u = None) (accepted σ) →
           Forall (λ u, fetch_error u = None) (accepted σ'))); try done.
  intros σ f σ' f' Ht%tick_ticks Hσ.
  destruct Ht as [url Hin|url Hout|url|url|url|url m fs Hall|url e fs Hall];
    try done.
  - by rewrite accepted_log, app_nil_r.
  - destruct (receive_cases σ url)
      as [(e & _ & _ & ->)|[(Hok & _ & ->)|(links & Hok & _ & _ & ->)]];
      simpl; rewrite ?accepted_log, ?app_nil_r; try done;
      apply Forall_app; split; try done; by apply Forall_singleton.
  - destruct (handle_cases σ url e) as [[_ ->]|[_ ->]]; simpl;
      by rewrite accepted_log, app_nil_r.
Qed.

Lemma run_accepted schedule σ f σ' f' :
  run schedule σ f = Some (σ', f') →
  Forall (λ u, fetch_error u = None) (accepted σ) →
  Forall (λ u, fetch_error u = None) (accepted σ').
Proof.
  revert schedule σ f σ' f'.
  apply (run_ind (λ σ _ σ' _,
           Forall (λ u, fetch_error u = None) (accepted σ) →
           Forall (λ u, fetch_error u = None) (accepted σ'))); [done|].
  intros a σ f σ1 f1 σ2 f2 Hstep IH Hσ. by eapply IH, step_accepted.
Qed.

(** The result of a run that returns: the result pairs of the accepted
    responses, in some order. *)
Lemma reaches_Returned homepage schedule σ url result :
  reaches homepage schedule σ (Returned url result) →
  escapes σ = [] ∧ result ≡ₚ expected σ.
Proof.
  intros Hrun. destruct (run_held _ _ _ _ _ Hrun)
    as (acc & esc & Hacc & Hesc & _ & Hdirty & Hheld).
  { intros g e ->%list_elem_of_singleton. done. }
  assert (clean (Returned url result)) as Hclean.
  { by apply clean_leaf. }
  assert (esc = []) as ->.
  { destruct esc as [|x esc]; [done|]. destruct (clean_not_dirty _ Hclean).
    apply Hdirty. by right. }
  split; [done|]. destruct Hheld as [_ Hheld]; [by apply clean_leaf|done|].
  rewrite held_leaf in Hheld by done. simpl in Hheld, Hacc.
  unfold expected. by rewrite Hacc.
Qed.

End result_facts.

(** ** One activation inside the tree *)

Section path_facts.
Context `{Platform} `{CrawlConfig}.

(** A step of the activation at [path] changes that activation and
    nothing else of the tree. *)
Lemma step_at_path path a σ f g σ' g' :
  subframe path f = Some g →
  step a σ g = Some (σ', g') →
  step (at_path path a) σ f = Some (σ', replace path g' f).
Proof.
  revert f. induction path as [|i path IH]; intros f Hsub Hstep; simpl in *.
  - by simplify_eq.
  - destruct (futures_of f !! i) as [[|h|]|] eqn:Hi; try done.
    destruct f; simpl in Hi |- *; rewrite ?lookup_nil in Hi; try done;
      by rewrite Hi, (IH h Hsub Hstep).
Qed.

Lemma finished_stuck a σ f : finished f = true → step a σ f = None.
Proof. by destruct a, f. Qed.

Lemma fetch_error_Some url e :
  fetch_error url = Some e ↔
  (∃ detail, requests_get url = inl detail ∧ e = RequestException detail) ∨
  (∃ response, requests_get url = inr response ∧
               400 ≤ status_code response < 600 ∧
               e = HTTPError (status_code response)).
Proof.
  unfold fetch_error, raise_for_status.
  destruct (requests_get url) as [detail|response].
  - split.
    + intros [= <-]. left. by exists detail.
    + intros [(d & [= <-] & ->)|(r & ? & _)]; done.
  - destruct (Z.leb_spec 400 (status_code response));
      destruct (Z.ltb_spec (status_code response) 600); simpl; split;
      try done.
    + intros [= <-]. right. exists response. repeat split; done.
    + intros [(d & ? & _)|(r & [= <-] & _ & ->)]; done.
    + intros [(d & ? & _)|(r & [= <-] & ? & _)]; [done|lia].
    + intros [(d & ? & _)|(r & [= <-] & ? & _)]; [done|lia].
    + intros [(d & ? & _)|(r & [= <-] & ? & _)]; [done|lia].
Qed.

Lemma fetch_error_caught url e :
  fetch_error url = Some e → is_RequestException e = true.
Proof.
  intros [(d & _ & ->)|(r & _ & _ & ->)]%fetch_error_Some; done.
Qed.

Lemma receive_error σ url e :
  fetch_error url = Some e →
  receive σ url = (log (Printed url e) σ, Returned url []).
Proof.
  intros He. destruct (receive_cases σ url)
    as [(e' & He' & _ & ->)|[(He' & _)|(links & He' & _)]]; by simplify_eq.
Qed.

End path_facts.


(** ** Termination *)

Section cost_facts.

Lemma test_cost_pos B n : (1 ≤ test_cost B n)%nat.
Proof. destruct n; simpl; lia. Qed.

Lemma test_cost_mono B n m : (n ≤ m)%nat → (test_cost B n ≤ test_cost B m)%nat.
Proof.
  revert m. induction n as [|n IH]; intros m Hle.
  - apply test_cost_pos.
  - destruct m as [|m]; [lia|]. simpl.
    specialize (IH m ltac:(lia)). nia.
Qed.

Lemma receive_cost_mono B n m :
  (n ≤ m)%nat → (receive_cost B n ≤ receive_cost B m)%nat.
Proof.
  intros Hle%(test_cost_mono B). unfold receive_cost. nia.
Qed.

End cost_facts.

Section weight_facts.
Context `{!Platform} `{!CrawlConfig} `{!Site}.

Lemma unvisited_mono σ σ' url :
  visited_urls σ ⊆ visited_urls σ' → (unvisited σ' url ≤ unvisited σ url)%nat.
Proof. intros Hsub. apply subseteq_size. set_solver. Qed.

Lemma unvisited_visited σ url :
  url ∈ visited_urls σ →
  unvisited σ url = size (site_urls ∖ visited_urls σ).
Proof. intros Hin. unfold unvisited. f_equal. set_solver. Qed.

Lemma unvisited_fresh σ link :
  link ∈ site_urls → link ∉ visited_urls σ →
  S (unvisited σ link) = size (site_urls ∖ visited_urls σ).
Proof.
  intros Hin Hout. unfold unvisited.
  replace (site_urls ∖ visited_urls σ)
    with ({[link]} ∪ site_urls ∖ ({[link]} ∪ visited_urls σ)).
  - rewrite (size_union {[link]} (site_urls ∖ ({[link]} ∪ visited_urls σ)))
      by set_solver.
    by rewrite size_singleton.
  - apply set_eq. intros x. rewrite elem_of_union, !elem_of_difference,
      elem_of_union, elem_of_singleton.
    destruct (decide (x = link)) as [->|]; naive_solver.
Qed.

Lemma test_weight_mono σ σ' url :
  visited_urls σ ⊆ visited_urls σ' →
  (test_weight σ' url ≤ test_weight σ url)%nat.
Proof.
  intros Hsub. unfold test_weight. repeat case_bool_decide; try lia.
  - set_solver.
  - pose proof (receive_cost_mono fanout _ _ (unvisited_mono σ σ' url Hsub)).
    lia.
Qed.

Lemma list_sum_map_le {A} (F G : A → nat) (l : list A) :
  Forall (λ x, (F x ≤ G x)%nat) l →
  (list_sum (List.map F l) ≤ list_sum (List.map G l))%nat.
Proof. induction 1; simpl; lia. Qed.

(** The weight of a tree does not grow when the set grows. *)
Lemma weight_mono σ σ' f :
  visited_urls σ ⊆ visited_urls σ' → (weight σ' f ≤ weight σ f)%nat.
Proof.
  intros Hsub.
  assert (∀ fs,
    list_all _ (future_all _ (λ f, (weight σ' f ≤ weight σ f)%nat)) fs →
    (list_sum (List.map (future_weight (weight σ') σ') fs) ≤
     list_sum (List.map (future_weight (weight σ) σ) fs))%nat)
    as Hsum.
  { intros fs Hall. apply list_sum_map_le.
    induction Hall as [|x Hx fs _ IH]; constructor; [|done].
    destruct Hx as [link|g Hg|]; simpl; [|lia..].
    pose proof (test_weight_mono σ σ' link Hsub). lia. }
  induction f as [url|url|url|url|url m fs IH|url e fs IH|url r|url e];
    cbn [weight];
    try (pose proof (receive_cost_mono fanout _ _
                       (unvisited_mono σ σ' url Hsub)); lia).
  - by apply test_weight_mono.
  - specialize (Hsum fs IH). lia.
  - specialize (Hsum fs IH). lia.
Qed.


Lemma test_weight_le σ url link :
  url ∈ visited_urls σ → link ∈ site_urls →
  (test_weight σ link ≤ test_cost fanout (unvisited σ url))%nat.
Proof.
  intros Hurl Hlink. unfold test_weight. case_bool_decide as Hin.
  - apply test_cost_pos.
  - rewrite (unvisited_visited σ url Hurl), <-(unvisited_fresh σ link) by done.
    unfold receive_cost. cbn [test_cost].
    generalize (fanout * (2 + test_cost fanout (unvisited σ link)))%nat.
    intros k. lia.
Qed.

Lemma links_at_fanout url links :
  url ∈ site_urls → links_at url = Some links → (length links ≤ fanout)%nat.
Proof.
  intros Hin Hlinks. unfold fanout. apply max_list_elem_of_le.
  apply list_elem_of_fmap. exists url. split; [by rewrite Hlinks|].
  by apply elem_of_elements.
Qed.

Lemma pending_weight σ url links :
  url ∈ visited_urls σ → Forall (λ link, link ∈ site_urls) links →
  (list_sum (List.map (future_weight (weight σ) σ) (Pending <$> links)) ≤
   length links * (2 + test_cost fanout (unvisited σ url)))%nat.
Proof.
  intros Hurl Hall. induction Hall as [|link links Hlink _ IH]; [simpl; lia|].
  pose proof (test_weight_le σ url link Hurl Hlink).
  rewrite fmap_cons.
  change (list_sum (List.map ?F (?x :: ?l)))
    with (F x + list_sum (List.map F l))%nat.
  cbn [future_weight length Nat.mul]. lia.
Qed.

Lemma sum_insert_lt {A} (F F' : A → nat) (l : list A) i x y :
  l !! i = Some x → (∀ z, (F' z ≤ F z)%nat) → (F' y < F x)%nat →
  (list_sum (List.map F' (<[i := y]> l)) < list_sum (List.map F l))%nat.
Proof.
  intros Hi Hle Hlt. revert i Hi.
  induction l as [|z l IH]; intros [|i] Hi; simplify_eq/=.
  - pose proof (list_sum_map_le F' F l) as Hsum.
    rewrite Forall_forall in Hsum. specialize (Hsum (λ z _, Hle z)). lia.
  - specialize (IH i Hi). specialize (Hle z). lia.
Qed.

(** A free worker turns one pending future into a running one. *)
Lemma start_first_insert futures futures' :
  start_first futures = Some futures' →
  ∃ i link, futures !! i = Some (Pending link) ∧
            futures' = <[i := Running (AtTest link)]> futures.
Proof.
  revert futures'. induction futures as [|y futures IH]; intros futures' Hs;
    [done|].
  destruct y as [link|g|]; simpl in Hs.
  - simplify_eq. by exists O, link.
  - destruct (start_first futures) as [rest|]; simplify_eq/=.
    destruct (IH rest eq_refl) as (i & link & Hi & ->). by exists (S i), link.
  - destruct (start_first futures) as [rest|]; simplify_eq/=.
    destruct (IH rest eq_refl) as (i & link & Hi & ->). by exists (S i), link.
Qed.

Lemma future_weight_mono σ σ' x :
  visited_urls σ ⊆ visited_urls σ' →
  (future_weight (weight σ') σ' x ≤ future_weight (weight σ) σ x)%nat.
Proof.
  intros Hsub. destruct x as [link|g|]; simpl; [| |lia].
  - pose proof (test_weight_mono σ σ' link Hsub). lia.
  - pose proof (weight_mono σ σ' g Hsub). lia.
Qed.

Lemma weight_pooled σ f :
  pooled f = true →
  weight σ f =
  S (list_sum (List.map (future_weight (weight σ) σ) (futures_of f))).
Proof. by destruct f. Qed.

Lemma weight_finished σ f : finished f = true → weight σ f = O.
Proof. by destruct f. Qed.

Lemma claimed_visited_root σ f :
  claimed_visited σ f → past_add f = true → url_of f ∈ visited_urls σ.
Proof. intros Hf. apply Hf. rewrite subframes_unfold. by left. Qed.

Lemma inside_root f : inside f → url_of f ∈ site_urls.
Proof. intros Hf. apply Hf. rewrite subframes_unfold. by left. Qed.

(** Every step takes the weight of the tree down. *)
Lemma step_weight a σ f σ' f' :
  closed → step a σ f = Some (σ', f') →
  claimed_visited σ f → inside f →
  (weight σ' f' < weight σ f)%nat.
Proof.
  intros Hclosed Hstep.
  enough (visited_urls σ ⊆ visited_urls σ' ∧
          (claimed_visited σ f → inside f →
           (weight σ' f' < weight σ f)%nat)) as [_ ?]; [done|].
  revert a σ f σ' f' Hstep.
  apply (step_path_ind (λ σ f σ' f',
           visited_urls σ ⊆ visited_urls σ' ∧
           (claimed_visited σ f → inside f →
            (weight σ' f' < weight σ f)%nat))).
  - intros σ f σ' f' Ht%tick_ticks. split; [by eapply ticks_visited|].
    intros Hvisited Hinside.
    destruct Ht as [url Hin|url Hout|url|url|url|url m fs Hall|url e fs Hall];
      cbn [weight].
    + unfold test_weight. rewrite bool_decide_eq_true_2 by done. lia.
    + unfold test_weight. rewrite bool_decide_eq_false_2 by done. lia.
    + assert (unvisited (add_visited url σ) url = unvisited σ url) as ->;
        [|lia].
      unfold unvisited. f_equal. simpl. set_solver.
    + replace (unvisited (log (Requested url) σ) url) with (unvisited σ url)
        by done. lia.
    + pose proof (claimed_visited_root _ _ Hvisited eq_refl) as Hurl.
      pose proof (inside_root _ Hinside) as Hsite. simpl in Hurl, Hsite.
      destruct (receive_cases σ url)
        as [(e & _ & _ & ->)|[(_ & _ & ->)|(links & _ & Hlinks & _ & ->)]];
        cbn [fst snd weight]; unfold receive_cost; try lia.
      pose proof (links_at_fanout url links Hsite Hlinks) as Hfan.
      pose proof (pending_weight (log (Accepted url) σ) url links Hurl)
        as Hsum.
      replace (unvisited (log (Accepted url) σ) url) with (unvisited σ url)
        in Hsum by done.
      specialize (Hsum ltac:(apply Forall_forall; intros link Hlink;
                             by eapply Hclosed)).
      nia.
    + lia.
    + destruct (handle_cases σ url e) as [[_ ->]|[_ ->]]; simpl; lia.
  - intros σ f f' (futures' & Hp & Hs & ->)%start_Some. split; [done|].
    intros _ _. apply start_first_insert in Hs as (i & link & Hi & ->).
    rewrite !weight_pooled, futures_of_with_futures
      by (by rewrite ?pooled_with_futures).
    apply ->Nat.succ_lt_mono. eapply sum_insert_lt; [done|done|]. simpl. lia.
  - intros σ i f f' (u & m & fs & g & -> & Hi & Hf')%yield_Some.
    split; [done|]. intros _ _.
    assert (weight σ g = O) as Hg.
    { apply weight_finished. by destruct Hf' as [(r & -> & _)|(e & -> & _)]. }
    destruct Hf' as [(r & _ & ->)|(e & _ & ->)]; cbn [weight];
      apply ->Nat.succ_lt_mono; (eapply sum_insert_lt; [done|done|]);
      simpl; lia.
  - intros σ σ' i f g g' Hp Hi [Hsub IH]. split; [done|].
    intros Hvisited Hinside.
    rewrite !weight_pooled, futures_of_with_futures
      by (by rewrite ?pooled_with_futures).
    apply ->Nat.succ_lt_mono. eapply sum_insert_lt; [done| |].
    + intros z. by apply future_weight_mono.
    + simpl. apply ->Nat.succ_lt_mono. apply IH.
      * intros x Hx. apply Hvisited. by eapply subframes_lookup.
      * intros x Hx. apply Hinside. by eapply subframes_lookup.
Qed.


Lemma elem_of_insert_inv {A} (l : list A) i x y :
  x ∈ <[i := y]> l → x = y ∨ x ∈ l.
Proof.
  revert i. induction l as [|z l IH]; intros [|i]; simpl; try by right.
  - rewrite !elem_of_cons. intros [->|?]; auto.
  - rewrite !elem_of_cons. intros [->|Hx]; [auto|].
    destruct (IH i Hx); auto.
Qed.

Lemma inside_intro f :
  url_of f ∈ site_urls →
  (∀ link, Pending link ∈ futures_of f → link ∈ site_urls) →
  (∀ g, g ∈ futures_of f ≫= running subframes →
        url_of g ∈ site_urls ∧
        ∀ link, Pending link ∈ futures_of g → link ∈ site_urls) →
  inside f.
Proof.
  intros Hurl Hpending Hrest g. rewrite subframes_unfold, elem_of_cons.
  intros [->|Hg]; [done | by apply Hrest].
Qed.

Lemma inside_pending f link :
  inside f → Pending link ∈ futures_of f → link ∈ site_urls.
Proof. intros Hf. apply Hf. rewrite subframes_unfold. by left. Qed.

Lemma inside_descendants f g :
  inside f → g ∈ futures_of f ≫= running subframes →
  url_of g ∈ site_urls ∧
  ∀ link, Pending link ∈ futures_of g → link ∈ site_urls.
Proof. intros Hf Hg. apply Hf. rewrite subframes_unfold. by right. Qed.

(** A closed site is never left. *)
Lemma step_inside a σ f σ' f' :
  closed → step a σ f = Some (σ', f') → inside f → inside f'.
Proof.
  intros Hclosed. revert a σ f σ' f'.
  apply (step_path_ind (λ _ f _ f', inside f → inside f')).
  - intros σ f σ' f' Ht%tick_ticks Hf g.
    rewrite (ticks_subframes _ _ _ _ Ht), list_elem_of_singleton. intros ->.
    rewrite (ticks_url_of _ _ _ _ Ht). split; [by apply inside_root|].
    pose proof (inside_root _ Hf) as Hsite.
    destruct Ht as [url Hin|url Hout|url|url|url|url m fs Hall|url e fs Hall];
      simpl; try (by intros link ?%elem_of_nil).
    + destruct (receive_cases σ url)
        as [(e & _ & _ & ->)|[(_ & _ & ->)|(links & _ & Hlinks & _ & ->)]];
        simpl; try (by intros link ?%elem_of_nil).
      intros link (l & [= <-] & Hl)%list_elem_of_fmap. by eapply Hclosed.
    + destruct (handle_cases σ url e) as [[_ ->]|[_ ->]]; simpl;
        by intros link ?%elem_of_nil.
  - intros σ f f' (futures' & Hp & Hs & ->)%start_Some Hf.
    apply start_first_insert in Hs as (i & link & Hi & ->).
    apply inside_intro;
      rewrite ?url_of_with_futures, ?futures_of_with_futures by done.
    + by apply inside_root.
    + intros l [?|Hl]%elem_of_insert_inv; [done|]. by eapply inside_pending.
    + intros g Hg.
      eapply elem_of_bind_insert in Hg as [Hg|Hg]; [| |done].
      * apply list_elem_of_singleton in Hg as ->. simpl. split.
        -- eapply inside_pending; [done|]. by eapply list_elem_of_lookup_2.
        -- by intros l ?%elem_of_nil.
      * by eapply inside_descendants.
  - intros σ i f f' (u & m & fs & g & -> & Hi & Hf')%yield_Some Hf.
    assert (url_of f' = u ∧ futures_of f' = <[i := Yielded]> fs) as [Hu Hfs].
    { by destruct Hf' as [(r & _ & ->)|(e & _ & ->)]. }
    apply inside_intro; rewrite ?Hu, ?Hfs.
    + by apply (inside_root (InPool u m fs)).
    + intros l [?|Hl]%elem_of_insert_inv; [done|].
      by eapply (inside_pending (InPool u m fs)).
    + intros x Hx.
      eapply elem_of_bind_insert in Hx as [Hx|Hx]; [| |done].
      * by apply elem_of_nil in Hx.
      * by eapply (inside_descendants (InPool u m fs)).
  - intros σ σ' i f g g' Hp Hi IH Hf.
    apply inside_intro;
      rewrite ?url_of_with_futures, ?futures_of_with_futures by done.
    + by apply inside_root.
    + intros l [?|Hl]%elem_of_insert_inv; [done|]. by eapply inside_pending.
    + intros x Hx.
      eapply elem_of_bind_insert in Hx as [Hx|Hx]; [| |done].
      * apply IH; [|done]. intros y Hy. apply Hf.
        by eapply subframes_lookup.
      * by eapply inside_descendants.
Qed.

(** A run of a closed site takes no more steps than the weight of its
    first state allows. *)
Lemma run_weight schedule σ f σ' f' :
  closed → run schedule σ f = Some (σ', f') →
  claimed_visited σ f → inside f →
  (length schedule + weight σ' f' ≤ weight σ f)%nat.
Proof.
  intros Hclosed. revert σ f.
  induction schedule as [|a schedule IH]; intros σ f Hrun Hvisited Hinside;
    simpl in Hrun.
  - simplify_eq. simpl. lia.
  - destruct (step a σ f) as [[σ1 f1]|] eqn:Hstep; [|done].
    pose proof (step_weight _ _ _ _ _ Hclosed Hstep Hvisited Hinside).
    specialize (IH σ1 f1 Hrun
                  (step_claimed_visited _ _ _ _ _ Hstep Hvisited)
                  (step_inside _ _ _ _ _ Hclosed Hstep Hinside)).
    simpl. lia.
Qed.

End weight_facts.

Section progress_facts.
Context `{!Platform} `{!CrawlConfig}.

Lemma start_first_Some futures link :
  Pending link ∈ futures → is_Some (start_first futures).
Proof.
  induction futures as [|[l|g|] futures IH]; simpl.
  - by intros ?%elem_of_nil.
  - done.
  - intros [?|Hin]%elem_of_cons; [done|].
    destruct (IH Hin) as [rest ->]. done.
  - intros [?|Hin]%elem_of_cons; [done|].
    destruct (IH Hin) as [rest ->]. done.
Qed.

Lemma busy_zero futures :
  Forall (λ x, is_busy x = false) futures → busy futures = O.
Proof.
  unfold busy. induction 1 as [|x futures Hx _ IH]; simpl; [done|].
  by rewrite Hx.
Qed.

Lemma pools_pooled f : pooled f = true → pools f ≠ O.
Proof. by destruct f. Qed.

Lemma pools_allowed_pooled f : pools_allowed f → pooled f = true → 0 < max_threads.
Proof. intros [?|Hnone] Hp; [done|]. by apply pools_pooled in Hp. Qed.

(** What the futures of a pool allow: a child that can move, a result to
    hand out, a work item to start, or nothing more to wait for. *)
Lemma futures_cases (futures : list (future frame)) :
  (∃ i g, futures !! i = Some (Running g) ∧ finished g = false) ∨
  (Forall (λ x, is_busy x = false) futures ∧
   ((∃ link, Pending link ∈ futures) ∨
    forallb future_done futures = true)).
Proof.
  induction futures as [|x futures IH].
  - right. split; [constructor | by right].
  - destruct IH as [(i & g & Hi & Hg)|[Hidle Hrest]].
    { left. by exists (S i), g. }
    destruct x as [link|g|].
    + right. split; [by constructor|]. left. exists link. by left.
    + destruct (finished g) eqn:Hg.
      * right. split; [constructor; [by simpl; rewrite Hg | done]|].
        destruct Hrest as [[link Hlink]|Hdone].
        -- left. exists link. by right.
        -- right. simpl. by rewrite Hg.
      * left. by exists O, g.
    + right. split; [by constructor|].
      destruct Hrest as [[link Hlink]|Hdone].
      * left. exists link. by right.
      * by right.
Qed.

Lemma done_cases (futures : list (future frame)) :
  forallb future_done futures = true →
  (∃ i g, futures !! i = Some (Running g) ∧ finished g = true) ∨
  forallb is_Yielded futures = true.
Proof.
  induction futures as [|x futures IH]; simpl; [by right|].
  intros [Hx Hrest]%andb_prop.
  destruct (IH Hrest) as [(i & g & Hi & Hg)|Hall].
  { left. by exists (S i), g. }
  destruct x as [link|g|]; simpl in *; [done| |by right].
  left. by exists O, g.
Qed.

Lemma futures_all_lookup (Q : frame → Prop) (futures : list (future frame))
    i g :
  list_all (future frame) (future_all frame Q) futures →
  futures !! i = Some (Running g) → Q g.
Proof.
  intros Hall. revert i. induction Hall as [|y Hy l _ IH]; intros [|i] Hi;
    simplify_eq/=; [by inversion Hy | eauto].
Qed.

(** A tree whose root has not finished can take a step. *)
Lemma progress σ f :
  pools_allowed f →
  finished f = true ∨ ∃ a σ' f', step a σ f = Some (σ', f').
Proof.
  induction f as [url|url|url|url|url m fs IH|url e fs IH|url r|url e];
    intros Hallowed; try (by left); right.
  - exists Tick. simpl. case_bool_decide; eauto.
  - exists Tick. simpl. eauto.
  - exists Tick. simpl. eauto.
  - exists Tick. simpl. destruct (receive σ url). eauto.
  - pose proof (pools_allowed_pooled _ Hallowed eq_refl) as Hpos.
    destruct (futures_cases fs) as [(i & g & Hi & Hg)|[Hidle Hrest]].
    + pose proof (futures_all_lookup _ _ _ _ IH Hi) as Hstep.
      destruct (Hstep (or_introl Hpos)) as [Hfin|(a & σ' & g' & Ha)];
        [by rewrite Hg in Hfin|].
      exists (In i a). simpl. rewrite Hi. simpl. rewrite Ha. simpl. eauto.
    + destruct Hrest as [[link Hlink]|Hdone].
      * exists Start. simpl. rewrite (busy_zero _ Hidle).
        destruct (start_first_Some _ _ Hlink) as [rest ->].
        destruct (Z.ltb_spec (Z.of_nat 0) max_threads); [|lia]. simpl. eauto.
      * destruct (done_cases _ Hdone) as [(i & g & Hi & Hg)|Hall].
        -- exists (Yield i). simpl. rewrite Hi.
           destruct g; try done; simpl; eauto.
        -- exists Tick. simpl. rewrite Hall. eauto.
  - pose proof (pools_allowed_pooled _ Hallowed eq_refl) as Hpos.
    destruct (futures_cases fs) as [(i & g & Hi & Hg)|[Hidle Hrest]].
    + pose proof (futures_all_lookup _ _ _ _ IH Hi) as Hstep.
      destruct (Hstep (or_introl Hpos)) as [Hfin|(a & σ' & g' & Ha)];
        [by rewrite Hg in Hfin|].
      exists (In i a). simpl. rewrite Hi. simpl. rewrite Ha. simpl. eauto.
    + destruct Hrest as [[link Hlink]|Hdone].
      * exists Start. simpl. rewrite (busy_zero _ Hidle).
        destruct (start_first_Some _ _ Hlink) as [rest ->].
        destruct (Z.ltb_spec (Z.of_nat 0) max_threads); [|lia]. simpl. eauto.
      * exists Tick. simpl. rewrite Hdone. destruct (handle σ url e). eauto.
Qed.

Lemma pools_finished f : finished f = true → pools f = O.
Proof. by destruct f. Qed.

(** Line 39 raises unless [max_threads] is positive. *)
Lemma step_pools_allowed a σ f σ' f' :
  step a σ f = Some (σ', f') → pools_allowed f → pools_allowed f'.
Proof.
  intros Hstep Hf. destruct (decide (0 < max_threads)) as [|Hneg]; [by left|].
  right. destruct Hf as [?|Hnone]; [done|].
  destruct a as [| |i|i a]; simpl in Hstep.
  - apply tick_ticks in Hstep.
    destruct Hstep as [url Hin|url Hout|url|url|url|url m fs Hall|url e fs Hall];
      try done.
    by destruct (receive_cases σ url)
      as [(e & _ & _ & ->)|[(_ & _ & ->)|(links & _ & _ & ? & _)]].
  - destruct (start f) as [f''|] eqn:Hs; simplify_eq/=.
    apply start_Some in Hs as (? & Hp & _). by apply pools_pooled in Hp.
  - destruct (yield i f) as [f''|] eqn:Hy; simplify_eq/=.
    by apply yield_Some in Hy as (? & ? & ? & ? & -> & _).
  - apply step_in_Some in Hstep as (? & ? & Hp & _).
    by apply pools_pooled in Hp.
Qed.

Lemma run_pools_allowed schedule σ f σ' f' :
  run schedule σ f = Some (σ', f') → pools_allowed f → pools_allowed f'.
Proof.
  revert schedule σ f σ' f'.
  apply (run_ind (λ _ f _ f', pools_allowed f → pools_allowed f')); [done|].
  intros a σ f σ1 f1 σ2 f2 Hstep IH Hf. by eapply IH, step_pools_allowed.
Qed.

End progress_facts.

Section termination.
Context `{!Platform} `{!CrawlConfig} `{!Site}.

Lemma inside_initial homepage : homepage ∈ site_urls → inside (AtTest homepage).
Proof.
  intros Hin g ->%list_elem_of_singleton. split; [done|].
  by intros link ?%elem_of_nil.
Qed.

(** On a closed site every run, under every schedule, is at most as long as
    a bound that the site determines, and a state whose root has not
    finished always has a next step: the crawl ends, returning or
    raising. *)
Theorem crawl_terminates homepage schedule σ f :
  closed → homepage ∈ site_urls →
  reaches homepage schedule σ f →
  (length schedule + weight σ f ≤
   3 + receive_cost fanout (size (site_urls ∖ {[homepage]})))%nat ∧
  (finished f = true ∨ ∃ a σ' f', step a σ f = Some (σ', f')).
Proof.
  intros Hclosed Hin Hrun. split.
  - pose proof (run_weight _ _ _ _ _ Hclosed Hrun
                  (claimed_visited_initial homepage)
                  (inside_initial homepage Hin)) as Hbound.
    unfold crawl_page in Hbound. cbn [weight] in Hbound.
  unfold test_weight, unvisited in Hbound.
    simpl in Hbound. rewrite bool_decide_eq_false_2 in Hbound by set_solver.
    by rewrite (right_id_L ∅ (∪)) in Hbound.
  - apply progress. eapply run_pools_allowed; [done|]. by right.
Qed.

End termination.

Section one_at_a_time.
Context `{!Platform} `{!CrawlConfig}.

Lemma start_busy f f' :
  start f = Some f' → Z.of_nat (busy (futures_of f)) < max_threads.
Proof.
  destruct f; simpl; try done;
    destruct (Z.ltb_spec (Z.of_nat (busy futures)) max_threads); done.
Qed.

Lemma busy_insert (futures : list (future frame)) i x y :
  futures !! i = Some x →
  (busy (<[i := y]> futures) + (if is_busy x then 1 else 0) =
   busy futures + (if is_busy y then 1 else 0))%nat.
Proof.
  unfold busy. revert i.
  induction futures as [|z futures IH]; intros [|i] Hi; simplify_eq/=.
  - destruct (is_busy x), (is_busy y); simpl; lia.
  - specialize (IH i Hi). destruct (is_busy z); simpl; lia.
Qed.

Lemma busy_Pending (links : list string) : busy (Pending <$> links) = O.
Proof. unfold busy. induction links; by simpl. Qed.

Lemma step_unfinished a σ f σ' f' :
  step a σ f = Some (σ', f') → finished f = false.
Proof.
  intros Hstep. destruct (finished f) eqn:Hf; [|done].
  by rewrite finished_stuck in Hstep.
Qed.

Lemma bounded_intro f :
  (pooled f = true → Z.of_nat (busy (futures_of f)) ≤ max_threads) →
  (∀ g, g ∈ futures_of f ≫= running subframes → pooled g = true →
        Z.of_nat (busy (futures_of g)) ≤ max_threads) →
  bounded f.
Proof.
  intros Hroot Hrest g. rewrite subframes_unfold, elem_of_cons.
  intros [->|Hg]; [done | by apply Hrest].
Qed.

Lemma bounded_root f :
  bounded f → pooled f = true → Z.of_nat (busy (futures_of f)) ≤ max_threads.
Proof. intros Hf. apply Hf. rewrite subframes_unfold. by left. Qed.

Lemma bounded_descendants f g :
  bounded f → g ∈ futures_of f ≫= running subframes → pooled g = true →
  Z.of_nat (busy (futures_of g)) ≤ max_threads.
Proof. intros Hf Hg. apply Hf. rewrite subframes_unfold. by right. Qed.

Lemma bounded_lookup f i g :
  bounded f → futures_of f !! i = Some (Running g) → bounded g.
Proof. intros Hf Hi x Hx. apply Hf. by eapply subframes_lookup. Qed.

(** Each pool keeps to its own limit. *)
Lemma step_bounded a σ f σ' f' :
  step a σ f = Some (σ', f') → bounded f → bounded f'.
Proof.
  intros Hstep.
  enough (finished f = false ∧ (bounded f → bounded f')) as [_ ?]; [done|].
  revert a σ f σ' f' Hstep.
  apply (step_path_ind (λ _ f _ f',
           finished f = false ∧ (bounded f → bounded f'))).
  - intros σ f σ' f' Ht. split; [by eapply step_unfinished with (a := Tick)|].
    apply tick_ticks in Ht. intros _ g.
    rewrite (ticks_subframes _ _ _ _ Ht), list_elem_of_singleton. intros ->.
    destruct Ht as [url Hin|url Hout|url|url|url|url m fs Hall|url e fs Hall];
      try done.
    + destruct (receive_cases σ url)
        as [(e & _ & _ & ->)|[(_ & _ & ->)|(links & _ & _ & Hpos & ->)]];
        simpl; try done.
      rewrite busy_Pending. lia.
    + by destruct (handle_cases σ url e) as [[_ ->]|[_ ->]].
  - intros σ f f' Hs. pose proof (start_busy _ _ Hs) as Hfree.
    apply start_Some in Hs as (futures' & Hp & Hs & ->).
    split; [by destruct f|]. intros Hf.
    apply start_first_insert in Hs as (i & link & Hi & ->).
    apply bounded_intro; rewrite ?futures_of_with_futures by done.
    + intros _. pose proof (busy_insert _ i _ (Running (AtTest link)) Hi).
      simpl in *. lia.
    + intros g Hg.
      eapply elem_of_bind_insert in Hg as [Hg|Hg]; [| |done].
      * by apply list_elem_of_singleton in Hg as ->.
      * by eapply bounded_descendants.
  - intros σ i f f' (u & m & fs & g & -> & Hi & Hf')%yield_Some.
    split; [done|]. intros Hf.
    assert (pooled f' = true ∧ futures_of f' = <[i := Yielded]> fs) as [Hp Hfs].
    { by destruct Hf' as [(r & _ & ->)|(e & _ & ->)]. }
    assert (is_busy (Running g) = false) as Hg.
    { by destruct Hf' as [(r & -> & _)|(e & -> & _)]. }
    apply bounded_intro; rewrite ?Hfs.
    + intros _. pose proof (busy_insert _ i _ Yielded Hi) as Hbusy.
      rewrite Hg in Hbusy. simpl in Hbusy.
      pose proof (bounded_root _ Hf eq_refl). simpl in *. lia.
    + intros x Hx.
      eapply elem_of_bind_insert in Hx as [Hx|Hx]; [| |done].
      * by apply elem_of_nil in Hx.
      * by eapply (bounded_descendants (InPool u m fs)).
  - intros σ σ' i f g g' Hp Hi [Hg IH]. split; [by destruct f|]. intros Hf.
    apply bounded_intro; rewrite ?futures_of_with_futures by done.
    + intros _. pose proof (busy_insert _ i _ (Running g') Hi) as Hbusy.
      simpl in Hbusy. rewrite Hg in Hbusy. simpl in Hbusy.
      pose proof (bounded_root _ Hf Hp). destruct (finished g'); simpl in *; lia.
    + intros x Hx.
      eapply elem_of_bind_insert in Hx as [Hx|Hx]; [| |done].
      * apply IH; [|done]. by eapply bounded_lookup.
      * by eapply bounded_descendants.
Qed.

Lemma run_bounded schedule σ f σ' f' :
  run schedule σ f = Some (σ', f') → bounded f → bounded f'.
Proof.
  revert schedule σ f σ' f'.
  apply (run_ind (λ _ f _ f', bounded f → bounded f')); [done|].
  intros a σ f σ1 f1 σ2 f2 Hstep IH Hf. by eapply IH, step_bounded.
Qed.

Lemma bounded_initial homepage : bounded (AtTest homepage).
Proof. by intros g ->%list_elem_of_singleton. Qed.

Lemma busy_zero_inv (futures : list (future frame)) x :
  busy futures = O → x ∈ futures → is_busy x = false.
Proof.
  unfold busy. induction futures as [|y futures IH]; simpl.
  - by intros _ ?%elem_of_nil.
  - destruct (is_busy y) eqn:Hy; [done|].
    intros Hzero [->|Hx]%elem_of_cons; auto.
Qed.

(** With one worker, the futures next to a running activation rest. *)
Lemma lone_worker (futures : list (future frame)) i g g' x :
  (busy futures ≤ 1)%nat →
  futures !! i = Some (Running g) → finished g = false →
  x ∈ <[i := Running g']> futures ≫= running subframes →
  x ∈ subframes g' ∨ finished x = true.
Proof.
  intros Hbusy Hi Hg (y & Hx & Hy)%list_elem_of_bind.
  apply list_elem_of_lookup in Hy as [j Hj].
  destruct (decide (j = i)) as [->|Hne].
  - rewrite list_lookup_insert_eq in Hj by (by eapply lookup_lt_Some).
    simplify_eq. by left.
  - rewrite list_lookup_insert_ne in Hj by done. right.
    pose proof (busy_insert _ i _ Yielded Hi) as Hrest.
    simpl in Hrest. rewrite Hg in Hrest. simpl in Hrest.
    assert (is_busy y = false) as Hidle.
    { apply (busy_zero_inv (<[i := Yielded]> futures)); [lia|].
      apply (list_elem_of_lookup_2 _ j). by rewrite list_lookup_insert_ne. }
    destruct y as [link|h|]; simpl in *; try by apply elem_of_nil in Hx.
    apply negb_false_iff in Hidle.
    rewrite (subframes_finished h Hidle) in Hx.
    by apply list_elem_of_singleton in Hx as ->.
Qed.

Lemma unclaimed_intro σ f :
  (∀ url, (f = AtAdd url → url ∉ visited_urls σ) ∧
          (f = AtGet url → url ∉ fetches σ)) →
  (∀ g url, g ∈ futures_of f ≫= running subframes →
            (g = AtAdd url → url ∉ visited_urls σ) ∧
            (g = AtGet url → url ∉ fetches σ)) →
  unclaimed σ f.
Proof.
  intros Hroot Hrest g url. rewrite subframes_unfold, elem_of_cons.
  intros [->|Hg]; [done | by apply Hrest].
Qed.

Lemma unclaimed_descendants σ f g url :
  unclaimed σ f → g ∈ futures_of f ≫= running subframes →
  (g = AtAdd url → url ∉ visited_urls σ) ∧ (g = AtGet url → url ∉ fetches σ).
Proof. intros Hf Hg. apply Hf. rewrite subframes_unfold. by right. Qed.

Lemma unclaimed_root σ f url :
  unclaimed σ f →
  (f = AtAdd url → url ∉ visited_urls σ) ∧ (f = AtGet url → url ∉ fetches σ).
Proof. intros Hf. apply Hf. rewrite subframes_unfold. by left. Qed.

(** With one worker per pool nobody is overtaken between the test and the
    request. *)
Lemma step_unclaimed a σ f σ' f' :
  max_threads = 1 →
  step a σ f = Some (σ', f') →
  bounded f → fetched_visited σ → unclaimed σ f → unclaimed σ' f'.
Proof.
  intros Hone Hstep.
  enough (finished f = false ∧
          (bounded f → fetched_visited σ → unclaimed σ f → unclaimed σ' f'))
    as [_ ?]; [done|].
  revert a σ f σ' f' Hstep.
  apply (step_path_ind (λ σ f σ' f',
           finished f = false ∧
           (bounded f → fetched_visited σ → unclaimed σ f →
            unclaimed σ' f'))).
  - intros σ f σ' f' Ht. split; [by eapply step_unfinished with (a := Tick)|].
    apply tick_ticks in Ht. intros _ Hσ Hf g u.
    rewrite (ticks_subframes _ _ _ _ Ht), list_elem_of_singleton. intros ->.
    destruct Ht as [url Hin|url Hout|url|url|url|url m fs Hall|url e fs Hall];
      try (by split).
    + split; [by intros [= <-] | done].
    + split; [done|]. intros [= <-].
      destruct (unclaimed_root _ _ url Hf) as [Hnew _].
      intros Hin. by apply (Hnew eq_refl), Hσ.
    + by destruct (receive_cases σ url)
        as [(e & _ & _ & ->)|[(_ & _ & ->)|(links & _ & _ & _ & ->)]].
    + by destruct (handle_cases σ url e) as [[_ ->]|[_ ->]].
  - intros σ f f' (futures' & Hp & Hs & ->)%start_Some.
    split; [by destruct f|]. intros _ _ Hf.
    apply start_first_insert in Hs as (i & link & Hi & ->).
    apply unclaimed_intro; rewrite ?futures_of_with_futures by done.
    + by destruct f.
    + intros g u Hg.
      eapply elem_of_bind_insert in Hg as [Hg|Hg]; [| |done].
      * by apply list_elem_of_singleton in Hg as ->.
      * by eapply unclaimed_descendants.
  - intros σ i f f' (u & m & fs & g & -> & Hi & Hf')%yield_Some.
    split; [done|]. intros _ _ Hf.
    assert (pooled f' = true ∧ futures_of f' = <[i := Yielded]> fs) as [Hp Hfs].
    { by destruct Hf' as [(r & _ & ->)|(e & _ & ->)]. }
    apply unclaimed_intro; rewrite ?Hfs.
    + by destruct f'.
    + intros x v Hx.
      eapply elem_of_bind_insert in Hx as [Hx|Hx]; [| |done].
      * by apply elem_of_nil in Hx.
      * by eapply (unclaimed_descendants σ (InPool u m fs)).
  - intros σ σ' i f g g' Hp Hi [Hg IH]. split; [by destruct f|].
    intros Hbounded Hσ Hf.
    apply unclaimed_intro; rewrite ?futures_of_with_futures by done.
    + by destruct f.
    + intros x v Hx.
      pose proof (bounded_root _ Hbounded Hp) as Hbusy.
      eapply lone_worker in Hx as [Hx|Hx]; [| |lia|done..].
      * apply IH; [by eapply bounded_lookup|done| |done].
        intros y w Hy. apply Hf. by eapply subframes_lookup.
      * by destruct x.
Qed.

(** A step makes at most one request. *)
Lemma step_fetches_one a σ f σ' f' :
  step a σ f = Some (σ', f') →
  fetches σ' = fetches σ ∨
  ∃ url, fetches σ' = fetches σ ++ [url] ∧ AtGet url ∈ subframes f.
Proof.
  revert a σ f σ' f'.
  apply (step_path_ind (λ σ f σ' f',
           fetches σ' = fetches σ ∨
           ∃ url, fetches σ' = fetches σ ++ [url] ∧ AtGet url ∈ subframes f));
    try (by left).
  - intros σ f σ' f' Ht%tick_ticks.
    destruct Ht as [| | |url| | |];
      rewrite ?receive_fetches, ?handle_fetches; try (by left).
    right. exists url. rewrite fetches_log. split; [done | by left].
  - intros σ σ' i f g g' Hp Hi [?|(url & ? & ?)]; [by left | right].
    exists url. split; [done|]. by eapply subframes_lookup.
Qed.

Lemma step_one_worker a σ f σ' f' :
  max_threads = 1 →
  step a σ f = Some (σ', f') →
  one_worker_invariant σ f → one_worker_invariant σ' f'.
Proof.
  intros Hone Hstep (Hb & Hc & Hv & Hu & Hn).
  split; [by eapply step_bounded|]. split; [by eapply step_claimed_visited|].
  split; [by eapply step_fetched_visited|].
  split; [by eapply step_unclaimed|].
  destruct (step_fetches_one _ _ _ _ _ Hstep) as [->|(url & -> & Hget)];
    [done|].
  apply NoDup_app. split; [done|]. split; [|apply NoDup_singleton].
  intros u Hin Hu'. apply list_elem_of_singleton in Hu'. subst u.
  destruct (Hu (AtGet url) url Hget) as [_ Hfresh]. by apply Hfresh.
Qed.

(** With [max_threads = 1] no url is requested twice. *)
Theorem one_worker_fetches_once homepage schedule σ f :
  max_threads = 1 → reaches homepage schedule σ f → NoDup (fetches σ).
Proof.
  intros Hone Hrun.
  enough (one_worker_invariant σ f) as (_ & _ & _ & _ & ?); [done|].
  revert Hrun. unfold reaches, crawl_page.
  assert (one_worker_invariant initial (AtTest homepage)) as Hinit.
  { split; [apply bounded_initial|]. split; [apply claimed_visited_initial|].
    split; [apply fetched_visited_initial|]. split; [|constructor].
    intros g url ->%list_elem_of_singleton. done. }
  revert Hinit. generalize initial (AtTest homepage). revert schedule σ f.
  intros schedule σ f σ0 f0 Hinit Hrun. revert schedule σ0 f0 σ f Hrun Hinit.
  apply (run_ind (λ σ0 f0 σ f,
           one_worker_invariant σ0 f0 → one_worker_invariant σ f)); [done|].
  intros a σ0 f0 σ1 f1 σ2 f2 Hstep IH Hinv. by eapply IH, step_one_worker.
Qed.

End one_at_a_time.

(** ** The diamond site as an instance *)

Lemma diamond_closed : @closed diamond_site diamond_urls.
Proof.
  intros url links link Hurl Hlinks Hlink.
  unfold site_urls, diamond_urls in *. set_unfold in Hurl.
  destruct_or! Hurl; subst url; vm_compute in Hlinks; simplify_eq;
    set_unfold in Hlink; set_unfold; naive_solver.
Qed.

Lemma diamond_bound :
  (3 + receive_cost (@fanout diamond_site diamond_urls)
         (size (@site_urls diamond_urls ∖ {["http://x.com/"]})) = 151)%nat.
Proof. by vm_compute. Qed.

(** Every run of the crawl of the diamond site has at most 151 steps. *)
Lemma diamond_terminates max_threads schedule σ f :
  @reaches diamond_site (config "hello" max_threads) "http://x.com/"
    schedule σ f →
  (length schedule ≤ 151)%nat.
Proof.
  intros Hrun.
  destruct (@crawl_terminates diamond_site (config "hello" max_threads)
              diamond_urls "http://x.com/" schedule σ f diamond_closed)
    as [Hbound _]; [set_solver | done |].
  rewrite diamond_bound in Hbound. lia.
Qed.

(** With one worker D is requested once, whatever the schedule. *)
Lemma diamond_one_worker schedule σ f :
  @reaches diamond_site (config "hello" 1) "http://x.com/" schedule σ f →
  (fetch_count "http://x.com/d" σ ≤ 1)%nat.
Proof.
  intros Hrun%(@one_worker_fetches_once diamond_site (config "hello" 1));
    [|done].
  unfold fetch_count, occurrences.
  induction Hrun as [|u us Hu _ IH]; [simpl; lia|].
  rewrite filter_cons. case_decide as Heq; [|done]. subst u. simpl.
  rewrite filter_eq_nil by done. simpl. lia.
Qed.

(** ** The scenarios of the specification *)

(** Fault isolation: B answers 500, C contains the query; the run returns
    the pair of C and prints the error of B. *)
Example fault_isolation_scenario :
  let A := "http://x.com/" in
  let B := "http://x.com/b" in
  let C := "http://x.com/c" in
  ∃ σ,
    (@reaches faulty_site (config "hello" 1) A faulty_one_by_one σ
       (Returned A [("hello", C)])) ∧
    stdout σ = [(B, HTTPError 500)] ∧ fetches σ = [A; B; C].
Proof. eexists. split; [by vm_compute|]. by vm_compute. Qed.

(** End to end: A links to B and C, B back to A and on to D; only D
    contains the query.  One pair is returned and each of the four urls is
    requested once. *)
Example end_to_end_scenario :
  let A := "http://x.com/" in
  let B := "http://x.com/b" in
  let C := "http://x.com/c" in
  let D := "http://x.com/d" in
  ∃ σ,
    (@reaches scenario_site (config "HELLO" 1) A scenario_one_by_one σ
       (Returned A [("hello", D)])) ∧
    fetches σ = [A; B; D; C] ∧ visited_urls σ = {[A; B; C; D]}.
Proof. eexists. split; [by vm_compute|]. by vm_compute. Qed.
(** * The claims *)

Section claims_helpers.
Context `{Platform} `{CrawlConfig}.

Lemma subframe_subframes path f g :
  subframe path f = Some g → g ∈ subframes f.
Proof.
  revert f. induction path as [|i path IH]; intros f Hsub; simpl in Hsub.
  - simplify_eq. rewrite subframes_unfold. by left.
  - destruct (futures_of f !! i) as [[|h|]|] eqn:Hi; try done.
    eapply subframes_lookup; [done|]. by apply IH.
Qed.

Lemma tick_visited_test σ url :
  url ∈ visited_urls σ → tick σ (AtTest url) = Some (σ, Returned url []).
Proof. intros Hin. simpl. by rewrite bool_decide_eq_true_2. Qed.

Lemma occurrences_Forall2 url (hrefs links : list string) href link :
  Forall2 (λ h l, urljoin url h = Some l) hrefs links →
  urljoin url href = Some link →
  (occurrences href hrefs ≤ occurrences link links)%nat.
Proof.
  intros Hall Hjoin. unfold occurrences.
  induction Hall as [|h l hrefs links Hhl _ IH]; [done|].
  rewrite !filter_cons. destruct (decide (h = href)) as [->|Hne].
  - rewrite Hjoin in Hhl. simplify_eq. rewrite decide_True by done.
    simpl. lia.
  - destruct (decide (l = link)); simpl; lia.
Qed.

Lemma candidates_sublist url hrefs : candidates url hrefs `sublist_of` hrefs.
Proof.
  unfold candidates. induction hrefs as [|href hrefs IH]; simpl; [done|].
  destruct (candidate url href); by constructor.
Qed.

Lemma occurrences_candidates url hrefs href :
  candidate url href = true →
  occurrences href (candidates url hrefs) = occurrences href hrefs.
Proof.
  intros Hc. unfold occurrences, candidates.
  induction hrefs as [|h hrefs IH]; simpl; [done|].
  rewrite (filter_cons _ h hrefs).
  destruct (decide (h = href)) as [->|Hne].
  - rewrite Hc, filter_cons, decide_True by done. simpl. by rewrite IH.
  - destruct (candidate url h); [|done].
    by rewrite filter_cons, decide_False.
Qed.

Lemma step_rejected_escaped a σ f σ' f' :
  step a σ f = Some (σ', f') → rejected_escaped σ → rejected_escaped σ'.
Proof.
  revert a σ f σ' f'.
  apply (step_path_ind (λ σ _ σ' _,
           rejected_escaped σ → rejected_escaped σ')); try done.
  intros σ f σ' f' Ht%tick_ticks Hσ.
  destruct Ht as [url Hin|url Hout|url|url|url|url m fs Hall|url e fs Hall];
    try done.
  - intros page. rewrite accepted_log, escapes_log, !app_nil_r. apply Hσ.
  - intros page.
    destruct (receive_cases σ url)
      as [(e & _ & _ & ->)|[(_ & _ & ->)|(links & _ & Hl & Hpos & ->)]];
      cbn [fst snd]; rewrite ?accepted_log, ?escapes_log, ?app_nil_r.
    + apply Hσ.
    + rewrite !elem_of_app, !list_elem_of_singleton.
      intros [Hacc| ->] Hcause; [left; by apply Hσ | by right].
    + rewrite elem_of_app, list_elem_of_singleton.
      intros [Hacc| ->] Hcause; [by apply Hσ|].
      destruct Hcause as [Hnone|Hneg]; [congruence | lia].
  - intros page.
    destruct (handle_cases σ url e) as [[_ ->]|[_ ->]]; cbn [fst snd];
      rewrite accepted_log, escapes_log, ?app_nil_r; [apply Hσ|].
    rewrite elem_of_app. intros Hacc Hcause. left. by apply Hσ.
Qed.

Lemma run_rejected_escaped schedule σ f σ' f' :
  run schedule σ f = Some (σ', f') → rejected_escaped σ → rejected_escaped σ'.
Proof.
  revert schedule σ f σ' f'.
  apply (run_ind (λ σ _ σ' _, rejected_escaped σ → rejected_escaped σ'));
    [done|].
  intros a σ f σ1 f1 σ2 f2 Hstep IH Hσ. by eapply IH, step_rejected_escaped.
Qed.

(** A crawl that has accepted a page for which line 36 or line 39 raises
    ends with [ValueError] leaving the call for the homepage. *)
Lemma reaches_rejected homepage schedule σ f page :
  reaches homepage schedule σ f → finished f = true →
  page ∈ accepted σ → links_at page = None ∨ max_threads ≤ 0 →
  f = Raised homepage ValueError.
Proof.
  intros Hrun Hfin Hacc Hcause.
  assert ((page, ValueError) ∈ escapes σ) as Hesc.
  { eapply run_rejected_escaped; [done| |done..].
    intros p Hp. by apply elem_of_nil in Hp. }
  assert (∀ schedule σ0 f0 σ f,
            run schedule σ0 f0 = Some (σ, f) → url_of f = url_of f0)
    as Hurl_of.
  { apply (run_ind (λ _ f _ f', url_of f' = url_of f)); [done|].
    intros a σ1 f1 σ2 f2 σ3 f3 Hstep ->. by eapply step_url_of. }
  pose proof (Hurl_of _ _ _ _ _ Hrun) as Hurl. simpl in Hurl.
  destruct f as [| | | | | |url result|url e]; try done.
  - destruct (reaches_Returned _ _ _ _ _ Hrun) as [Hnone _].
    rewrite Hnone in Hesc. by apply elem_of_nil in Hesc.
  - simpl in Hurl. subst url. f_equal.
    destruct (run_held _ _ _ _ _ Hrun) as (_ & _ & _ & _ & Hun & _).
    { intros g e0 ->%list_elem_of_singleton. done. }
    assert (is_RequestException e = false) as He.
    { apply (Hun (Raised homepage e)); [by left|done]. }
    by destruct e.
Qed.

End claims_helpers.

(** C1 (the race on the set).  [url in visited_urls] and
    [visited_urls.add(url)] are two steps.  On a site where A links to B
    and C and both link to D, crawled with two threads, the activations
    that B and C spawn for D can both evaluate the test before either adds
    D: both find D absent, so the claim succeeds twice for the one url D,
    and [requests.get] is then called twice with D. *)
Theorem C1_claim_succeeds_twice :
  let A := "http://x.com/" in
  let D := "http://x.com/d" in
  (∃ σ f,
      (@reaches diamond_site (config "hello" 2) A both_test σ f) ∧
      (D ∉ visited_urls σ) ∧
      subframe [0; 0]%nat f = Some (AtAdd D) ∧
      subframe [1; 0]%nat f = Some (AtAdd D)) ∧
  (∃ σ f,
      (@reaches diamond_site (config "hello" 2) A both_request σ f) ∧
      fetches σ = [A; "http://x.com/b"; "http://x.com/c"; D; D] ∧
      fetch_count D σ = 2%nat).
Proof.
  split.
  - eexists _, _. split; [by vm_compute|]. split; [|by vm_compute].
    by vm_compute.
  - eexists _, _. split; [by vm_compute|]. by vm_compute.
Qed.

(** C2 (one pool per page).  Every activation that reaches line 39 opens a
    pool of its own.  With [max_threads = 2] on a site where A links to B
    and C, B to D and E, and C to F and G, a run reaches a state with three
    pools and four calls of [requests.get] in flight. *)
Theorem C2_more_requests_than_threads :
  ∃ σ f,
    (@reaches tree_site (config "hello" 2) "http://x.com/" four_requests σ f) ∧
    @max_threads (config "hello" 2) = 2 ∧
    in_flight f = 4%nat ∧ pools f = 3%nat.
Proof. eexists _, _. split; [by vm_compute|]. by vm_compute. Qed.

(** C3 (a cycle whose node is requested twice).  A links to B and C, both
    link to D, and D links back to A.  With two threads there is a run
    that ends, the root activation returning, in which D was requested
    twice and its result pair is returned twice. *)
Theorem C3_cycle_node_fetched_twice :
  let A := "http://x.com/" in
  let D := "http://x.com/d" in
  ∃ σ,
    (@reaches diamond_site (config "hello" 2) A both_return σ
       (Returned A [("hello", D); ("hello", D)])) ∧
    fetch_count A σ = 1%nat ∧ fetch_count D σ = 2%nat.
Proof. eexists. split; [by vm_compute|]. by vm_compute. Qed.

(** C4, as stated, fails: a response with a status outside 200-299 need not
    end the activation.  [raise_for_status] lets the status 300 through; the
    page is matched and its links are submitted. *)
Lemma C4_counterexample :
  ¬ (∀ (P : Platform) (C : CrawlConfig) σ url response,
       requests_get url = inr response →
       ¬ (200 ≤ status_code response < 300) →
       ∃ σ', tick σ (InGet url) = Some (σ', Returned url [])).
Proof.
  intros Hclaim.
  destruct (Hclaim choices_site (config "hello" 1) initial "http://x.com/"
              (mkResponse 300 (mkSoup "hello" ["/b"])))
    as [σ' Htick]; [by vm_compute | simpl; lia | by vm_compute in Htick].
Qed.

(** C4, amended.  When [requests.get] raises, or returns a response whose
    status is in 400-599, the activation prints the error and returns the
    empty list: no result pair and no link come from that url.  The step
    changes this activation and the printed output and nothing else, so
    the run goes on.  The activation then takes no further step, and since
    its url is in the set, an activation that tests the url later returns
    at line 24 without a request. *)
Theorem C4_failed_fetch_is_a_leaf `{Platform} `{CrawlConfig}
    homepage schedule σ f path url e :
  reaches homepage schedule σ f →
  subframe path f = Some (InGet url) →
  fetch_error url = Some e →
  ((∃ detail, requests_get url = inl detail ∧ e = RequestException detail) ∨
   (∃ response, requests_get url = inr response ∧
                400 ≤ status_code response < 600 ∧
                e = HTTPError (status_code response))) ∧
  step (at_path path Tick) σ f =
    Some (log (Printed url e) σ, replace path (Returned url []) f) ∧
  visited_urls (log (Printed url e) σ) = visited_urls σ ∧
  stdout (log (Printed url e) σ) = stdout σ ++ [(url, e)] ∧
  fetches (log (Printed url e) σ) = fetches σ ∧
  (∀ a σ1, step a σ1 (Returned url []) = None) ∧
  (∀ later σ' f',
      run later (log (Printed url e) σ)
          (replace path (Returned url []) f) = Some (σ', f') →
      tick σ' (crawl_page url) = Some (σ', Returned url [])).
Proof.
  intros Hrun Hsub He.
  split; [by apply fetch_error_Some|]. split.
  { apply (step_at_path path Tick σ f (InGet url)); [done|]. simpl.
    by rewrite (receive_error σ url e). }
  split; [done|]. split.
  { unfold stdout, log. simpl. by rewrite omap_app. }
  split; [by rewrite fetches_log, app_nil_r|]. split.
  { intros a σ1. by apply finished_stuck. }
  intros later σ' f' Hlater. apply tick_visited_test.
  eapply run_visited; [done|]. simpl.
  pose proof (run_claimed_visited _ _ _ _ _ Hrun
                (claimed_visited_initial homepage)) as Hvisited.
  apply (Hvisited (InGet url)); [by eapply subframe_subframes | done].
Qed.

Lemma C4_witness :
  let A := "http://x.com/" in
  let B := "http://x.com/b" in
  let σ := mkShared {[A; B]} [Requested A; Accepted A; Requested B] in
  let f := InPool A [] [Running (InGet B); Pending "http://x.com/c"] in
  let schedule := until_B_requested in
  (@reaches faulty_site (config "hello" 1) A schedule σ f) ∧
  subframe [0%nat] f = Some (InGet B) ∧
  @fetch_error faulty_site B = Some (HTTPError 500) ∧
  @step faulty_site (config "hello" 1) (In 0 Tick) σ f =
    Some (log (Printed B (HTTPError 500)) σ,
          InPool A [] [Running (Returned B []); Pending "http://x.com/c"]).
Proof.
  intros A B σ f schedule.
  assert (@reaches faulty_site (config "hello" 1) A schedule σ f) as Hrun
    by (by vm_compute).
  assert (subframe [0%nat] f = Some (InGet B)) as Hsub by done.
  assert (@fetch_error faulty_site B = Some (HTTPError 500)) as He
    by (by vm_compute).
  split; [exact Hrun|]. split; [exact Hsub|]. split; [exact He|].
  exact (proj1 (proj2 (@C4_failed_fetch_is_a_leaf faulty_site
                         (config "hello" 1) A schedule σ f [0%nat] B
                         (HTTPError 500) Hrun Hsub He))).
Defined.

(** C5, as stated, fails: the list of links is not deduplicated.  An href
    that appears twice on a page gives two entries. *)
Lemma C5_counterexample :
  let B := "http://x.com/b" in
  @page_links twice_site "http://x.com/" ["/b"; "/b"] = Some [B; B] ∧
  ¬ NoDup [B; B].
Proof.
  split; [by vm_compute|]. intros Hnodup.
  apply NoDup_cons in Hnodup as [Hnotin _]. apply Hnotin. by left.
Qed.

(** C5, amended.  The list of links of a page has one entry for each
    candidate anchor, in document order, duplicates included.  Entry by
    entry the list is [urljoin(url, href)] of the candidates; the
    candidates are a subsequence of the hrefs of the anchors, in their
    order, that holds hrefs passing the test of line 35 only and keeps
    every occurrence of each; so a candidate href that appears [n] times
    on the page gives at least [n] entries of its resolved url (more
    when another href resolves to the same url). *)
Theorem C5_links_keep_duplicates `{Platform} url hrefs links :
  page_links url hrefs = Some links →
  Forall2 (λ href link, urljoin url href = Some link)
          (candidates url hrefs) links ∧
  candidates url hrefs `sublist_of` hrefs ∧
  (∀ href, href ∈ candidates url hrefs → candidate url href = true) ∧
  (∀ href, candidate url href = true →
     occurrences href (candidates url hrefs) = occurrences href hrefs) ∧
  (∀ href link,
     candidate url href = true → urljoin url href = Some link →
     (occurrences href hrefs ≤ occurrences link links)%nat).
Proof.
  intros Hall%page_links_Some. split; [done|].
  split; [apply candidates_sublist|].
  split; [by intros href [_ Hc]%elem_of_candidates|].
  split; [intros href; apply (occurrences_candidates url hrefs href)|].
  intros href link Hc Hjoin.
  rewrite <-(occurrences_candidates url hrefs href) by done.
  by eapply occurrences_Forall2.
Qed.

Lemma C5_witness :
  let A := "http://x.com/" in
  let B := "http://x.com/b" in
  let C := "http://x.com/c" in
  let hrefs := ["/b"; "http://other.com/"; "/c"; "/b"] in
  @page_links (site []) A hrefs = Some [B; C; B] ∧
  candidates A hrefs = ["/b"; "/c"; "/b"] ∧
  Forall2 (λ href link, cpython_urljoin A href = Some link)
          (candidates A hrefs) [B; C; B] ∧
  candidates A hrefs `sublist_of` hrefs ∧
  (occurrences "/b" hrefs ≤ occurrences B [B; C; B])%nat.
Proof.
  intros A B C hrefs.
  assert (@page_links (site []) A hrefs = Some [B; C; B]) as Hlinks
    by (by vm_compute).
  split; [exact Hlinks|]. split; [by vm_compute|].
  destruct (@C5_links_keep_duplicates (site []) _ _ _ Hlinks)
    as (Hall & Hsub & _ & _ & Hocc).
  split; [exact Hall|]. split; [exact Hsub|].
  apply Hocc; by vm_compute.
Defined.

(** C6.  An href is a candidate exactly when it begins with [/] or with the
    url of the page as a string; the candidates of a page are the hrefs of
    its anchors that pass this test.  For the page at http://x.com the href
    http://other.com/page is not a candidate, and a page with only this
    anchor has no links. *)
Theorem C6_candidate_scope :
  (∀ url href,
      candidate url href = true ↔
      (∃ rest, href = "/" +:+ rest) ∨ (∃ rest, href = url +:+ rest)) ∧
  (∀ url hrefs href,
      href ∈ candidates url hrefs ↔
      href ∈ hrefs ∧ candidate url href = true) ∧
  candidate "http://x.com" "http://other.com/page" = false ∧
  (∀ P : Platform,
      page_links "http://x.com" ["http://other.com/page"] = Some []).
Proof.
  split; [apply candidate_spec|]. split; [apply elem_of_candidates|].
  split; [done|]. intros P. done.
Qed.

(** C7 (a candidate href that [urljoin] rejects ends the crawl).  The two
    examples of the claim resolve as it says.  But line 36 does not
    resolve every candidate: the href [//[] begins with [/], so it is a
    candidate, and [urljoin] raises [ValueError] for it.  The handler of
    line 46 catches [RequestException] only, so the exception leaves the
    call for the page, comes back out of [future.result()] at line 42 of
    every caller and leaves the call for the homepage: whenever a crawl
    that has accepted a page with such an href ends, it ends raising
    [ValueError].  On a site where A links to B and C, B has the href
    [//[] and C says hello, the crawl requests and accepts all three
    pages, prints nothing and raises; the match of C is lost and [main]
    writes no file. *)
Theorem C7_rejected_href_ends_the_crawl :
  let A := "http://x.com/" in
  let B := "http://x.com/b" in
  let C := "http://x.com/c" in
  (∀ check_bracketed_host checknetloc_nfkc,
      urllib_parse.urljoin check_bracketed_host checknetloc_nfkc
        "http://x.com/a/" "/b" = Some "http://x.com/b" ∧
      urllib_parse.urljoin check_bracketed_host checknetloc_nfkc
        "http://x.com/a/" "http://x.com/a/c" = Some "http://x.com/a/c") ∧
  (candidate B "//[" = true ∧ cpython_urljoin B "//[" = None) ∧
  (∀ (P : Platform) (Cf : CrawlConfig) homepage schedule σ f
     page response href,
      reaches homepage schedule σ f → finished f = true →
      page ∈ accepted σ → requests_get page = inr response →
      href ∈ a_href (soup response) → candidate page href = true →
      urljoin page href = None →
      f = Raised homepage ValueError) ∧
  (∃ σ,
      (@reaches inner_malformed_site (config "hello" 1) A
         malformed_one_by_one σ (Raised A ValueError)) ∧
      fetches σ = [A; B; C] ∧ accepted σ = [A; B; C] ∧
      @matches_at inner_malformed_site (config "hello" 1) C =
        [("hello", C)] ∧
      escapes σ = [(B, ValueError); (A, ValueError)] ∧
      stdout σ = [] ∧
      ∀ fs, @main inner_malformed_site (Namespace.mk A "hello" 1)
              malformed_one_by_one fs = Some (σ, fs, Some ValueError)).
Proof.
  intros A B C. split; [intros chk nfkc; split; by vm_compute|].
  split; [split; by vm_compute|]. split.
  - intros P Cf homepage schedule σ f page response href
      Hrun Hfin Hacc Hget Hin Hcand Hjoin.
    eapply reaches_rejected; [done..|]. left.
    unfold links_at. rewrite Hget. apply page_links_None.
    exists href. split; [|done]. by apply elem_of_candidates.
  - eexists. split; [by vm_compute|].
    split; [by vm_compute|]. split; [by vm_compute|].
    split; [by vm_compute|]. split; [by vm_compute|].
    split; [by vm_compute|]. intros fs. by vm_compute.
Qed.

Lemma C7_witness :
  let A := "http://x.com/" in
  let B := "http://x.com/b" in
  ∃ σ f,
    (@reaches inner_malformed_site (config "hello" 1) A
       malformed_one_by_one σ f) ∧
    finished f = true ∧ B ∈ accepted σ ∧
    @requests_get inner_malformed_site B =
      inr (mkResponse 200 (mkSoup "b" ["//["])) ∧
    f = Raised A ValueError.
Proof.
  intros A B. eexists _, _.
  split; [by vm_compute|]. split; [done|].
  split; [vm_compute; repeat constructor|]. split; [by vm_compute|].
  refine (proj1 (proj2 (proj2 C7_rejected_href_ends_the_crawl))
            inner_malformed_site (config "hello" 1) A malformed_one_by_one
            _ _ B (mkResponse 200 (mkSoup "b" ["//["])) "//["
            _ _ _ _ _ _ _);
    try (by vm_compute); vm_compute; repeat constructor.
Defined.

(** C8.  The test of line 33 succeeds exactly when the lower-cased query
    occurs in the lower-cased text, and then the result is the one pair
    (lower-cased query, url); otherwise there is no pair, so a page gives
    at most one.  The text "FOO bar" matches the queries "foo" and "FOO",
    both with the pair ("foo", url). *)
Theorem C8_case_insensitive_match :
  (∀ (P : Platform) query url all_text,
      (page_matches query url all_text = [(lower query, url)] ↔
       ∃ before after, lower all_text = before +:+ lower query +:+ after) ∧
      (page_matches query url all_text = [] ↔
       ¬ ∃ before after, lower all_text = before +:+ lower query +:+ after) ∧
      (length (page_matches query url all_text) ≤ 1)%nat) ∧
  (∀ url,
      @page_matches (site []) "foo" url "FOO bar" = [("foo", url)] ∧
      @page_matches (site []) "FOO" url "FOO bar" = [("foo", url)]).
Proof.
  split; [|done]. intros P query url all_text.
  rewrite <-contains_spec.
  destruct (page_matches_cases query url all_text) as [[-> ->]|[-> ->]];
    repeat split; try done; simpl; lia.
Qed.

(** C9.  No step takes a url out of [visited_urls].  At every point of a
    run, the url of every activation that has passed line 25 is in the set,
    whatever became of its request, and so is every url that
    [requests.get] was called with.  A url that is in the set stays there,
    so an activation that tests it later returns at line 24 without a
    request; and once nobody stands between the test and the request for
    it, the url is never requested again. *)
Theorem C9_visited_only_grows `{Platform} `{CrawlConfig}
    homepage schedule σ f :
  reaches homepage schedule σ f →
  (∀ a σ' f', step a σ f = Some (σ', f') → visited_urls σ ⊆ visited_urls σ') ∧
  (∀ g, g ∈ subframes f → past_add g = true → url_of g ∈ visited_urls σ) ∧
  (∀ url, url ∈ fetches σ → url ∈ visited_urls σ) ∧
  (∀ url later σ' f',
      url ∈ visited_urls σ → run later σ f = Some (σ', f') →
      url ∈ visited_urls σ' ∧
      tick σ' (crawl_page url) = Some (σ', Returned url [])) ∧
  (∀ url later σ' f',
      settled url σ f → run later σ f = Some (σ', f') →
      fetch_count url σ' = fetch_count url σ).
Proof.
  intros Hrun. split; [|split; [|split; [|split]]].
  - intros a σ' f'. apply step_visited.
  - by eapply (run_claimed_visited _ _ _ _ _ Hrun), claimed_visited_initial.
  - eapply (run_fetched_visited _ _ _ _ _ Hrun);
      [apply claimed_visited_initial | apply fetched_visited_initial].
  - intros url later σ' f' Hin Hlater.
    assert (url ∈ visited_urls σ') by (by eapply run_visited).
    split; [done|]. by apply tick_visited_test.
  - intros url later σ' f' Hsettled Hlater.
    by destruct (run_settled _ _ _ _ _ _ Hlater Hsettled).
Qed.

Lemma C9_witness :
  let A := "http://x.com/" in
  let B := "http://x.com/b" in
  let schedule := until_B_failed in
  let σ :=
    mkShared {[A; B]}
      [Requested A; Accepted A; Requested B; Printed B (HTTPError 500)] in
  let f := InPool A [] [Running (Returned B []); Pending "http://x.com/c"] in
  (@reaches faulty_site (config "hello" 1) A schedule σ f) ∧
  B ∈ visited_urls σ.
Proof.
  intros A B schedule σ f.
  assert (@reaches faulty_site (config "hello" 1) A schedule σ f) as Hrun
    by (by vm_compute).
  split; [exact Hrun|].
  apply (proj1 (proj2 (proj2 (@C9_visited_only_grows faulty_site
                                (config "hello" 1) A schedule σ f Hrun)))).
  by apply (list_elem_of_lookup_2 _ 1%nat).
Defined.

(** C10.  With the empty query, and [lower] mapping the empty string to
    itself, line 33 makes the pair ("", url) of every page.  The result of
    a run that returns is, in some order, one pair ("", url) for each
    response that [raise_for_status] let through. *)
Theorem C10_empty_query_matches_every_page `{Platform} `{CrawlConfig}
    homepage schedule σ url result :
  query = "" → lower "" = "" →
  reaches homepage schedule σ (Returned url result) →
  (∀ url all_text, page_matches query url all_text = [("", url)]) ∧
  result ≡ₚ (λ url, ("", url)) <$> accepted σ.
Proof.
  intros Hquery Hlower Hrun.
  assert (∀ u all_text, page_matches query u all_text = [("", u)]) as Hpage.
  { intros u all_text. unfold page_matches.
    by rewrite Hquery, Hlower, contains_empty. }
  split; [done|].
  destruct (reaches_Returned _ _ _ _ _ Hrun) as [_ ->]. unfold expected.
  pose proof (run_accepted _ _ _ _ _ Hrun (Forall_nil_2 _)) as Hok.
  induction Hok as [|u us Hu _ IH]; [done|].
  rewrite bind_cons, fmap_cons, IH. unfold matches_at.
  unfold fetch_error in Hu.
  destruct (requests_get u) as [detail|response]; [done|].
  by rewrite Hpage.
Qed.

Lemma C10_witness :
  let A := "http://x.com/" in
  let B := "http://x.com/b" in
  let schedule := twice_one_by_one in
  let σ :=
    mkShared {[A; B]} [Requested A; Accepted A; Requested B; Accepted B] in
  (@reaches twice_site (config "" 1) A schedule σ
     (Returned A [("", A); ("", B)])) ∧
  [("", A); ("", B)] ≡ₚ (λ url, ("", url)) <$> accepted σ.
Proof.
  intros A B schedule σ.
  assert (@reaches twice_site (config "" 1) A schedule σ
            (Returned A [("", A); ("", B)])) as Hrun by (by vm_compute).
  split; [exact Hrun|].
  exact (proj2 (@C10_empty_query_matches_every_page twice_site (config "" 1)
                  A schedule σ A _ eq_refl eq_refl Hrun)).
Defined.

(** * Further properties

    The rest of [crawl_page]: what a run requests, accepts, prints and
    returns; then [save_results_to_csv] and [main]. *)

(** ** The rows of the results file *)

Section csv_facts.
Import csv csv_read.

Lemma append_cons c (a b : string) : String c a +:+ b = String c (a +:+ b).
Proof. done. Qed.

Lemma append_nil_l (a : string) : "" +:+ a = a.
Proof. done. Qed.

Lemma append_assoc (a b c : string) : (a +:+ b) +:+ c = a +:+ (b +:+ c).
Proof.
  induction a as [|x a IH]; [done|]. rewrite !append_cons. by rewrite IH.
Qed.

Lemma append_nil_r (a : string) : a +:+ "" = a.
Proof.
  induction a as [|x a IH]; [done|]. rewrite append_cons. by rewrite IH.
Qed.

Lemma append_eq_nil (a b : string) : a +:+ b = "" → a = "" ∧ b = "".
Proof. destruct a; [done|]. by rewrite append_cons. Qed.

Lemma quotechar_special : special quotechar = true.
Proof. done. Qed.

Lemma needs_quotes_cons c field :
  needs_quotes (String c field) = special c || needs_quotes field.
Proof.
  unfold needs_quotes. simpl. destruct (special c); simpl; done.
Qed.

Lemma field_data_plain field :
  needs_quotes field = false → field_data field = field.
Proof.
  induction field as [|c field IH]; [done|].
  rewrite needs_quotes_cons. intros [Hc Hf]%orb_false_iff. simpl.
  destruct (Ascii.eqb_spec c quotechar) as [->|_]; [done|]. by rewrite IH.
Qed.

Lemma read_plain_app field c rest :
  needs_quotes field = false → special c = true →
  read_plain (field +:+ String c rest) = (field, String c rest).
Proof.
  intros Hf Hc. induction field as [|x field IH].
  - rewrite append_nil_l. simpl. by rewrite Hc.
  - rewrite needs_quotes_cons in Hf. apply orb_false_iff in Hf as [Hx Hf].
    rewrite append_cons. simpl. rewrite Hx, IH by done. done.
Qed.

Lemma read_quoted_app field c rest :
  Ascii.eqb c quotechar = false →
  read_quoted (field_data field +:+ String quotechar (String c rest)) =
  Some (field, String c rest).
Proof.
  intros Hc. induction field as [|x field IH].
  - simpl field_data. rewrite append_nil_l. simpl. by rewrite Hc.
  - simpl field_data. destruct (Ascii.eqb_spec x quotechar) as [->|Hx].
    + rewrite !append_cons. simpl. rewrite IH. done.
    + apply Ascii.eqb_neq in Hx. rewrite append_cons. simpl.
      rewrite Hx, IH. done.
Qed.

Lemma read_field_written field c rest :
  special c = true → Ascii.eqb c quotechar = false →
  read_field (written field +:+ String c rest) = Some (field, String c rest).
Proof.
  intros Hc Hq. unfold written.
  destruct (needs_quotes field) eqn:Hf.
  - rewrite append_cons, append_assoc, append_cons, append_nil_l. simpl.
    by apply read_quoted_app.
  - rewrite field_data_plain by done.
    destruct field as [|x field].
    + rewrite append_nil_l. simpl. by rewrite Hq, Hc.
    + rewrite needs_quotes_cons in Hf. apply orb_false_iff in Hf as [Hx Hf].
      rewrite append_cons.
      assert (Ascii.eqb x quotechar = false) as Hxq.
      { destruct (Ascii.eqb_spec x quotechar) as [->|_]; done. }
      unfold read_field. rewrite Hxq. rewrite <- append_cons.
      rewrite (read_plain_app (String x field)); [done| |done].
      rewrite needs_quotes_cons, Hx, Hf. done.
Qed.

Lemma writerow_pair text url :
  writerow [text; url] =
  written text +:+ String delimiter (written url +:+ lineterminator).
Proof.
  unfold writerow, join_append, written. simpl.
  rewrite bool_decide_eq_false_2.
  - simpl. rewrite !append_nil_l, !append_assoc. done.
  - intros [_ Hrec]. simpl in Hrec. rewrite !append_nil_l in Hrec.
    apply append_eq_nil in Hrec as [_ Hrec]. by rewrite append_cons in Hrec.
Qed.

Lemma read_pair_writerow text url rest :
  read_pair (writerow [text; url] +:+ rest) = Some ((text, url), rest).
Proof.
  rewrite writerow_pair, append_assoc, append_cons. unfold read_pair.
  rewrite read_field_written by done. simpl.
  rewrite append_assoc. unfold lineterminator. rewrite !append_cons.
  rewrite read_field_written by done. simpl. done.
Qed.

Lemma foldl_rows (results : list Match) file :
  foldl (λ file '(text, url), file +:+ writerow [text; url]) file results =
  file +:+ rows results.
Proof.
  revert file. induction results as [|[text url] results IH]; intros file;
    simpl.
  - by rewrite append_nil_r.
  - by rewrite IH, append_assoc.
Qed.

Lemma save_lookup results csv_file fs :
  save_results_to_csv results csv_file fs !! csv_file =
  Some (writerow ["Text"; "URL"] +:+ rows results).
Proof.
  unfold save_results_to_csv, files in *. cbv zeta.
  by rewrite lookup_insert_eq, foldl_rows, append_nil_l.
Qed.

Lemma append_inv_head (a b c : string) : a +:+ b = a +:+ c → b = c.
Proof. induction a as [|x a IH]; simpl; [done|]. intros [=]. auto. Qed.

Lemma rows_inj results1 results2 :
  rows results1 = rows results2 → results1 = results2.
Proof.
  revert results2.
  induction results1 as [|[t1 u1] results1 IH];
    intros [|[t2 u2] results2] Heq; simpl in Heq.
  - done.
  - pose proof (read_pair_writerow t2 u2 (rows results2)) as Hr.
    rewrite <- Heq in Hr. done.
  - pose proof (read_pair_writerow t1 u1 (rows results1)) as Hr.
    rewrite Heq in Hr. done.
  - pose proof (read_pair_writerow t1 u1 (rows results1)) as Hr.
    rewrite Heq, read_pair_writerow in Hr. simplify_eq.
    f_equal. by apply IH.
Qed.

End csv_facts.

(** ** How a step changes the tree *)

Section tree_facts.
Context `{!Platform} `{!CrawlConfig}.

Lemma subframes_root f : f ∈ subframes f.
Proof. rewrite subframes_unfold. by left. Qed.

Lemma subframes_child f i g x :
  futures_of f !! i = Some (Running g) → x ∈ subframes g →
  x ∈ futures_of f ≫= running subframes.
Proof.
  intros Hi Hx. by eapply (elem_of_bind_lookup (running subframes)).
Qed.

(** The activations of a tree one of whose futures has been replaced. *)
Lemma subframes_replaced f i y x :
  pooled f = true → is_Some (futures_of f !! i) →
  x ∈ running subframes y →
  x ∈ subframes (with_futures f (<[i := y]> (futures_of f))).
Proof.
  intros Hp [z Hi] Hx. rewrite subframes_with_futures, elem_of_cons by done.
  right. eapply (elem_of_bind_lookup (running subframes) _ i y); [|done].
  apply list_lookup_insert_eq. by eapply lookup_lt_Some.
Qed.

Lemma subframes_kept f i z y x :
  pooled f = true → futures_of f !! i = Some z →
  x ∈ futures_of f ≫= running subframes →
  x ∈ running subframes z ∨
  x ∈ subframes (with_futures f (<[i := y]> (futures_of f))).
Proof.
  intros Hp Hi Hx.
  pose proof (bind_insert_perm (running subframes) (futures_of f) i z y Hi)
    as Hperm.
  assert (x ∈ (futures_of f ≫= running subframes) ++ running subframes y)
    as Hx' by (apply elem_of_app; by left).
  rewrite <-Hperm in Hx'. apply elem_of_app in Hx' as [Hx'|Hx']; [|by left].
  right. rewrite subframes_with_futures, elem_of_cons by done. by right.
Qed.

Lemma all_done_frames futures x :
  forallb future_done futures = true →
  x ∈ futures ≫= running subframes → finished x = true.
Proof.
  intros Hall (y & Hx & Hy)%list_elem_of_bind.
  rewrite forallb_forall in Hall.
  apply list_elem_of_In, Hall in Hy. destruct y as [link|g|]; simpl in *;
    [done| |by apply elem_of_nil in Hx].
  rewrite (subframes_finished g Hy) in Hx.
  by apply list_elem_of_singleton in Hx as ->.
Qed.

Lemma all_done_Pending futures link :
  forallb future_done futures = true → Pending link ∉ futures.
Proof.
  intros Hall Hin. rewrite forallb_forall in Hall.
  by apply list_elem_of_In, Hall in Hin.
Qed.

Lemma all_Yielded_done futures :
  forallb is_Yielded futures = true → forallb future_done futures = true.
Proof.
  rewrite !forallb_forall. intros Hall x Hx. specialize (Hall x Hx).
  by destruct x.
Qed.

Lemma finished_futures_of f : finished f = true → futures_of f = [].
Proof. by destruct f. Qed.

Lemma finished_pooled f : finished f = true → pooled f = false.
Proof. by destruct f. Qed.

Lemma Pending_insert (futures : list (future frame)) i y link :
  Pending link ∈ futures → futures !! i ≠ Some (Pending link) →
  Pending link ∈ <[i := y]> futures.
Proof.
  intros (j & Hj)%list_elem_of_lookup Hi.
  apply (list_elem_of_lookup_2 _ j). rewrite list_lookup_insert_ne; [done|].
  intros ->. by rewrite Hj in Hi.
Qed.

(** Every change of the shared state is the move of one activation. *)
Lemma step_ticks a σ f σ' f' :
  step a σ f = Some (σ', f') →
  σ' = σ ∨ ∃ g g', g ∈ subframes f ∧ g' ∈ subframes f' ∧ ticks σ g σ' g'.
Proof.
  revert a σ f σ' f'.
  apply (step_path_ind (λ σ f σ' f',
    σ' = σ ∨ ∃ g g', g ∈ subframes f ∧ g' ∈ subframes f' ∧ ticks σ g σ' g')).
  - intros σ f σ' f' Ht%tick_ticks. right. exists f, f'.
    split; [apply subframes_root|]. split; [apply subframes_root|done].
  - intros. by left.
  - intros. by left.
  - intros σ σ' i f g g' Hp Hi [->|(x & x' & Hx & Hx' & Ht)]; [by left|].
    right. exists x, x'. split; [by eapply subframes_lookup|]. split; [|done].
    by apply subframes_replaced.
Qed.

(** An activation that is at work stays in the tree until it moves. *)
Lemma step_survives a σ f σ' f' x :
  step a σ f = Some (σ', f') →
  x ∈ subframes f → pooled x = false → finished x = false →
  x ∈ subframes f' ∨ ∃ x', ticks σ x σ' x' ∧ x' ∈ subframes f'.
Proof.
  intros Hstep. revert a σ f σ' f' Hstep x.
  apply (step_path_ind (λ σ f σ' f', ∀ x,
    x ∈ subframes f → pooled x = false → finished x = false →
    x ∈ subframes f' ∨ ∃ x', ticks σ x σ' x' ∧ x' ∈ subframes f')).
  - intros σ f σ' f' Ht%tick_ticks x Hx Hp Hf.
    rewrite subframes_unfold in Hx. apply elem_of_cons in Hx as [->|Hx].
    { right. exists f'. split; [done|apply subframes_root]. }
    destruct Ht as [url Hin|url Hout|url|url|url|url m fs Hall|url e fs Hall];
      simpl in Hx; try (by apply elem_of_nil in Hx).
    + rewrite all_Yielded_frames in Hx by done. by apply elem_of_nil in Hx.
    + by rewrite (all_done_frames _ _ Hall Hx) in Hf.
  - intros σ f f' (futures' & Hp & Hs & ->)%start_Some x Hx Hpx Hfx. left.
    rewrite subframes_unfold in Hx. apply elem_of_cons in Hx as [->|Hx];
      [congruence|].
    rewrite subframes_with_futures, elem_of_cons by done. right.
    destruct (start_first_perm _ _ Hs) as [link ->]. by right.
  - intros σ i f f' (u & m & fs & g & -> & Hi & Hf')%yield_Some x Hx Hpx Hfx.
    left. simpl in Hx. apply elem_of_cons in Hx as [->|Hx]; [done|].
    assert (finished g = true) as Hg.
    { destruct Hf' as [(r & -> & _)|(e & -> & _)]; done. }
    destruct (subframes_kept (InPool u m fs) i _ Yielded x eq_refl Hi Hx)
      as [Hx'|Hx'].
    + simpl in Hx'. rewrite (subframes_finished g Hg) in Hx'.
      apply list_elem_of_singleton in Hx' as ->. congruence.
    + simpl in Hx'. apply elem_of_cons in Hx' as [->|Hx']; [done|].
      destruct Hf' as [(r & _ & ->)|(e & _ & ->)]; simpl; by right.
  - intros σ σ' i f g g' Hp Hi IH x Hx Hpx Hfx.
    rewrite subframes_unfold in Hx. apply elem_of_cons in Hx as [->|Hx];
      [congruence|].
    destruct (subframes_kept f i _ (Running g') x Hp Hi Hx) as [Hx'|Hx'];
      [|by left].
    destruct (IH x Hx' Hpx Hfx) as [Hx''|(x' & Ht & Hx'')].
    + left. by apply subframes_replaced.
    + right. exists x'. split; [done|]. by apply subframes_replaced.
Qed.

(** A work item that waits for a worker stays in its pool until a worker
    starts it. *)
Lemma step_pending a σ f σ' f' p link :
  step a σ f = Some (σ', f') →
  p ∈ subframes f → Pending link ∈ futures_of p →
  (∃ p', p' ∈ subframes f' ∧ Pending link ∈ futures_of p') ∨
  AtTest link ∈ subframes f'.
Proof.
  intros Hstep. revert a σ f σ' f' Hstep p link.
  apply (step_path_ind (λ σ f σ' f', ∀ p link,
    p ∈ subframes f → Pending link ∈ futures_of p →
    (∃ p', p' ∈ subframes f' ∧ Pending link ∈ futures_of p') ∨
    AtTest link ∈ subframes f')).
  - intros σ f σ' f' Ht%tick_ticks p link Hp Hl.
    destruct Ht as [url Hin|url Hout|url|url|url|url m fs Hall|url e fs Hall];
      try (by apply list_elem_of_singleton in Hp as ->;
           apply elem_of_nil in Hl).
    + simpl in Hp. rewrite all_Yielded_frames in Hp by done.
      apply list_elem_of_singleton in Hp as ->. simpl in Hl.
      by apply all_done_Pending in Hl; [|apply all_Yielded_done].
    + simpl in Hp. apply elem_of_cons in Hp as [->|Hp].
      * by apply all_done_Pending in Hl.
      * rewrite finished_futures_of in Hl by (by eapply all_done_frames).
        by apply elem_of_nil in Hl.
  - intros σ f f' (futures' & Hp & Hs & ->)%start_Some p link Hin Hl.
    rewrite subframes_unfold in Hin. apply elem_of_cons in Hin as [->|Hin].
    + apply start_first_insert in Hs as (i & l & Hi & ->).
      destruct (decide (l = link)) as [->|Hne].
      * right. apply subframes_replaced; [done..|]. apply subframes_root.
      * left. eexists. split; [apply subframes_root|].
        rewrite futures_of_with_futures by done.
        apply Pending_insert; [done|]. rewrite Hi. congruence.
    + left. exists p. split; [|done].
      rewrite subframes_with_futures, elem_of_cons by done. right.
      destruct (start_first_perm _ _ Hs) as [l ->]. by right.
  - intros σ i f f' (u & m & fs & g & -> & Hi & Hf')%yield_Some p link
      Hin Hl.
    left.
    assert (finished g = true) as Hg.
    { destruct Hf' as [(r & -> & _)|(e & -> & _)]; done. }
    assert (futures_of f' = <[i := Yielded]> fs ∧
            ∀ x, x ∈ subframes (InPool u m (<[i := Yielded]> fs)) →
                 x = InPool u m (<[i := Yielded]> fs) ∨ x ∈ subframes f')
      as [Hfs Hsub].
    { destruct Hf' as [(r & _ & ->)|(e & _ & ->)]; simpl; split; try done.
      - intros x [->|Hx]%elem_of_cons; [by left|]. right. by right.
      - intros x [->|Hx]%elem_of_cons; [by left|]. right. by right. }
    simpl in Hin. apply elem_of_cons in Hin as [->|Hin].
    + exists f'. split; [apply subframes_root|]. rewrite Hfs.
      apply Pending_insert; [done|]. by rewrite Hi.
    + destruct (subframes_kept (InPool u m fs) i _ Yielded p eq_refl Hi Hin)
        as [Hp'|Hp'].
      * simpl in Hp'. rewrite (subframes_finished g Hg) in Hp'.
        apply list_elem_of_singleton in Hp' as ->.
        rewrite finished_futures_of in Hl by done.
        by apply elem_of_nil in Hl.
      * apply Hsub in Hp' as [->|Hp']; [|by exists p].
        simpl in Hl. exists f'. split; [apply subframes_root|].
        by rewrite Hfs.
  - intros σ σ' i f g g' Hp Hi IH p link Hin Hl.
    rewrite subframes_unfold in Hin. apply elem_of_cons in Hin as [->|Hin].
    + left. eexists. split; [apply subframes_root|].
      rewrite futures_of_with_futures by done.
      apply Pending_insert; [done|]. by rewrite Hi.
    + destruct (subframes_kept f i _ (Running g') p Hp Hi Hin) as [Hp'|Hp'];
        [|left; by exists p].
      destruct (IH p link Hp' Hl) as [(p' & Hp'' & Hl')|Hx].
      * left. exists p'. split; [|done]. by apply subframes_replaced.
      * right. by apply subframes_replaced.
Qed.

End tree_facts.

Section provenance.
Context `{!Platform} `{!CrawlConfig}.

(** Where the activations of the tree after a step come from. *)
Lemma step_provenance a σ f σ' f' g' :
  step a σ f = Some (σ', f') → g' ∈ subframes f' →
  g' ∈ subframes f ∨
  (∃ g, g ∈ subframes f ∧ ticks σ g σ' g') ∨
  (∃ p link, p ∈ subframes f ∧ Pending link ∈ futures_of p ∧
             g' = AtTest link) ∨
  (∃ g, g ∈ subframes f ∧ pooled g = true ∧ pooled g' = true ∧
        url_of g' = url_of g ∧
        (∀ link, Pending link ∈ futures_of g' → Pending link ∈ futures_of g) ∧
        (raising g' = true → dirty f)).
Proof.
  intros Hstep. revert a σ f σ' f' Hstep g'.
  apply (step_path_ind (λ σ f σ' f', ∀ g', g' ∈ subframes f' →
    g' ∈ subframes f ∨
    (∃ g, g ∈ subframes f ∧ ticks σ g σ' g') ∨
    (∃ p link, p ∈ subframes f ∧ Pending link ∈ futures_of p ∧
               g' = AtTest link) ∨
    (∃ g, g ∈ subframes f ∧ pooled g = true ∧ pooled g' = true ∧
          url_of g' = url_of g ∧
          (∀ link, Pending link ∈ futures_of g' →
                   Pending link ∈ futures_of g) ∧
          (raising g' = true → dirty f)))).
  - intros σ f σ' f' Ht%tick_ticks g'.
    rewrite (ticks_subframes _ _ _ _ Ht), list_elem_of_singleton.
    intros ->. right. left. exists f. split; [apply subframes_root|done].
  - intros σ f f' (futures' & Hp & Hs & ->)%start_Some g' Hg'.
    apply start_first_insert in Hs as (i & l & Hi & ->).
    rewrite subframes_with_futures, elem_of_cons in Hg' by done.
    destruct Hg' as [->|Hg'].
    + do 3 right. exists f. split; [apply subframes_root|].
      rewrite pooled_with_futures, url_of_with_futures,
        raising_with_futures, futures_of_with_futures by done.
      repeat split; try done.
      * by intros link [?|?]%elem_of_insert_inv.
      * apply dirty_root.
    + eapply elem_of_bind_insert in Hg' as [Hg'|Hg']; [| |done].
      * apply list_elem_of_singleton in Hg' as ->. right. right. left.
        exists f, l. split; [apply subframes_root|]. split; [|done].
        by eapply list_elem_of_lookup_2.
      * left. rewrite subframes_unfold. by right.
  - intros σ i f f' (u & m & fs & g & -> & Hi & Hf')%yield_Some g' Hg'.
    assert (g ∈ subframes (InPool u m fs)) as Hg.
    { simpl. right. eapply (elem_of_bind_lookup (running subframes));
        [done|]. apply subframes_root. }
    assert (g' = f' ∨ g' ∈ <[i := Yielded]> fs ≫= running subframes)
      as [->|Hold].
    { destruct Hf' as [(r & _ & ->)|(e & _ & ->)]; simpl in Hg';
        apply elem_of_cons in Hg' as [->|Hg']; auto. }
    + do 3 right. exists (InPool u m fs). split; [apply subframes_root|].
      destruct Hf' as [(r & Hr & ->)|(e & He & ->)]; simpl;
        repeat split; try done;
        try (by intros link [?|?]%elem_of_insert_inv).
      intros _. exists g. split; [done|]. by rewrite He.
    + eapply elem_of_bind_insert in Hold as [Hold|Hold]; [| |done].
      * by apply elem_of_nil in Hold.
      * left. simpl. by right.
  - intros σ σ' i f g g' Hp Hi IH x Hx.
    eapply subframes_insert in Hx as [->|[Hx|Hx]]; [| | |done..].
    + do 3 right. exists f. split; [apply subframes_root|].
      rewrite pooled_with_futures, url_of_with_futures,
        raising_with_futures, futures_of_with_futures by done.
      repeat split; try done.
      * by intros link [?|?]%elem_of_insert_inv.
      * apply dirty_root.
    + destruct (IH x Hx)
        as [Hold|[(y & Hy & Ht)|[(p & l & Hp' & Hl & ->)|
             (y & Hy & Hpy & Hpx & Hu & Hl & Hr)]]].
      * left. by eapply subframes_lookup.
      * right. left. exists y. split; [by eapply subframes_lookup|done].
      * right. right. left. exists p, l.
        split; [by eapply subframes_lookup|done].
      * do 3 right. exists y. split; [by eapply subframes_lookup|].
        repeat split; try done.
        intros (z & Hz & Hrz)%Hr. exists z.
        split; [by eapply subframes_lookup|done].
    + left. rewrite subframes_unfold. by right.
Qed.

End provenance.

(** ** Requests and their answers *)

Section accounting.
Context `{!Platform} `{!CrawlConfig}.

Lemma Permutation_exchange {A} (req G acc G' O N : list A) :
  req ++ G ≡ₚ acc ++ G' → N ++ G ≡ₚ O ++ G' → req ++ O ≡ₚ acc ++ N.
Proof.
  intros H1 H2. apply (Permutation_app_inv_r (G' ++ G)).
  transitivity ((req ++ G) ++ (O ++ G')); [solve_Permutation|].
  rewrite H1, <-H2. solve_Permutation.
Qed.

Lemma bind_running {B} (F : frame → list B) (futures : list (future frame)) :
  (futures ≫= running subframes) ≫= F =
  futures ≫= λ x, running subframes x ≫= F.
Proof.
  induction futures as [|x futures IH]; [done|].
  by rewrite !bind_cons, bind_app, IH.
Qed.

Lemma awaited_unfold f :
  awaited f =
  awaits f ++ (futures_of f ≫= λ x, running subframes x ≫= awaits).
Proof.
  unfold awaited. by rewrite subframes_unfold, bind_cons, bind_running.
Qed.

Lemma awaited_leaf f : subframes f = [f] → awaited f = awaits f.
Proof. unfold awaited. intros ->. simpl. by rewrite app_nil_r. Qed.

Lemma awaits_finished f : finished f = true → awaits f = [].
Proof. by destruct f. Qed.

Lemma awaits_pooled f : pooled f = true → awaits f = [].
Proof. by destruct f. Qed.

Lemma awaits_with_futures f futures :
  awaits (with_futures f futures) = awaits f.
Proof. by destruct f. Qed.

Lemma all_done_awaited futures :
  forallb future_done futures = true →
  (futures ≫= λ x, running subframes x ≫= awaits) = [].
Proof.
  intros Hall. rewrite <-bind_running.
  induction (futures ≫= running subframes) as [|g gs IH] eqn:Hgs; [done|].
  assert (∀ x, x ∈ g :: gs → awaits x = []) as Hnone.
  { intros x Hx. apply awaits_finished.
    eapply all_done_frames; [done|]. by rewrite Hgs. }
  clear Hgs IH. induction gs as [|y gs IH] in g, Hnone |- *.
  - rewrite bind_cons, (Hnone g) by (by left). done.
  - rewrite bind_cons, (Hnone g) by (by left). simpl. apply IH.
    intros x Hx. apply Hnone. by right.
Qed.

Lemma stdout_log ev σ :
  stdout (log ev σ) =
  stdout σ ++ match ev with Printed u e => [(u, e)] | _ => [] end.
Proof.
  unfold stdout, log. simpl. rewrite omap_app. f_equal.
  by destruct ev.
Qed.

(** What a move does to the requests, the responses and the output. *)
Lemma ticks_accounting σ f σ' f' :
  ticks σ f σ' f' → uncaught_only f →
  ∃ req acc pr,
    fetches σ' = fetches σ ++ req ∧ accepted σ' = accepted σ ++ acc ∧
    stdout σ' = stdout σ ++ pr ∧
    req ++ awaited f ≡ₚ acc ++ pr.*1 ++ awaited f' ∧
    Forall (λ line, fetch_error line.1 = Some line.2) pr.
Proof.
  intros Ht Hf. pose proof (ticks_subframes _ _ _ _ Ht) as Hleaf.
  destruct Ht as [url Hin|url Hout|url|url|url|url m fs Hall|url e fs Hall].
  - exists [], [], []. rewrite !app_nil_r. by repeat split.
  - exists [], [], []. rewrite !app_nil_r. by repeat split.
  - exists [], [], []. rewrite !app_nil_r. by repeat split.
  - exists [url], [], []. rewrite fetches_log, accepted_log, stdout_log,
      !app_nil_r. by repeat split.
  - destruct (receive_cases σ url)
      as [(e & He & _ & Hr)|[(_ & _ & Hr)|(links & _ & _ & _ & Hr)]];
      rewrite Hr in Hleaf |- *; cbn [fst snd] in *.
    + exists [], [], [(url, e)].
      rewrite fetches_log, accepted_log, stdout_log, !app_nil_r.
      repeat split; try done. by constructor.
    + exists [], [url], [].
      rewrite !fetches_log, !accepted_log, !stdout_log, !app_nil_r.
      by repeat split.
    + exists [], [url], [].
      rewrite !fetches_log, !accepted_log, !stdout_log, !app_nil_r.
      repeat split; try done.
      rewrite (awaited_leaf _ Hleaf). done.
  - exists [], [], []. rewrite !app_nil_r. repeat split; try done.
    rewrite awaited_unfold. simpl.
    by rewrite all_done_awaited by (by apply all_Yielded_done).
  - assert (is_RequestException e = false) as He.
    { apply (Hf (Unwinding url e fs)); [apply subframes_root|done]. }
    destruct (handle_cases σ url e) as [[? _]|[_ Hh]]; [congruence|].
    rewrite Hh. cbn [fst snd].
    exists [], [], [].
    rewrite fetches_log, accepted_log, stdout_log, !app_nil_r.
    repeat split; try done.
    rewrite awaited_unfold. simpl. by rewrite all_done_awaited.
Qed.

Lemma step_accounting a σ f σ' f' :
  step a σ f = Some (σ', f') → uncaught_only f →
  ∃ req acc pr,
    fetches σ' = fetches σ ++ req ∧ accepted σ' = accepted σ ++ acc ∧
    stdout σ' = stdout σ ++ pr ∧
    req ++ awaited f ≡ₚ acc ++ pr.*1 ++ awaited f' ∧
    Forall (λ line, fetch_error line.1 = Some line.2) pr.
Proof.
  revert a σ f σ' f'.
  apply (step_path_ind (λ σ f σ' f',
    uncaught_only f →
    ∃ req acc pr,
      fetches σ' = fetches σ ++ req ∧ accepted σ' = accepted σ ++ acc ∧
      stdout σ' = stdout σ ++ pr ∧
      req ++ awaited f ≡ₚ acc ++ pr.*1 ++ awaited f' ∧
      Forall (λ line, fetch_error line.1 = Some line.2) pr)).
  - intros σ f σ' f' Ht%tick_ticks. by apply ticks_accounting.
  - intros σ f f' (futures' & Hp & Hs & ->)%start_Some _.
    exists [], [], []. rewrite !app_nil_r. repeat split; try done. simpl.
    unfold awaited. rewrite (subframes_unfold f),
      subframes_with_futures by done.
    destruct (start_first_perm _ _ Hs) as [link ->].
    rewrite !bind_cons, awaits_with_futures. done.
  - intros σ i f f' (u & m & fs & g & -> & Hi & Hf')%yield_Some _.
    exists [], [], []. rewrite !app_nil_r. repeat split; try done. simpl.
    assert (awaited f' =
            <[i := Yielded]> fs ≫= λ x, running subframes x ≫= awaits)
      as ->.
    { destruct Hf' as [(r & _ & ->)|(e & _ & ->)];
        by rewrite awaited_unfold. }
    rewrite awaited_unfold. simpl.
    pose proof (bind_insert_perm (λ x, running subframes x ≫= awaits)
                  fs i _ Yielded Hi) as Hperm.
    simpl in Hperm. rewrite app_nil_r in Hperm. rewrite <-Hperm.
    assert (subframes g ≫= awaits = []) as ->; [|by rewrite app_nil_r].
    assert (finished g = true) as Hg.
    { destruct Hf' as [(r & -> & _)|(e & -> & _)]; done. }
    rewrite (subframes_finished g Hg). simpl.
    by rewrite awaits_finished.
  - intros σ σ' i f g g' Hp Hi IH Hf.
    destruct IH as (req & acc & pr & Hreq & Hacc & Hpr & Hperm & Herr).
    { intros y e Hy. apply Hf. by eapply subframes_lookup. }
    exists req, acc, pr. repeat split; try done.
    rewrite !awaited_unfold, awaits_with_futures,
      futures_of_with_futures by done.
    rewrite awaits_pooled by done. simpl.
    pose proof (bind_insert_perm (λ x, running subframes x ≫= awaits)
                  (futures_of f) i _ (Running g') Hi) as Hins.
    simpl in Hins. fold (awaited g) (awaited g') in Hins.
    rewrite (assoc_L (++)).
    eapply Permutation_exchange; [|exact Hins]. by rewrite <-(assoc_L (++)).
Qed.

Lemma run_accounting schedule σ f σ' f' :
  run schedule σ f = Some (σ', f') → uncaught_only f →
  fetches σ ≡ₚ accepted σ ++ printed σ ++ awaited f →
  Forall (λ line, fetch_error line.1 = Some line.2) (stdout σ) →
  fetches σ' ≡ₚ accepted σ' ++ printed σ' ++ awaited f' ∧
  Forall (λ line, fetch_error line.1 = Some line.2) (stdout σ').
Proof.
  revert schedule σ f σ' f'.
  apply (run_ind (λ σ f σ' f',
    uncaught_only f →
    fetches σ ≡ₚ accepted σ ++ printed σ ++ awaited f →
    Forall (λ line, fetch_error line.1 = Some line.2) (stdout σ) →
    fetches σ' ≡ₚ accepted σ' ++ printed σ' ++ awaited f' ∧
    Forall (λ line, fetch_error line.1 = Some line.2) (stdout σ'))).
  - done.
  - intros a σ f σ1 f1 σ2 f2 Hstep IH Hf Hperm Herr.
    destruct (step_accounting _ _ _ _ _ Hstep Hf)
      as (req & acc & pr & Hreq & Hacc & Hpr & Hp1 & He1).
    apply IH.
    + by eapply step_uncaught_only.
    + unfold printed in *. rewrite Hreq, Hacc, Hpr, fmap_app, Hperm.
      transitivity ((accepted σ ++ (stdout σ).*1) ++ (req ++ awaited f));
        [solve_Permutation|].
      rewrite Hp1. solve_Permutation.
    + rewrite Hpr. by apply Forall_app.
Qed.

Lemma uncaught_only_initial homepage : uncaught_only (AtTest homepage).
Proof. by intros g e ->%list_elem_of_singleton. Qed.

Lemma reaches_accounting homepage schedule σ f :
  reaches homepage schedule σ f →
  fetches σ ≡ₚ accepted σ ++ printed σ ++ awaited f ∧
  Forall (λ line, fetch_error line.1 = Some line.2) (stdout σ).
Proof.
  intros Hrun.
  eapply run_accounting; [done|apply uncaught_only_initial|done|done].
Qed.

End accounting.

(** ** The urls a run reaches *)

Section reach_facts.
Context `{!Platform} `{!CrawlConfig}.

(** A url enters the set by the move of an activation from line 25 to
    line 27. *)
Lemma step_visited_new a σ f σ' f' url :
  step a σ f = Some (σ', f') → url ∈ visited_urls σ' →
  url ∈ visited_urls σ ∨
  (AtAdd url ∈ subframes f ∧ AtGet url ∈ subframes f').
Proof.
  intros Hstep Hin.
  destruct (step_ticks _ _ _ _ _ Hstep) as [->|(g & g' & Hg & Hg' & Ht)];
    [by left|].
  destruct Ht as [u ?|u ?|u|u|u|u m fs Hall|u e fs Hall]; try (by left).
  - simpl in Hin. apply elem_of_union in Hin as [Hin|Hin]; [|by left].
    apply elem_of_singleton in Hin as ->. by right.
  - rewrite receive_visited in Hin. by left.
  - rewrite handle_visited in Hin. by left.
Qed.

(** A response is accepted by the move of the activation that waited for
    it, which raises or goes on to its pool. *)
Lemma step_accepted_new a σ f σ' f' url :
  step a σ f = Some (σ', f') → url ∈ accepted σ' →
  url ∈ accepted σ ∨
  (InGet url ∈ subframes f ∧
   ((links_at url = None ∨ max_threads ≤ 0) ∧
    Raised url ValueError ∈ subframes f' ∨
    ∃ links, links_at url = Some links ∧ 0 < max_threads ∧
             InPool url (matches_at url) (Pending <$> links) ∈ subframes f')).
Proof.
  intros Hstep Hin.
  destruct (step_ticks _ _ _ _ _ Hstep) as [->|(g & g' & Hg & Hg' & Ht)];
    [by left|].
  destruct Ht as [u ?|u ?|u|u|u|u m fs Hall|u e fs Hall]; try (by left).
  - rewrite accepted_log, app_nil_r in Hin. by left.
  - destruct (receive_cases σ u)
      as [(e & _ & _ & Hr)|[(_ & Hwhy & Hr)|(links & _ & Hl & Hpos & Hr)]];
      rewrite Hr in Hin, Hg'; cbn [fst snd] in *.
    + rewrite accepted_log, app_nil_r in Hin. by left.
    + rewrite !accepted_log, app_nil_r in Hin.
      apply elem_of_app in Hin as [Hin| ->%list_elem_of_singleton];
        [by left|].
      right. split; [done|]. by left.
    + rewrite accepted_log in Hin.
      apply elem_of_app in Hin as [Hin| ->%list_elem_of_singleton];
        [by left|].
      right. split; [done|]. right. by exists links.
  - destruct (handle_cases σ u e) as [[_ Hh]|[_ Hh]]; rewrite Hh in Hin;
      cbn [fst] in Hin; rewrite accepted_log, app_nil_r in Hin; by left.
Qed.

Lemma step_accepted_mono a σ f σ' f' url :
  step a σ f = Some (σ', f') → url ∈ accepted σ → url ∈ accepted σ'.
Proof.
  intros Hstep Hin.
  destruct (step_held _ _ _ _ _ Hstep) as (acc & esc & -> & _).
  apply elem_of_app. by left.
Qed.

Lemma step_fetches_mono a σ f σ' f' url :
  step a σ f = Some (σ', f') → url ∈ fetches σ → url ∈ fetches σ'.
Proof.
  intros Hstep Hin.
  destruct (step_fetches _ _ _ _ _ Hstep) as (new & -> & _).
  apply elem_of_app. by left.
Qed.

(** ** An exception has a cause *)

Lemma cause_mono a σ f σ' f' :
  step a σ f = Some (σ', f') → cause σ → cause σ'.
Proof.
  intros Hstep (url & Hin & Hwhy). exists url.
  split; [by eapply step_accepted_mono|done].
Qed.

Lemma step_cause a σ f σ' f' :
  step a σ f = Some (σ', f') →
  (dirty f → cause σ) → dirty f' → cause σ'.
Proof.
  intros Hstep Hinv (g' & Hg' & Hr).
  destruct (step_provenance _ _ _ _ _ _ Hstep Hg')
    as [Hold|[(g & Hg & Ht)|[(p & l & _ & _ & ->)|
         (g & Hg & _ & _ & _ & _ & Hd)]]]; [| |done|].
  - eapply cause_mono; [done|]. apply Hinv. by exists g'.
  - destruct Ht as [u ?|u ?|u|u|u|u m fs Hall|u e fs Hall]; try done.
    + destruct (receive_cases σ u)
        as [(e & _ & _ & Hrec)|[(_ & Hwhy & Hrec)|(links & _ & _ & _ & Hrec)]];
        rewrite Hrec in Hr |- *; cbn [fst snd] in *; try done.
      exists u. split; [|done].
      rewrite !accepted_log, app_nil_r. apply elem_of_app. right. by left.
    + eapply cause_mono; [done|]. apply Hinv.
      exists (Unwinding u e fs). by split.
  - eapply cause_mono; [done|]. by apply Hinv, Hd.
Qed.

Lemma run_cause schedule σ f σ' f' :
  run schedule σ f = Some (σ', f') →
  (dirty f → cause σ) → dirty f' → cause σ'.
Proof.
  revert schedule σ f σ' f'.
  apply (run_ind (λ σ f σ' f',
    (dirty f → cause σ) → dirty f' → cause σ')); [done|].
  intros a σ f σ1 f1 σ2 f2 Hstep IH Hinv. apply IH.
  by eapply step_cause.
Qed.

(** ** Every url can be reached from the homepage *)

Lemma step_all_reachable homepage a σ f σ' f' :
  step a σ f = Some (σ', f') →
  all_reachable homepage σ f → all_reachable homepage σ' f'.
Proof.
  intros Hstep [Htree Hset]. split.
  - intros g' Hg'.
    destruct (step_provenance _ _ _ _ _ _ Hstep Hg')
      as [Hold|[(g & Hg & Ht)|[(p & l & Hp & Hl & ->)|
           (g & Hg & _ & _ & Hu & Hl & _)]]].
    + by apply Htree.
    + rewrite (ticks_url_of _ _ _ _ Ht). destruct (Htree g Hg) as [Hu _].
      split; [done|]. intros link Hlink.
      destruct Ht as [u ?|u ?|u|u|u|u m fs Hall|u e fs Hall];
        try (by apply elem_of_nil in Hlink).
      * destruct (receive_cases σ u)
          as [(e & _ & _ & Hrec)|[(_ & _ & Hrec)|
               (links & Hok & Hlinks & _ & Hrec)]];
          rewrite Hrec in Hlink; cbn [fst snd] in *;
          try (by apply elem_of_nil in Hlink).
        simpl in Hlink.
        apply list_elem_of_fmap in Hlink as (l & [= <-] & Hl).
        by eapply reachable_link.
      * destruct (handle_cases σ u e) as [[_ Hh]|[_ Hh]];
          rewrite Hh in Hlink; by apply elem_of_nil in Hlink.
    + destruct (Htree p Hp) as [_ Hreach]. simpl.
      split; [by apply Hreach|]. by intros link ?%elem_of_nil.
    + destruct (Htree g Hg) as [Hfu Hfl]. rewrite Hu.
      split; [done|]. intros link Hlink. by apply Hfl, Hl.
  - intros url Hin.
    destruct (step_visited_new _ _ _ _ _ _ Hstep Hin) as [Hold|[Hadd _]].
    + by apply Hset.
    + by destruct (Htree _ Hadd) as [Hu _].
Qed.

Lemma run_all_reachable homepage schedule σ f σ' f' :
  run schedule σ f = Some (σ', f') →
  all_reachable homepage σ f → all_reachable homepage σ' f'.
Proof.
  revert schedule σ f σ' f'.
  apply (run_ind (λ σ f σ' f',
    all_reachable homepage σ f → all_reachable homepage σ' f')); [done|].
  intros a σ f σ1 f1 σ2 f2 Hstep IH Hinv. apply IH.
  by eapply step_all_reachable.
Qed.

Lemma all_reachable_initial homepage :
  all_reachable homepage initial (AtTest homepage).
Proof.
  split.
  - intros g ->%list_elem_of_singleton. split; [constructor|].
    by intros link ?%elem_of_nil.
  - intros url Hin. simpl in Hin. set_solver.
Qed.

(** ** Every url of the set was requested or is about to be *)

Lemma step_visited_fetched a σ f σ' f' :
  step a σ f = Some (σ', f') →
  visited_fetched σ f → visited_fetched σ' f'.
Proof.
  intros Hstep Hinv url Hin.
  destruct (step_visited_new _ _ _ _ _ _ Hstep Hin) as [Hold|[_ Hget]];
    [|by right].
  destruct (Hinv url Hold) as [Hf|Hget]; [left; by eapply step_fetches_mono|].
  destruct (step_survives _ _ _ _ _ _ Hstep Hget eq_refl eq_refl)
    as [Hstay|(x' & Ht & Hx')]; [by right|].
  left. inversion Ht; subst. rewrite fetches_log.
  apply elem_of_app. right. by left.
Qed.

Lemma run_visited_fetched schedule σ f σ' f' :
  run schedule σ f = Some (σ', f') →
  visited_fetched σ f → visited_fetched σ' f'.
Proof.
  revert schedule σ f σ' f'.
  apply (run_ind (λ σ f σ' f',
    visited_fetched σ f → visited_fetched σ' f')); [done|].
  intros a σ f σ1 f1 σ2 f2 Hstep IH Hinv. apply IH.
  by eapply step_visited_fetched.
Qed.

(** ** The links of an accepted page are taken care of *)

Lemma step_covered a σ f σ' f' link :
  step a σ f = Some (σ', f') → covered σ f link → covered σ' f' link.
Proof.
  intros Hstep [Hin|(g & Hg & [Hl|[->| ->]])].
  - left. by eapply step_visited.
  - destruct (step_pending _ _ _ _ _ _ _ Hstep Hg Hl)
      as [(p' & Hp' & Hl')|Htest].
    + right. exists p'. auto.
    + right. exists (AtTest link). auto.
  - destruct (step_survives _ _ _ _ _ _ Hstep Hg eq_refl eq_refl)
      as [Hstay|(x' & Ht & Hx')].
    + right. exists (AtTest link). auto.
    + inversion Ht; subst.
      * by left.
      * right. exists (AtAdd link). auto.
  - destruct (step_survives _ _ _ _ _ _ Hstep Hg eq_refl eq_refl)
      as [Hstay|(x' & Ht & Hx')].
    + right. exists (AtAdd link). auto.
    + inversion Ht; subst. left. simpl. set_solver.
Qed.

Lemma step_all_covered a σ f σ' f' :
  0 < max_threads →
  step a σ f = Some (σ', f') → all_covered σ f → all_covered σ' f'.
Proof.
  intros Hpos Hstep Hinv page links link Hin Hlinks Hlink.
  destruct (step_accepted_new _ _ _ _ _ _ Hstep Hin)
    as [Hold|(_ & [[[Hnone|Hneg] _]|(links' & Hl' & _ & Hpool)])].
  - eapply step_covered; [done|]. by eapply Hinv.
  - congruence.
  - lia.
  - right. eexists. split; [exact Hpool|]. left. simpl.
    apply list_elem_of_fmap. exists link. split; [done|]. congruence.
Qed.

Lemma run_all_covered schedule σ f σ' f' :
  0 < max_threads →
  run schedule σ f = Some (σ', f') → all_covered σ f → all_covered σ' f'.
Proof.
  intros Hpos. revert schedule σ f σ' f'.
  apply (run_ind (λ σ f σ' f', all_covered σ f → all_covered σ' f'));
    [done|].
  intros a σ f σ1 f1 σ2 f2 Hstep IH Hinv. apply IH.
  by eapply step_all_covered.
Qed.

End reach_facts.

(** ** Requests in flight, the end of a run, the first request *)

Section in_flight_facts.
Context `{!Platform} `{!CrawlConfig}.

Lemma sum_futures_cons (w : frame → nat) x futures :
  sum_futures w (x :: futures) =
  (match x with Running g => w g | _ => O end + sum_futures w futures)%nat.
Proof. done. Qed.

Lemma sum_futures_nil (w : frame → nat) : sum_futures w [] = O.
Proof. done. Qed.

Lemma busy_cons x futures :
  busy (x :: futures) = ((if is_busy x then 1 else 0) + busy futures)%nat.
Proof. unfold busy. simpl. by destruct (is_busy x). Qed.

(** What the activations of a pool weigh together: each one that is at
    work may weigh one more than its share. *)
Lemma sum_futures_le (w e : frame → nat) (futures : list (future frame)) :
  (∀ i g, futures !! i = Some (Running g) →
          (w g ≤ (if finished g then 0 else 1) + e g)%nat) →
  (sum_futures w futures ≤ busy futures + sum_futures e futures)%nat.
Proof.
  induction futures as [|x futures IH]; intros Hall; [done|].
  rewrite !sum_futures_cons, busy_cons.
  specialize (IH (λ i g Hi, Hall (S i) g Hi)).
  destruct x as [link|g|]; simpl; try lia.
  specialize (Hall O g eq_refl). destruct (finished g); simpl in *; lia.
Qed.

Lemma in_flight_finished f : finished f = true → in_flight f = O.
Proof. by destruct f. Qed.

Lemma pools_unpooled f : pooled f = false → pools f = O.
Proof. by destruct f. Qed.

(** The requests in flight, against the pools that exist. *)
Lemma in_flight_pools f :
  bounded f →
  (in_flight f ≤
   (if pooled f || finished f then 0 else 1) +
   Z.to_nat max_threads * pools f)%nat.
Proof.
  induction f as [url|url|url|url|url m fs IH|url e fs IH|url r|url e];
    intros Hb; simpl; try lia.
  - pose proof (bounded_root _ Hb eq_refl) as Hbusy. simpl in Hbusy.
    pose proof (sum_futures_le in_flight
                  (λ g, (Z.to_nat max_threads * pools g)%nat) fs) as Hsum.
    assert (sum_futures (λ g, (Z.to_nat max_threads * pools g)%nat) fs =
            (Z.to_nat max_threads * sum_futures pools fs)%nat) as Hmul.
    { clear. induction fs as [|x fs IH]; [rewrite !sum_futures_nil; lia|].
      rewrite !sum_futures_cons, IH. destruct x; lia. }
    rewrite Hmul in Hsum. etrans; [apply Hsum|]; [|lia].
    intros i g Hi.
    pose proof (futures_all_lookup _ _ _ _ IH Hi) as Hg.
    specialize (Hg (bounded_lookup (InPool url m fs) i g Hb Hi)).
    destruct (pooled g) eqn:Hp, (finished g) eqn:Hf; simpl in Hg; lia.
  - pose proof (bounded_root _ Hb eq_refl) as Hbusy. simpl in Hbusy.
    pose proof (sum_futures_le in_flight
                  (λ g, (Z.to_nat max_threads * pools g)%nat) fs) as Hsum.
    assert (sum_futures (λ g, (Z.to_nat max_threads * pools g)%nat) fs =
            (Z.to_nat max_threads * sum_futures pools fs)%nat) as Hmul.
    { clear. induction fs as [|x fs IH]; [rewrite !sum_futures_nil; lia|].
      rewrite !sum_futures_cons, IH. destruct x; lia. }
    rewrite Hmul in Hsum. etrans; [apply Hsum|]; [|lia].
    intros i g Hi.
    pose proof (futures_all_lookup _ _ _ _ IH Hi) as Hg.
    specialize (Hg (bounded_lookup (Unwinding url e fs) i g Hb Hi)).
    destruct (pooled g) eqn:Hp, (finished g) eqn:Hf; simpl in Hg; lia.
Qed.

(** With one worker per pool at most one request is in flight. *)
Lemma in_flight_one_worker f :
  max_threads = 1 → bounded f → (in_flight f ≤ 1)%nat.
Proof.
  intros Hone.
  induction f as [url|url|url|url|url m fs IH|url e fs IH|url r|url e];
    intros Hb; simpl; try lia.
  - pose proof (bounded_root _ Hb eq_refl) as Hbusy. simpl in Hbusy.
    pose proof (sum_futures_le in_flight (λ _, O) fs) as Hsum.
    assert (sum_futures (λ _, O) fs = O) as Hzero.
    { clear. induction fs as [|x fs IH]; [done|].
      rewrite !sum_futures_cons, IH. by destruct x. }
    rewrite Hzero in Hsum. etrans; [apply Hsum|]; [|lia].
    intros i g Hi.
    pose proof (futures_all_lookup _ _ _ _ IH Hi) as Hg.
    specialize (Hg (bounded_lookup (InPool url m fs) i g Hb Hi)).
    destruct (finished g) eqn:Hf; [|lia].
    rewrite in_flight_finished by done. lia.
  - pose proof (bounded_root _ Hb eq_refl) as Hbusy. simpl in Hbusy.
    pose proof (sum_futures_le in_flight (λ _, O) fs) as Hsum.
    assert (sum_futures (λ _, O) fs = O) as Hzero.
    { clear. induction fs as [|x fs IH]; [done|].
      rewrite !sum_futures_cons, IH. by destruct x. }
    rewrite Hzero in Hsum. etrans; [apply Hsum|]; [|lia].
    intros i g Hi.
    pose proof (futures_all_lookup _ _ _ _ IH Hi) as Hg.
    specialize (Hg (bounded_lookup (Unwinding url e fs) i g Hb Hi)).
    destruct (finished g) eqn:Hf; [|lia].
    rewrite in_flight_finished by done. lia.
Qed.

(** The requests in flight are the activations that wait in
    [requests.get]. *)
Lemma length_awaited f : length (awaited f) = in_flight f.
Proof.
  induction f as [url|url|url|url|url m fs IH|url e fs IH|url r|url e];
    try done.
  - rewrite awaited_unfold. simpl. clear -IH.
    induction fs as [|x fs IHfs]; [done|].
    rewrite bind_cons, length_app, sum_futures_cons.
    inversion IH as [|? Hx ? Hfs]; subst. rewrite (IHfs Hfs).
    destruct x as [link|g|]; simpl; try done.
    inversion Hx; subst. unfold awaited in *. lia.
  - rewrite awaited_unfold. simpl. clear -IH.
    induction fs as [|x fs IHfs]; [done|].
    rewrite bind_cons, length_app, sum_futures_cons.
    inversion IH as [|? Hx ? Hfs]; subst. rewrite (IHfs Hfs).
    destruct x as [link|g|]; simpl; try done.
    inversion Hx; subst. unfold awaited in *. lia.
Qed.

End in_flight_facts.

Section completion.
Context `{!Platform} `{!CrawlConfig} `{!Site}.

(** On a closed site every state can be run to its end. *)
Lemma completes σ f :
  closed → claimed_visited σ f → inside f → pools_allowed f →
  ∃ rest σ' f', run rest σ f = Some (σ', f') ∧ finished f' = true.
Proof.
  intros Hclosed.
  remember (weight σ f) as n eqn:Hn. revert σ f Hn.
  induction (lt_wf n) as [n _ IH]. intros σ f -> Hv Hi Hp.
  destruct (progress σ f Hp) as [Hfin|(a & σ1 & f1 & Hstep)].
  { by exists [], σ, f. }
  destruct (IH (weight σ1 f1)) with (σ := σ1) (f := f1)
    as (rest & σ' & f' & Hrun & Hfin).
  - by eapply step_weight.
  - done.
  - by eapply step_claimed_visited.
  - by eapply step_inside.
  - by eapply step_pools_allowed.
  - exists (a :: rest), σ', f'. split; [|done].
    rewrite run_cons, Hstep. done.
Qed.

Lemma run_inside schedule σ f σ' f' :
  closed → run schedule σ f = Some (σ', f') → inside f → inside f'.
Proof.
  intros Hclosed. revert schedule σ f σ' f'.
  apply (run_ind (λ σ f σ' f', inside f → inside f')); [done|].
  intros a σ f σ1 f1 σ2 f2 Hstep IH Hinv. apply IH. by eapply step_inside.
Qed.

(** On a closed site the set holds urls of the site only. *)
Lemma run_confined schedule σ f σ' f' :
  closed → run schedule σ f = Some (σ', f') →
  inside f → visited_urls σ ⊆ site_urls → visited_urls σ' ⊆ site_urls.
Proof.
  intros Hclosed. revert schedule σ f σ' f'.
  apply (run_ind (λ σ f σ' f',
    inside f → visited_urls σ ⊆ site_urls → visited_urls σ' ⊆ site_urls));
    [done|].
  intros a σ f σ1 f1 σ2 f2 Hstep IH Hinv Hsub.
  apply IH; [by eapply step_inside|]. intros url Hin.
  destruct (step_visited_new _ _ _ _ _ _ Hstep Hin) as [Hold|[Hadd _]];
    [by apply Hsub|].
  by destruct (Hinv _ Hadd) as [Hu _].
Qed.

End completion.

Section homepage_facts.
Context `{!Platform} `{!CrawlConfig}.

Lemma step_fetches_prefix a σ f σ' f' :
  step a σ f = Some (σ', f') → fetches σ `prefix_of` fetches σ'.
Proof.
  intros Hstep. destruct (step_fetches _ _ _ _ _ Hstep) as (new & -> & _).
  by apply prefix_app_r.
Qed.

Lemma run_fetches_prefix schedule σ f σ' f' :
  run schedule σ f = Some (σ', f') → fetches σ `prefix_of` fetches σ'.
Proof.
  revert schedule σ f σ' f'.
  apply (run_ind (λ σ f σ' f', fetches σ `prefix_of` fetches σ')); [done|].
  intros a σ f σ1 f1 σ2 f2 Hstep IH. etrans; [|exact IH].
  by eapply step_fetches_prefix.
Qed.

(** A run begins with the three moves of the root to its request. *)
Lemma reaches_start homepage schedule σ f :
  reaches homepage schedule σ f →
  (length schedule < 3)%nat ∧ fetches σ = [] ∧ finished f = false ∨
  ∃ later,
    schedule = [Tick; Tick; Tick] ++ later ∧
    run later (log (Requested homepage) (add_visited homepage initial))
        (InGet homepage) = Some (σ, f).
Proof.
  unfold reaches, crawl_page. intros Hrun.
  destruct schedule as [|a1 schedule];
    [left; simplify_eq/=; split; [lia|done]|].
  rewrite run_cons in Hrun.
  destruct a1; simpl in Hrun; try done.
  rewrite bool_decide_eq_false_2 in Hrun by set_solver. simpl in Hrun.
  destruct schedule as [|a2 schedule];
    [left; simplify_eq/=; split; [lia|done]|].
  rewrite run_cons in Hrun.
  destruct a2; simpl in Hrun; try done.
  destruct schedule as [|a3 schedule];
    [left; simplify_eq/=; split; [lia|done]|].
  rewrite run_cons in Hrun.
  destruct a3; simpl in Hrun; try done.
  right. by exists schedule.
Qed.

End homepage_facts.

(** ** Runs from the first call *)

Section filter_facts.
Context {A : Type} (P : A → Prop) `{!∀ x, Decision (P x)}.

Lemma filter_all (l : list A) : Forall P l → filter P l = l.
Proof.
  induction 1 as [|x l Hx _ IH]; [done|].
  by rewrite filter_cons, decide_True, IH.
Qed.

Lemma filter_none (l : list A) : Forall (λ x, ¬ P x) l → filter P l = [].
Proof.
  induction 1 as [|x l Hx _ IH]; [done|].
  by rewrite filter_cons, decide_False, IH.
Qed.

End filter_facts.

Section reaches_facts.
Context `{!Platform} `{!CrawlConfig}.

Lemma run_url_of schedule σ f σ' f' :
  run schedule σ f = Some (σ', f') → url_of f' = url_of f.
Proof.
  revert schedule σ f σ' f'.
  apply (run_ind (λ _ f _ f', url_of f' = url_of f)); [done|].
  intros a σ f σ1 f1 σ2 f2 Hstep ->. by eapply step_url_of.
Qed.

Lemma reaches_one_worker homepage schedule σ f :
  max_threads = 1 → reaches homepage schedule σ f →
  one_worker_invariant σ f.
Proof.
  intros Hone. unfold reaches, crawl_page.
  assert (one_worker_invariant initial (AtTest homepage)) as Hinit.
  { split; [apply bounded_initial|]. split; [apply claimed_visited_initial|].
    split; [apply fetched_visited_initial|]. split; [|constructor].
    intros g url ->%list_elem_of_singleton. done. }
  revert Hinit. generalize initial (AtTest homepage).
  intros σ0 f0 Hinit Hrun. revert schedule σ0 f0 σ f Hrun Hinit.
  apply (run_ind (λ σ0 f0 σ f,
           one_worker_invariant σ0 f0 → one_worker_invariant σ f)); [done|].
  intros a σ0 f0 σ1 f1 σ2 f2 Hstep IH Hinv. by eapply IH, step_one_worker.
Qed.

Lemma reaches_bounded homepage schedule σ f :
  reaches homepage schedule σ f → bounded f.
Proof. intros Hrun. eapply run_bounded; [done|]. apply bounded_initial. Qed.

Lemma reaches_uncaught_only homepage schedule σ f :
  reaches homepage schedule σ f → uncaught_only f.
Proof.
  intros Hrun.
  destruct (run_held _ _ _ _ _ Hrun (uncaught_only_initial homepage))
    as (acc & esc & _ & _ & Hf & _). done.
Qed.

Lemma reaches_cause homepage schedule σ f :
  reaches homepage schedule σ f → dirty f → cause σ.
Proof.
  intros Hrun. eapply run_cause; [done|].
  intros (g & ->%list_elem_of_singleton & Hr). done.
Qed.

Lemma clean_iff_not_dirty f : clean f ↔ ¬ dirty f.
Proof.
  split; [apply clean_not_dirty|]. intros Hnot g Hg.
  destruct (raising g) eqn:Hr; [|done]. destruct Hnot. by exists g.
Qed.

Lemma occurrences_cons x y l :
  occurrences x (y :: l) =
  ((if decide (y = x) then 1 else 0) + occurrences x l)%nat.
Proof. unfold occurrences. rewrite filter_cons. by destruct (decide _). Qed.

Lemma occurrences_zero x l : occurrences x l = O → x ∉ l.
Proof.
  induction l as [|y l IH]; [intros _; apply not_elem_of_nil|].
  rewrite occurrences_cons. destruct (decide (y = x)); [done|].
  intros Hl. apply not_elem_of_cons. split; [done|]. by apply IH.
Qed.

Lemma awaited_finished f : finished f = true → awaited f = [].
Proof.
  intros Hf. unfold awaited. rewrite (subframes_finished f Hf). simpl.
  by rewrite awaits_finished.
Qed.

Lemma elem_of_matches_at text page url :
  (text, page) ∈ matches_at url ↔
  page = url ∧ text = lower query ∧
  ∃ response, requests_get url = inr response ∧
              Str.contains (lower (get_text (soup response))) (lower query)
              = true.
Proof.
  unfold matches_at. destruct (requests_get url) as [detail|response].
  - split; [by intros ?%elem_of_nil|]. by intros (_ & _ & r & ? & _).
  - destruct (page_matches_cases query url (get_text (soup response)))
      as [[Hc ->]|[Hc ->]].
    + rewrite list_elem_of_singleton. split.
      * intros [= -> ->]. eauto.
      * by intros (-> & -> & _).
    + split; [by intros ?%elem_of_nil|].
      intros (_ & _ & r & [= <-] & Hr). congruence.
Qed.

End reaches_facts.

(** ** Requests follow acceptance *)

Section causal.
Context `{!Platform} `{!CrawlConfig}.

Lemma found_app homepage h h' url :
  found homepage h url → found homepage (h ++ h') url.
Proof.
  intros [->|(page & links & Hin & Hl & Hu)]; [by left|].
  right. exists page, links. split; [|done]. apply elem_of_app. by left.
Qed.

Lemma app_singleton_split {A} (l before after : list A) x y :
  l ++ [x] = before ++ y :: after →
  (after = [] ∧ before = l ∧ x = y) ∨
  (∃ rest, after = rest ++ [x] ∧ l = before ++ y :: rest).
Proof.
  destruct after as [|z after _] using rev_ind; intros Heq.
  - left. apply app_inj_tail in Heq as [-> ->]. done.
  - right. exists after.
    change (before ++ y :: after ++ [z])
      with (before ++ (y :: after) ++ [z]) in Heq.
    rewrite (assoc_L (++)) in Heq.
    apply app_inj_tail in Heq as [-> ->]. done.
Qed.

Lemma history_log ev σ : history (log ev σ) = history σ ++ [ev].
Proof. done. Qed.

(** The events of a move. *)
Lemma ticks_history σ g σ' g' :
  ticks σ g σ' g' →
  ∃ evs, history σ' = history σ ++ evs ∧
         ∀ url, Requested url ∈ evs → g = AtGet url ∧ evs = [Requested url].
Proof.
  intros [url Hin|url Hout|url|url|url|url m fs Hall|url e fs Hall].
  - exists []. rewrite app_nil_r. split; [done|]. by intros u ?%elem_of_nil.
  - exists []. rewrite app_nil_r. split; [done|]. by intros u ?%elem_of_nil.
  - exists []. rewrite app_nil_r. split; [done|]. by intros u ?%elem_of_nil.
  - exists [Requested url]. split; [done|].
    by intros u [= ->]%list_elem_of_singleton.
  - destruct (receive_cases σ url)
      as [(e & _ & _ & ->)|[(_ & _ & ->)|(links & _ & _ & _ & ->)]];
      cbn [fst snd].
    + exists [Printed url e]. split; [done|].
      by intros u ?%list_elem_of_singleton.
    + exists [Accepted url; Escaped url ValueError].
      rewrite !history_log, <-(assoc_L (++)). split; [done|].
      intros u Hu. set_solver.
    + exists [Accepted url]. split; [done|].
      by intros u ?%list_elem_of_singleton.
  - exists []. rewrite app_nil_r. split; [done|]. by intros u ?%elem_of_nil.
  - destruct (handle_cases σ url e) as [[_ ->]|[_ ->]]; cbn [fst].
    + exists [Printed url e]. split; [done|].
      by intros u ?%list_elem_of_singleton.
    + exists [Escaped url e]. split; [done|].
      by intros u ?%list_elem_of_singleton.
Qed.

(** The events of a step: a request is the move of an activation that
    stands at line 27. *)
Lemma step_history a σ f σ' f' :
  step a σ f = Some (σ', f') →
  ∃ evs, history σ' = history σ ++ evs ∧
         ∀ url, Requested url ∈ evs →
                AtGet url ∈ subframes f ∧ evs = [Requested url].
Proof.
  intros Hstep.
  destruct (step_ticks _ _ _ _ _ Hstep) as [->|(g & g' & Hg & _ & Ht)].
  - exists []. rewrite app_nil_r. split; [done|]. by intros u ?%elem_of_nil.
  - destruct (ticks_history _ _ _ _ Ht) as (evs & Heq & Hreq).
    exists evs. split; [done|]. intros url Hin.
    destruct (Hreq url Hin) as [-> ->]. done.
Qed.

(** Where a request lies in a history that has grown. *)
Lemma request_split (Φ : list event → string → Prop) l evs before url after :
  (∀ before url after, l = before ++ Requested url :: after → Φ before url) →
  (∀ u, Requested u ∈ evs → Φ l u ∧ evs = [Requested u]) →
  l ++ evs = before ++ Requested url :: after →
  Φ before url.
Proof.
  intros Hl Hevs. revert before url after.
  induction evs as [|ev evs IH] using rev_ind; intros before url after Heq.
  - rewrite app_nil_r in Heq. by eapply Hl.
  - rewrite (assoc_L (++)) in Heq.
    apply app_singleton_split in Heq as [(-> & -> & ->)|(rest & -> & Heq)].
    + destruct (Hevs url) as [Hf Hone]; [set_solver|].
      destruct evs as [|? evs]; [by rewrite app_nil_r|].
      by destruct evs.
    + eapply IH; [|done]. intros u Hu.
      destruct (Hevs u) as [_ Hone]; [set_solver|].
      destruct evs as [|? evs]; [by apply elem_of_nil in Hu|].
      by destruct evs.
Qed.

Lemma step_all_found homepage a σ f σ' f' :
  step a σ f = Some (σ', f') →
  all_found homepage σ f → all_found homepage σ' f'.
Proof.
  intros Hstep [Htree Hpast].
  destruct (step_history _ _ _ _ _ Hstep) as (evs & Hevs & Hreq).
  split.
  - intros g' Hg'. rewrite Hevs.
    destruct (step_provenance _ _ _ _ _ _ Hstep Hg')
      as [Hold|[(g & Hg & Ht)|[(p & l & Hp & Hl & ->)|
           (g & Hg & _ & _ & Hu & Hl & _)]]].
    + destruct (Htree g' Hold) as [Hu Hl].
      split; [by apply found_app|]. intros link Hlink.
      by apply found_app, Hl.
    + rewrite (ticks_url_of _ _ _ _ Ht). destruct (Htree g Hg) as [Hu _].
      split; [by apply found_app|]. intros link Hlink. rewrite <-Hevs.
      destruct Ht as [u ?|u ?|u|u|u|u m fs Hall|u e fs Hall];
        try (by apply elem_of_nil in Hlink).
      * destruct (receive_cases σ u)
          as [(e & _ & _ & Hrec)|[(_ & _ & Hrec)|
               (links & _ & Hlinks & _ & Hrec)]];
          rewrite Hrec in Hlink |- *; cbn [fst snd] in *;
          try (by apply elem_of_nil in Hlink).
        simpl in Hlink.
        apply list_elem_of_fmap in Hlink as (l & [= <-] & Hl).
        right. exists u, links. split; [|done].
        rewrite history_log. apply elem_of_app. right. by left.
      * destruct (handle_cases σ u e) as [[_ Hh]|[_ Hh]];
          rewrite Hh in Hlink; by apply elem_of_nil in Hlink.
    + destruct (Htree p Hp) as [_ Hfound]. simpl.
      split; [by apply found_app, Hfound|]. by intros link ?%elem_of_nil.
    + destruct (Htree g Hg) as [Hfu Hfl]. rewrite Hu.
      split; [by apply found_app|]. intros link Hlink.
      by apply found_app, Hfl, Hl.
  - intros before url after Hsplit. rewrite Hevs in Hsplit.
    eapply (request_split (found homepage)); [exact Hpast| |exact Hsplit].
    intros u Hu. destruct (Hreq u Hu) as [Hget ->]. split; [|done].
    by destruct (Htree _ Hget).
Qed.

Lemma run_all_found homepage schedule σ f σ' f' :
  run schedule σ f = Some (σ', f') →
  all_found homepage σ f → all_found homepage σ' f'.
Proof.
  revert schedule σ f σ' f'.
  apply (run_ind (λ σ f σ' f',
    all_found homepage σ f → all_found homepage σ' f')); [done|].
  intros a σ f σ1 f1 σ2 f2 Hstep IH Hinv. apply IH.
  by eapply step_all_found.
Qed.

Lemma all_found_initial homepage :
  all_found homepage initial (AtTest homepage).
Proof.
  split.
  - intros g ->%list_elem_of_singleton. split; [by left|].
    by intros link ?%elem_of_nil.
  - intros before url after Heq. simpl in Heq. by destruct before.
Qed.

End causal.

(** ** The race for a url *)

Section race.
Context `{!Platform} `{!CrawlConfig}.

Lemma racers_unfold url f :
  racers url f =
  ((if claiming url f then 1 else 0) +
   length (List.filter (claiming url)
             (futures_of f ≫= running subframes)))%nat.
Proof.
  unfold racers. rewrite subframes_unfold. simpl.
  by destruct (claiming url f).
Qed.

Lemma racers_leaf url f :
  subframes f = [f] → racers url f = if claiming url f then 1%nat else O.
Proof. unfold racers. intros ->. simpl. by destruct (claiming url f). Qed.

Lemma filter_claiming_done url (gs : list frame) :
  (∀ g, g ∈ gs → finished g = true) →
  List.filter (claiming url) gs = [].
Proof.
  induction gs as [|g gs IH]; intros Hall; [done|]. simpl.
  assert (claiming url g = false) as ->.
  { specialize (Hall g ltac:(by left)). by destruct g. }
  apply IH. intros x Hx. apply Hall. by right.
Qed.

Lemma racers_pooled_done url f :
  pooled f = true → forallb future_done (futures_of f) = true →
  racers url f = O.
Proof.
  intros Hp Hall. rewrite racers_unfold.
  rewrite filter_claiming_done by (intros g Hg; by eapply all_done_frames).
  by destruct f.
Qed.

Lemma filter_length_perm (P : frame → bool) (l k : list frame) :
  l ≡ₚ k → length (List.filter P l) = length (List.filter P k).
Proof.
  induction 1 as [|x l k _ IH|x y l|l k m _ IH1 _ IH2]; simpl.
  - done.
  - destruct (P x); simpl; lia.
  - destruct (P x), (P y); simpl; lia.
  - lia.
Qed.

Lemma filter_length_app (P : frame → bool) (l k : list frame) :
  length (List.filter P (l ++ k)) =
  (length (List.filter P l) + length (List.filter P k))%nat.
Proof. by rewrite List.filter_app, length_app. Qed.

Lemma ticks_racers url σ f σ' f' :
  ticks σ f σ' f' → url ∈ visited_urls σ →
  (fetch_count url σ' + racers url f' = fetch_count url σ + racers url f)%nat.
Proof.
  intros Ht Hin. pose proof (ticks_subframes _ _ _ _ Ht) as Hleaf.
  rewrite (racers_leaf _ _ Hleaf). unfold fetch_count.
  destruct Ht as [u ?|u Hout|u|u|u|u m fs Hall|u e fs Hall].
  - by rewrite racers_leaf.
  - rewrite racers_leaf by done. simpl.
    rewrite bool_decide_eq_false_2; [done|]. by intros ->.
  - by rewrite racers_leaf.
  - rewrite racers_leaf by done. rewrite fetches_log. simpl.
    unfold occurrences. rewrite filter_app, length_app, filter_cons.
    case_bool_decide; simplify_eq.
    + rewrite decide_True by done. simpl. lia.
    + rewrite decide_False by done. simpl. lia.
  - rewrite racers_leaf by done. rewrite receive_fetches. simpl.
    assert (claiming url (receive σ u).2 = false) as ->; [|done].
    by destruct (receive_cases σ u)
      as [(e & _ & _ & ->)|[(_ & _ & ->)|(links & _ & _ & _ & ->)]].
  - rewrite racers_pooled_done; [done..|]. by apply all_Yielded_done.
  - rewrite racers_pooled_done by done. rewrite handle_fetches.
    by destruct (handle_cases σ u e) as [[_ ->]|[_ ->]].
Qed.

(** Once a url is in the set, the requests for it and the activations
    that stand between their test and their request for it are, together,
    as many as before. *)
Lemma step_racers url a σ f σ' f' :
  step a σ f = Some (σ', f') → url ∈ visited_urls σ →
  (fetch_count url σ' + racers url f' = fetch_count url σ + racers url f)%nat.
Proof.
  revert a σ f σ' f'.
  apply (step_path_ind (λ σ f σ' f',
    url ∈ visited_urls σ →
    (fetch_count url σ' + racers url f' =
     fetch_count url σ + racers url f)%nat)).
  - intros σ f σ' f' Ht%tick_ticks. by apply ticks_racers.
  - intros σ f f' (futures' & Hp & Hs & ->)%start_Some _.
    rewrite !racers_unfold, claiming_with_futures,
      futures_of_with_futures by done.
    destruct (start_first_perm _ _ Hs) as [link Hperm].
    rewrite (filter_length_perm _ _ _ Hperm). simpl. done.
  - intros σ i f f' (u & m & fs & g & -> & Hi & Hf')%yield_Some _.
    assert (racers url f' =
            length (List.filter (claiming url)
                      (<[i := Yielded]> fs ≫= running subframes))) as ->.
    { destruct Hf' as [(r & _ & ->)|(e & _ & ->)]; by rewrite racers_unfold. }
    rewrite racers_unfold. simpl.
    pose proof (bind_insert_perm (running subframes) fs i _ Yielded Hi)
      as Hperm.
    apply (filter_length_perm (claiming url)) in Hperm.
    rewrite !filter_length_app in Hperm. simpl in Hperm.
    assert (finished g = true) as Hg.
    { destruct Hf' as [(r & -> & _)|(e & -> & _)]; done. }
    rewrite (subframes_finished g Hg) in Hperm. simpl in Hperm.
    assert (claiming url g = false) as Hc by (by destruct g).
    rewrite Hc in Hperm. simpl in Hperm. lia.
  - intros σ σ' i f g g' Hp Hi IH Hin. specialize (IH Hin).
    rewrite !racers_unfold, claiming_with_futures,
      futures_of_with_futures by done.
    pose proof (bind_insert_perm (running subframes) (futures_of f) i _
                  (Running g') Hi) as Hperm.
    apply (filter_length_perm (claiming url)) in Hperm.
    rewrite !filter_length_app in Hperm. simpl in Hperm.
    fold (racers url g) (racers url g') in Hperm. lia.
Qed.

Lemma run_racers url schedule σ f σ' f' :
  run schedule σ f = Some (σ', f') → url ∈ visited_urls σ →
  (fetch_count url σ' + racers url f' = fetch_count url σ + racers url f)%nat.
Proof.
  revert schedule σ f σ' f'.
  apply (run_ind (λ σ f σ' f',
    url ∈ visited_urls σ →
    (fetch_count url σ' + racers url f' =
     fetch_count url σ + racers url f)%nat)); [done|].
  intros a σ f σ1 f1 σ2 f2 Hstep IH Hin.
  pose proof (step_racers _ _ _ _ _ _ Hstep Hin).
  specialize (IH (step_visited _ _ _ _ _ Hstep _ Hin)). lia.
Qed.

Lemma racers_finished url f : finished f = true → racers url f = O.
Proof.
  intros Hf. rewrite racers_leaf by (by apply subframes_finished).
  by destruct f.
Qed.

End race.

(** ** What a run has done when it ends *)

Section outcome_facts.
Context `{!Platform} `{!CrawlConfig}.

Lemma reaches_fetched_visited homepage schedule σ f url :
  reaches homepage schedule σ f → url ∈ fetches σ → url ∈ visited_urls σ.
Proof.
  intros Hrun. eapply run_fetched_visited; [done| |].
  - apply claimed_visited_initial.
  - apply fetched_visited_initial.
Qed.

Lemma finished_visited_fetched homepage schedule σ f url :
  reaches homepage schedule σ f → finished f = true →
  url ∈ visited_urls σ → url ∈ fetches σ.
Proof.
  intros Hrun Hfin Hin.
  apply (run_visited_fetched _ _ _ _ _ Hrun) in Hin as [?|Hget]; [done| |].
  - rewrite (subframes_finished f Hfin) in Hget.
    apply list_elem_of_singleton in Hget. by subst f.
  - intros u Hu. simpl in Hu. set_solver.
Qed.

Lemma reaches_covered homepage schedule σ f page links link :
  0 < max_threads → reaches homepage schedule σ f →
  page ∈ accepted σ → links_at page = Some links → link ∈ links →
  covered σ f link.
Proof.
  intros Hpos Hrun. apply (run_all_covered _ _ _ _ _ Hpos Hrun).
  intros p ls l Hp. by apply elem_of_nil in Hp.
Qed.

Lemma finished_link_fetched homepage schedule σ f page links link :
  0 < max_threads → reaches homepage schedule σ f → finished f = true →
  page ∈ accepted σ → links_at page = Some links → link ∈ links →
  link ∈ fetches σ.
Proof.
  intros Hpos Hrun Hfin Hacc Hlinks Hlink.
  eapply finished_visited_fetched; [done..|].
  destruct (reaches_covered _ _ _ _ _ _ _ Hpos Hrun Hacc Hlinks Hlink)
    as [?|(g & Hg & Hcase)]; [done|].
  rewrite (subframes_finished f Hfin) in Hg.
  apply list_elem_of_singleton in Hg as ->.
  destruct Hcase as [Hp|[->| ->]]; try done.
  rewrite finished_futures_of in Hp by done. by apply elem_of_nil in Hp.
Qed.

Lemma finished_accepted_iff homepage schedule σ f page :
  reaches homepage schedule σ f → finished f = true →
  page ∈ accepted σ ↔ page ∈ fetches σ ∧ fetch_error page = None.
Proof.
  intros Hrun Hfin.
  destruct (reaches_accounting _ _ _ _ Hrun) as [Hperm Hout].
  pose proof (run_accepted _ _ _ _ _ Hrun (Forall_nil_2 _)) as Hacc.
  rewrite awaited_finished, app_nil_r in Hperm by done.
  rewrite Forall_forall in Hacc. rewrite Forall_forall in Hout. split.
  - intros Hin. split; [|by apply Hacc].
    rewrite Hperm. apply elem_of_app. by left.
  - intros [Hin Hok]. rewrite Hperm in Hin.
    apply elem_of_app in Hin as [?|Hpr]; [done|].
    unfold printed in Hpr.
    apply list_elem_of_fmap in Hpr as ([u e] & -> & Hline).
    apply Hout in Hline. simpl in *. congruence.
Qed.

Lemma fetched_reachable homepage schedule σ f url :
  reaches homepage schedule σ f → url ∈ fetches σ → reachable homepage url.
Proof.
  intros Hrun Hin.
  destruct (run_all_reachable homepage _ _ _ _ _ Hrun
              (all_reachable_initial homepage)) as [_ Hset].
  by eapply Hset, reaches_fetched_visited.
Qed.

Lemma finished_reachable_fetched homepage schedule σ f url :
  0 < max_threads → reaches homepage schedule σ f → finished f = true →
  reachable homepage url → url ∈ fetches σ.
Proof.
  intros Hpos Hrun Hfin.
  induction 1 as [|page links link _ IH Hok Hlinks Hlink].
  - destruct (reaches_start _ _ _ _ Hrun)
      as [(_ & _ & Hnot)|(later & _ & Hlater)]; [congruence|].
    destruct (run_fetches_prefix _ _ _ _ _ Hlater) as [rest ->]. by left.
  - eapply finished_link_fetched; [done..| |done|done].
    by eapply finished_accepted_iff.
Qed.

Lemma returned_result_mem homepage schedule σ url result text page :
  reaches homepage schedule σ (Returned url result) →
  (text, page) ∈ result ↔
  text = lower query ∧ page ∈ accepted σ ∧
  ∃ response,
    requests_get page = inr response ∧
    Str.contains (lower (get_text (soup response))) (lower query) = true.
Proof.
  intros Hrun. destruct (reaches_Returned _ _ _ _ _ Hrun) as [_ ->].
  unfold expected. rewrite list_elem_of_bind. split.
  - intros (u & (-> & -> & Hr)%elem_of_matches_at & Hu). done.
  - intros (-> & Hu & Hr). exists page. split; [|done].
    by apply elem_of_matches_at.
Qed.

(** The pairs of the result, by the site alone. *)
Lemma returned_result_iff homepage schedule σ url result text page :
  0 < max_threads →
  reaches homepage schedule σ (Returned url result) →
  (text, page) ∈ result ↔
  text = lower query ∧ reachable homepage page ∧
  ∃ response,
    requests_get page = inr response ∧
    raise_for_status response = None ∧
    Str.contains (lower (get_text (soup response))) (lower query) = true.
Proof.
  intros Hpos Hrun.
  rewrite (returned_result_mem _ _ _ _ _ _ _ Hrun),
    (finished_accepted_iff _ _ _ _ _ Hrun eq_refl).
  unfold fetch_error. split.
  - intros (-> & [Hin Hok] & response & Hget & Hc).
    split; [done|]. split; [by eapply fetched_reachable|].
    exists response. rewrite Hget in Hok. done.
  - intros (-> & Hreach & response & Hget & Hok & Hc).
    split; [done|]. split; [|by exists response].
    split; [by eapply finished_reachable_fetched|]. by rewrite Hget.
Qed.

End outcome_facts.

(** ** The program *)

Section main_facts.
Context `{!Platform}.

Lemma main_Some args schedule fs σ fs' exc :
  main args schedule fs = Some (σ, fs', exc) ↔
  (∃ url results,
      (@reaches _ (config_of args) (Namespace.homepage args) schedule σ
         (Returned url results)) ∧
      fs' = save_results_to_csv results "search_results.csv" fs ∧
      exc = None) ∨
  (∃ url e,
      (@reaches _ (config_of args) (Namespace.homepage args) schedule σ
         (Raised url e)) ∧
      fs' = fs ∧ exc = Some e).
Proof.
  unfold main, reaches.
  destruct (run schedule initial (crawl_page (Namespace.homepage args)))
    as [[σ0 f0]|]; [|naive_solver].
  destruct f0; naive_solver.
Qed.

(** The end of a crawl whose root does not get to its pool. *)
Lemma run_leaf `{!CrawlConfig} later σ0 url σ f :
  finished (receive σ0 url).2 = true →
  run later σ0 (InGet url) = Some (σ, f) → finished f = true →
  later = [Tick] ∧ (σ, f) = receive σ0 url.
Proof.
  intros Hleaf Hrun Hfin.
  destruct later as [|a later]; [by simplify_eq/=|].
  rewrite run_cons in Hrun. destruct a; simpl in Hrun; try done.
  destruct (receive σ0 url) as [σ1 f1] eqn:Hr. simpl in *.
  destruct later as [|a later]; [by simplify_eq/=|].
  rewrite run_cons, finished_stuck in Hrun by done. done.
Qed.

Lemma reaches_leaf `{!CrawlConfig} homepage schedule σ f :
  finished
    (receive (log (Requested homepage) (add_visited homepage initial))
       homepage).2 = true →
  reaches homepage schedule σ f → finished f = true →
  schedule = [Tick; Tick; Tick; Tick] ∧
  (σ, f) =
    receive (log (Requested homepage) (add_visited homepage initial))
      homepage.
Proof.
  intros Hleaf Hrun Hfin.
  destruct (reaches_start _ _ _ _ Hrun)
    as [(_ & _ & Hnot)|(later & -> & Hlater)]; [congruence|].
  destruct (run_leaf _ _ _ _ _ Hleaf Hlater Hfin) as [-> Heq]. done.
Qed.

(** A crawl whose root does not get to its pool has one complete run, of
    four steps, and every run is a beginning of it. *)
Lemma main_leaf args fs :
  finished
    (@receive _ (config_of args)
       (log (Requested (Namespace.homepage args))
          (add_visited (Namespace.homepage args) initial))
       (Namespace.homepage args)).2 = true →
  is_Some (main args [Tick; Tick; Tick; Tick] fs).
Proof.
  intros Hfin. unfold main, crawl_page. simpl.
  rewrite bool_decide_eq_false_2 by set_solver. simpl.
  destruct (receive _ _) as [σ f]. simpl in *. by destruct f.
Qed.

Lemma reaches_leaf_prefix `{!CrawlConfig} homepage schedule σ f :
  finished
    (receive (log (Requested homepage) (add_visited homepage initial))
       homepage).2 = true →
  reaches homepage schedule σ f →
  schedule `prefix_of` [Tick; Tick; Tick; Tick].
Proof.
  intros Hleaf Hrun.
  destruct (reaches_start _ _ _ _ Hrun)
    as [(Hlen & _ & _)|(later & -> & Hlater)].
  - unfold reaches, crawl_page in Hrun.
    destruct schedule as [|a1 schedule]; [by eexists|].
    rewrite run_cons in Hrun. destruct a1; simpl in Hrun; try done.
    rewrite bool_decide_eq_false_2 in Hrun by set_solver. simpl in Hrun.
    destruct schedule as [|a2 schedule]; [by eexists|].
    rewrite run_cons in Hrun. destruct a2; simpl in Hrun; try done.
    destruct schedule as [|a3 schedule]; [by eexists|].
    simpl in Hlen. lia.
  - destruct later as [|a later]; [by eexists|].
    rewrite run_cons in Hlater. destruct a; simpl in Hlater; try done.
    destruct (receive _ homepage) as [σ1 f1] eqn:Hr. simpl in *.
    destruct later as [|a later]; [by eexists|].
    rewrite run_cons, finished_stuck in Hlater by done. done.
Qed.

(** The outcome of a complete run of the program, by the way the crawl
    has ended. *)
Lemma main_finished args schedule fs σ fs' exc :
  main args schedule fs = Some (σ, fs', exc) →
  ∃ f, (@reaches _ (config_of args) (Namespace.homepage args)
          schedule σ f) ∧ finished f = true ∧
       exc = match f with Raised _ e => Some e | _ => None end ∧
       fs' = match f with
             | Returned _ results =>
                 save_results_to_csv results "search_results.csv" fs
             | _ => fs
             end.
Proof.
  intros [(u & r & Hrun & -> & ->)|(u & e' & Hrun & -> & ->)]%main_Some;
    eauto.
Qed.

End main_facts.

(** ** The properties *)

(** X1.  On a site that is closed under its links, a crawl that starts at
    a page of the site takes no more steps than a bound that the site
    determines; a state that has not finished always has a next step (no
    deadlock); and every run can be continued to the end of the crawl. *)
Theorem crawl_runs_to_completion `{!Platform} `{!CrawlConfig} `{!Site}
    homepage schedule σ f :
  closed → homepage ∈ site_urls →
  reaches homepage schedule σ f →
  (length schedule ≤
   3 + receive_cost fanout (size (site_urls ∖ {[homepage]})))%nat ∧
  (finished f = true ∨ ∃ a σ' f', step a σ f = Some (σ', f')) ∧
  ∃ rest σ' f',
    reaches homepage (schedule ++ rest) σ' f' ∧ finished f' = true.
Proof.
  intros Hclosed Hin Hrun.
  destruct (crawl_terminates _ _ _ _ Hclosed Hin Hrun) as [Hbound Hnext].
  split; [lia|]. split; [done|].
  destruct (completes σ f Hclosed) as (rest & σ' & f' & Hrest & Hfin).
  - eapply run_claimed_visited; [done|]. apply claimed_visited_initial.
  - eapply run_inside; [done..|]. by apply inside_initial.
  - eapply run_pools_allowed; [done|]. by right.
  - exists rest, σ', f'. split; [|done].
    unfold reaches in *. rewrite run_app, Hrun. done.
Qed.

Lemma crawl_runs_to_completion_witness :
  let A := "http://x.com/" in
  ∃ σ f,
    (@reaches diamond_site (config "hello" 2) A both_request σ f) ∧
    (length both_request ≤ 151)%nat ∧
    ∃ rest σ' f',
      (@reaches diamond_site (config "hello" 2) A (both_request ++ rest)
         σ' f') ∧
      finished f' = true.
Proof.
  intros A. eexists _, _. split; [by vm_compute|].
  assert (A ∈ @site_urls diamond_urls) as Hin by (by vm_compute).
  destruct (@crawl_runs_to_completion diamond_site (config "hello" 2)
              diamond_urls A both_request _ _ diamond_closed Hin
              ltac:(by vm_compute)) as (Hlen & _ & Hrest).
  split; [|exact Hrest]. unfold A in Hlen. by rewrite diamond_bound in Hlen.
Defined.



(** X3.  The race on [visited_urls] is settled when a url enters the
    set.  From then on the requests made for the url and the activations
    that stand between their test of it (line 23) and their request for
    it (line 27) are, together, as many as before: each of these
    activations goes on to make one request, and nobody else requests the
    url.  So when the crawl has ended, the url has been requested as often
    as it had been requested, plus once for each such activation. *)
Theorem race_is_settled_by_the_add `{!Platform} `{!CrawlConfig}
    σ f url later σ' f' :
  url ∈ visited_urls σ →
  run later σ f = Some (σ', f') →
  (fetch_count url σ' + racers url f' =
   fetch_count url σ + racers url f)%nat ∧
  (finished f' = true →
   fetch_count url σ' = (fetch_count url σ + racers url f)%nat).
Proof.
  intros Hin Hlater.
  pose proof (run_racers _ _ _ _ _ _ Hlater Hin) as Heq.
  split; [done|]. intros Hfin. rewrite racers_finished in Heq by done. lia.
Qed.

Lemma race_is_settled_by_the_add_witness :
  let A := "http://x.com/" in
  let D := "http://x.com/d" in
  let later := [In 1 (In 0 Tick)] ++ walk [0; 0]%nat 1 ++ walk [1; 0]%nat 1 ++
               finish_D [0; 0]%nat ++ finish_D [1; 0]%nat ++
               [In 0 (Yield 0); In 0 Tick; In 1 (Yield 0); In 1 Tick;
                Yield 0; Yield 1; Tick] in
  ∃ σ f σ',
    (@reaches diamond_site (config "hello" 2) A
       (both_test ++ walk [0; 0]%nat 1) σ f) ∧
    D ∈ visited_urls σ ∧
    (@run diamond_site (config "hello" 2) later σ f =
       Some (σ', Returned A [("hello", D); ("hello", D)])) ∧
    fetch_count D σ = 0%nat ∧ racers D f = 2%nat ∧
    fetch_count D σ' = (fetch_count D σ + racers D f)%nat.
Proof.
  intros A D later. eexists _, _, _.
  split; [by vm_compute|]. split; [by vm_compute|]. split; [by vm_compute|].
  split; [by vm_compute|]. split; [by vm_compute|].
  refine (proj2 (@race_is_settled_by_the_add diamond_site
                   (config "hello" 2) _ _ D later _ _ _ _) _);
    by vm_compute.
Defined.

(** X4.  With [max_threads = 1] the crawl is sequential: at no point of a
    run is more than one call of [requests.get] in flight. *)
Theorem one_worker_is_sequential `{!Platform} `{!CrawlConfig}
    homepage schedule σ f :
  max_threads = 1 → reaches homepage schedule σ f →
  (in_flight f ≤ 1)%nat.
Proof.
  intros Hone Hrun. apply in_flight_one_worker; [done|].
  by eapply reaches_bounded.
Qed.

Lemma one_worker_is_sequential_witness :
  let A := "http://x.com/" in
  ∃ σ f,
    (@reaches faulty_site (config "hello" 1) A until_B_requested σ f) ∧
    in_flight f = 1%nat ∧ (in_flight f ≤ 1)%nat.
Proof.
  intros A. eexists _, _. split; [by vm_compute|]. split; [by vm_compute|].
  exact (@one_worker_is_sequential faulty_site (config "hello" 1)
           A until_B_requested _ _ eq_refl ltac:(by vm_compute)).
Defined.

(** X5.  Every pool keeps to its own limit, so the calls of
    [requests.get] in flight never exceed [max_threads] for each pool
    that exists (and one call when there is no pool). *)
Theorem requests_in_flight_bound `{!Platform} `{!CrawlConfig}
    homepage schedule σ f :
  reaches homepage schedule σ f →
  (∀ g, g ∈ subframes f → pooled g = true →
        Z.of_nat (busy (futures_of g)) ≤ max_threads) ∧
  Z.of_nat (in_flight f) ≤ Z.max 1 (max_threads * Z.of_nat (pools f)).
Proof.
  intros Hrun. pose proof (reaches_bounded _ _ _ _ Hrun) as Hb.
  split; [exact Hb|].
  pose proof (in_flight_pools f Hb) as Hle.
  destruct (pooled f) eqn:Hp; simpl in Hle.
  - pose proof (bounded_root _ Hb Hp). nia.
  - rewrite (pools_unpooled f Hp) in *. destruct (finished f); lia.
Qed.

Lemma requests_in_flight_bound_witness :
  ∃ σ f,
    (@reaches tree_site (config "hello" 2) "http://x.com/" four_requests
       σ f) ∧
    in_flight f = 4%nat ∧ pools f = 3%nat ∧
    Z.of_nat (in_flight f) ≤ Z.max 1 (2 * Z.of_nat (pools f)).
Proof.
  eexists _, _. split; [by vm_compute|]. split; [by vm_compute|].
  split; [by vm_compute|].
  exact (proj2 (@requests_in_flight_bound tree_site (config "hello" 2)
                  "http://x.com/" four_requests _ _ ltac:(by vm_compute))).
Defined.

(** X6.  A crawl that starts inside a set of urls that is closed under the
    links of its pages never leaves it: every url that enters
    [visited_urls], every url that [requests.get] is called with and the
    url of every activation is in the set. *)
Theorem crawl_stays_inside_site `{!Platform} `{!CrawlConfig} `{!Site}
    homepage schedule σ f :
  closed → homepage ∈ site_urls →
  reaches homepage schedule σ f →
  visited_urls σ ⊆ site_urls ∧
  (∀ url, url ∈ fetches σ → url ∈ site_urls) ∧
  (∀ g, g ∈ subframes f → url_of g ∈ site_urls).
Proof.
  intros Hclosed Hin Hrun.
  assert (visited_urls σ ⊆ site_urls) as Hsub.
  { eapply run_confined; [done..| |].
    - by apply inside_initial.
    - simpl. set_solver. }
  split; [done|]. split.
  - intros url Hf. apply Hsub.
    eapply run_fetched_visited; [done| | |done].
    + apply claimed_visited_initial.
    + apply fetched_visited_initial.
  - intros g Hg.
    assert (inside f) as Hinside.
    { eapply run_inside; [done..|]. by apply inside_initial. }
    by destruct (Hinside g Hg).
Qed.

Lemma crawl_stays_inside_site_witness :
  let A := "http://x.com/" in
  ∃ σ f,
    (@reaches diamond_site (config "hello" 2) A both_request σ f) ∧
    visited_urls σ ⊆ @site_urls diamond_urls.
Proof.
  intros A. eexists _, _. split; [by vm_compute|].
  assert (A ∈ @site_urls diamond_urls) as Hin by (by vm_compute).
  exact (proj1 (@crawl_stays_inside_site diamond_site (config "hello" 2)
                  diamond_urls A both_request _ _ diamond_closed Hin
                  ltac:(by vm_compute))).
Defined.

(** X7.  When the crawl returns, its result is, up to order, the list of
    the pairs that line 33 makes of the accepted responses: a pair is in
    the result exactly when it is (lower-cased query, url) for a url whose
    response was accepted and whose text contains the query.  Every
    accepted url was requested, and neither [requests.get] nor
    [raise_for_status] raised for it. *)
Theorem result_is_the_matches_of_accepted_pages `{!Platform} `{!CrawlConfig}
    homepage schedule σ url result :
  reaches homepage schedule σ (Returned url result) →
  url = homepage ∧
  result ≡ₚ accepted σ ≫= matches_at ∧
  (∀ text page,
      (text, page) ∈ result ↔
      text = lower query ∧ page ∈ accepted σ ∧
      ∃ response,
        requests_get page = inr response ∧
        Str.contains (lower (get_text (soup response))) (lower query)
        = true) ∧
  (∀ page, page ∈ accepted σ →
           page ∈ fetches σ ∧ fetch_error page = None).
Proof.
  intros Hrun.
  destruct (reaches_Returned _ _ _ _ _ Hrun) as [_ Hperm].
  split; [by apply run_url_of in Hrun|]. split; [done|]. split.
  - intros text page. by eapply returned_result_mem.
  - intros page Hin. by eapply finished_accepted_iff.
Qed.

Lemma result_is_the_matches_of_accepted_pages_witness :
  let A := "http://x.com/" in
  let C := "http://x.com/c" in
  ∃ σ,
    (@reaches faulty_site (config "hello" 1) A faulty_one_by_one σ
       (Returned A [("hello", C)])) ∧
    [("hello", C)] ≡ₚ accepted σ ≫= @matches_at faulty_site (config "hello" 1).
Proof.
  intros A C. eexists. split; [by vm_compute|].
  exact (proj1 (proj2 (@result_is_the_matches_of_accepted_pages faulty_site
                         (config "hello" 1) A faulty_one_by_one _ A _
                         ltac:(by vm_compute)))).
Defined.

(** X8.  With a positive [max_threads], the pairs in the result of a
    crawl that returns are given by the site alone, whatever the schedule:
    a pair is in the result exactly when it is (lower-cased query, url)
    for a url that can be reached from the homepage along the links of
    pages whose fetch does not fail, whose own fetch does not fail and
    whose text contains the query. *)
Theorem result_is_the_matching_reachable_pages `{!Platform} `{!CrawlConfig}
    homepage schedule σ url result :
  0 < max_threads →
  reaches homepage schedule σ (Returned url result) →
  ∀ text page,
    (text, page) ∈ result ↔
    text = lower query ∧ reachable homepage page ∧
    ∃ response,
      requests_get page = inr response ∧
      raise_for_status response = None ∧
      Str.contains (lower (get_text (soup response))) (lower query) = true.
Proof.
  intros Hpos Hrun text page. by eapply returned_result_iff.
Qed.

Lemma result_is_the_matching_reachable_pages_witness :
  let A := "http://x.com/" in
  let B := "http://x.com/b" in
  let C := "http://x.com/c" in
  ∃ σ,
    (@reaches faulty_site (config "hello" 1) A faulty_one_by_one σ
       (Returned A [("hello", C)])) ∧
    (@reachable faulty_site A B) ∧
    ¬ ("hello", B) ∈ [("hello", C)] ∧
    (@reachable faulty_site A C).
Proof.
  intros A B C. eexists. split; [by vm_compute|].
  pose proof (@result_is_the_matching_reachable_pages faulty_site
                (config "hello" 1) A faulty_one_by_one _ A _ ltac:(done)
                ltac:(by vm_compute)) as Hiff.
  assert (@reachable faulty_site A B) as HB.
  { eapply (reachable_link A A); [constructor|by vm_compute..|].
    vm_compute. by left. }
  split; [exact HB|]. split.
  - intros Hin. apply Hiff in Hin as (_ & _ & r & Hget & Hok & _).
    vm_compute in Hget. by simplify_eq.
  - by destruct (proj1 (Hiff "hello" C) ltac:(by left)) as (_ & HC & _).
Defined.

(** X9.  Every call of [requests.get] is answered once: at every point of
    a run the urls requested are, up to order, the urls whose response
    was accepted, the urls of the error lines printed and the urls of the
    requests in flight.  A url is accepted only if its fetch does not
    fail, and each printed line carries the error of its url.  So when the
    crawl has ended, one line has been printed for each request that
    failed and for no other. *)
Theorem every_request_is_answered_once `{!Platform} `{!CrawlConfig}
    homepage schedule σ f :
  reaches homepage schedule σ f →
  fetches σ ≡ₚ accepted σ ++ printed σ ++ awaited f ∧
  length (awaited f) = in_flight f ∧
  Forall (λ url, fetch_error url = None) (accepted σ) ∧
  Forall (λ line, fetch_error line.1 = Some line.2) (stdout σ) ∧
  (finished f = true →
   accepted σ ≡ₚ filter (λ url, fetch_error url = None) (fetches σ) ∧
   printed σ ≡ₚ filter (λ url, is_Some (fetch_error url)) (fetches σ)).
Proof.
  intros Hrun.
  destruct (reaches_accounting _ _ _ _ Hrun) as [Hperm Hout].
  pose proof (run_accepted _ _ _ _ _ Hrun (Forall_nil_2 _)) as Hacc.
  split; [done|]. split; [apply length_awaited|].
  split; [done|]. split; [done|].
  intros Hfin. rewrite awaited_finished, app_nil_r in Hperm by done.
  assert (Forall (λ url, is_Some (fetch_error url)) (printed σ)) as Hpr.
  { unfold printed. rewrite Forall_fmap. eapply Forall_impl; [exact Hout|].
    intros [u e] Hue. simpl in *. by rewrite Hue. }
  split; rewrite Hperm, filter_app.
  - rewrite filter_all by done. rewrite filter_none; [by rewrite app_nil_r|].
    eapply Forall_impl; [exact Hpr|]. intros u [e He]. congruence.
  - rewrite (filter_all _ (printed σ)) by done.
    rewrite filter_none; [done|].
    eapply Forall_impl; [exact Hacc|]. intros u Hu [e He]. congruence.
Qed.

Lemma every_request_is_answered_once_witness :
  let A := "http://x.com/" in
  let B := "http://x.com/b" in
  let C := "http://x.com/c" in
  ∃ σ,
    (@reaches faulty_site (config "hello" 1) A faulty_one_by_one σ
       (Returned A [("hello", C)])) ∧
    fetches σ = [A; B; C] ∧ accepted σ = [A; C] ∧ printed σ = [B] ∧
    fetches σ ≡ₚ accepted σ ++ printed σ ++ awaited (Returned A [("hello", C)]).
Proof.
  intros A B C. eexists. split; [by vm_compute|].
  split; [by vm_compute|]. split; [by vm_compute|]. split; [by vm_compute|].
  exact (proj1 (@every_request_is_answered_once faulty_site
                  (config "hello" 1) A faulty_one_by_one _ _
                  ltac:(by vm_compute))).
Defined.

(** X10.  The only exception that travels up the tree of activations, and
    so the only one that can leave [crawl_page], is [ValueError]: line 46
    catches every [RequestException].  And it has a cause: a page was
    accepted one of whose candidate hrefs [urljoin] rejects, or
    [max_threads] is not positive. *)
Theorem only_ValueError_escapes `{!Platform} `{!CrawlConfig}
    homepage schedule σ f :
  reaches homepage schedule σ f →
  ∀ g e,
    g ∈ subframes f → carried g = Some e →
    e = ValueError ∧
    ∃ page, page ∈ accepted σ ∧ (links_at page = None ∨ max_threads ≤ 0).
Proof.
  intros Hrun g e Hg He. split.
  - pose proof (reaches_uncaught_only _ _ _ _ Hrun g e Hg He) as Hno.
    by destruct e.
  - apply (reaches_cause _ _ _ _ Hrun). exists g. split; [done|].
    by eapply carried_raising.
Qed.

Lemma only_ValueError_escapes_witness :
  let A := "http://x.com/" in
  ∃ σ,
    (@reaches malformed_site (config "hello" 1) A (walk [] 4) σ
       (Raised A ValueError)) ∧
    ∃ page, page ∈ accepted σ ∧
            (@links_at malformed_site page = None ∨
             @max_threads (config "hello" 1) ≤ 0).
Proof.
  intros A. eexists. split; [by vm_compute|].
  exact (proj2 (@only_ValueError_escapes malformed_site (config "hello" 1)
                  A (walk [] 4) _ _ ltac:(by vm_compute)
                  (Raised A ValueError) ValueError
                  ltac:(by left) eq_refl)).
Defined.

(** X11.  On a closed site all of whose candidate hrefs [urljoin] accepts,
    crawled with a positive [max_threads], no activation ever raises: no
    exception leaves a call of [crawl_page], and when the crawl has ended
    the root has returned the matches of the accepted pages. *)
Theorem well_formed_site_returns `{!Platform} `{!CrawlConfig} `{!Site}
    homepage schedule σ f :
  closed → homepage ∈ site_urls → 0 < max_threads →
  (∀ url, url ∈ site_urls → links_at url ≠ None) →
  reaches homepage schedule σ f →
  (∀ g, g ∈ subframes f → raising g = false) ∧
  escapes σ = [] ∧
  (finished f = true →
   ∃ result, f = Returned homepage result ∧
             result ≡ₚ accepted σ ≫= matches_at).
Proof.
  intros Hclosed Hin Hpos Hlinks Hrun.
  assert (¬ dirty f) as Hclean.
  { intros (page & Hacc & [Hnone|Hneg])%(reaches_cause _ _ _ _ Hrun);
      [|lia].
    apply (Hlinks page); [|done].
    eapply run_confined; [done..| | |].
    - by apply inside_initial.
    - simpl. set_solver.
    - eapply run_fetched_visited; [done| | |].
      + apply claimed_visited_initial.
      + apply fetched_visited_initial.
      + destruct (reaches_accounting _ _ _ _ Hrun) as [-> _].
        apply elem_of_app. by left. }
  assert (escapes σ = []) as Hesc.
  { destruct (run_held _ _ _ _ _ Hrun (uncaught_only_initial homepage))
      as (acc & esc & _ & Hesc & _ & Hdirty & _).
    destruct esc as [|x esc]; [done|]. destruct Hclean. apply Hdirty.
    by right. }
  split; [by apply clean_iff_not_dirty|]. split; [done|].
  intros Hfin. pose proof (run_url_of _ _ _ _ _ Hrun) as Hurl.
  destruct f as [| | | | | |url result|url e]; try done; simpl in Hurl.
  - exists result. subst url. split; [done|].
    by destruct (reaches_Returned _ _ _ _ _ Hrun).
  - destruct Hclean. by apply dirty_root.
Qed.

Lemma well_formed_site_returns_witness :
  let A := "http://x.com/" in
  let D := "http://x.com/d" in
  ∃ σ,
    (@reaches diamond_site (config "hello" 2) A both_return σ
       (Returned A [("hello", D); ("hello", D)])) ∧
    escapes σ = [].
Proof.
  intros A D. eexists. split; [by vm_compute|].
  assert (A ∈ @site_urls diamond_urls) as Hin by (by vm_compute).
  assert (∀ url, url ∈ @site_urls diamond_urls →
                 @links_at diamond_site url ≠ None) as Hlinks.
  { intros url Hurl. unfold site_urls, diamond_urls in Hurl.
    set_unfold in Hurl. destruct_or! Hurl; subst url; by vm_compute. }
  exact (proj1 (proj2 (@well_formed_site_returns diamond_site
                         (config "hello" 2) diamond_urls A both_return _ _
                         diamond_closed Hin ltac:(done) Hlinks
                         ltac:(by vm_compute)))).
Defined.

(** X12.  The homepage is the first url that is requested, and it is
    never requested again, whatever the number of threads and however the
    site links back to it. *)
Theorem homepage_requested_once `{!Platform} `{!CrawlConfig}
    homepage schedule σ f :
  reaches homepage schedule σ f →
  (fetches σ = [] ∧ finished f = false ∧ (length schedule < 3)%nat) ∨
  (∃ later, fetches σ = homepage :: later ∧ homepage ∉ later).
Proof.
  intros Hrun.
  destruct (reaches_start _ _ _ _ Hrun)
    as [(Hlen & Hnone & Hfin)|(later & -> & Hlater)]; [by left|].
  right.
  destruct (run_fetches_prefix _ _ _ _ _ Hlater) as [rest Hrest].
  exists rest. split; [done|].
  destruct (run_settled homepage _ _ _ _ _ Hlater) as [_ Hcount].
  { split; [simpl; set_solver|].
    by intros g ->%list_elem_of_singleton. }
  unfold fetch_count in Hcount. rewrite Hrest in Hcount.
  change (fetches (log (Requested homepage) (add_visited homepage initial)))
    with [homepage] in Hcount.
  simpl in Hcount. rewrite !occurrences_cons in Hcount.
  rewrite decide_True in Hcount by done.
  apply occurrences_zero. unfold occurrences in *. simpl in Hcount. lia.
Qed.

Lemma homepage_requested_once_witness :
  let A := "http://x.com/" in
  let D := "http://x.com/d" in
  ∃ σ,
    (@reaches diamond_site (config "hello" 2) A both_return σ
       (Returned A [("hello", D); ("hello", D)])) ∧
    ∃ later, fetches σ = A :: later ∧ A ∉ later.
Proof.
  intros A D. eexists. split; [by vm_compute|].
  destruct (@homepage_requested_once diamond_site (config "hello" 2)
              A both_return _ _ ltac:(by vm_compute))
    as [(_ & Hfin & _)|Hlater]; [done|exact Hlater].
Defined.

(** X13.  A url is in [visited_urls] exactly when [requests.get] has been
    called with it or an activation stands at line 27 about to call it.
    So when the crawl has ended the set holds the urls that were
    requested and no others. *)
Theorem visited_are_the_requested `{!Platform} `{!CrawlConfig}
    homepage schedule σ f :
  reaches homepage schedule σ f →
  (∀ url, url ∈ visited_urls σ ↔
          url ∈ fetches σ ∨ AtGet url ∈ subframes f) ∧
  (finished f = true → visited_urls σ = list_to_set (fetches σ)).
Proof.
  intros Hrun.
  assert (∀ url, url ∈ visited_urls σ ↔
                 url ∈ fetches σ ∨ AtGet url ∈ subframes f) as Hiff.
  { intros url. split.
    - apply (run_visited_fetched _ _ _ _ _ Hrun).
      intros u Hu. simpl in Hu. set_solver.
    - intros [Hf|Hget].
      + eapply run_fetched_visited; [done| | |done].
        * apply claimed_visited_initial.
        * apply fetched_visited_initial.
      + apply (run_claimed_visited _ _ _ _ _ Hrun
                 (claimed_visited_initial homepage) (AtGet url)); done. }
  split; [done|]. intros Hfin. apply set_eq. intros url.
  rewrite Hiff, elem_of_list_to_set, (subframes_finished f Hfin).
  split; [|by left]. intros [?|Hget]; [done|].
  apply list_elem_of_singleton in Hget. by subst f.
Qed.

Lemma visited_are_the_requested_witness :
  let A := "http://x.com/" in
  let D := "http://x.com/d" in
  ∃ σ,
    (@reaches diamond_site (config "hello" 2) A both_return σ
       (Returned A [("hello", D); ("hello", D)])) ∧
    visited_urls σ = list_to_set (fetches σ).
Proof.
  intros A D. eexists. split; [by vm_compute|].
  exact (proj2 (@visited_are_the_requested diamond_site (config "hello" 2)
                  A both_return _ _ ltac:(by vm_compute)) eq_refl).
Defined.





(** X16.  A link is not requested before its page has been accepted: in
    the history of a run, every call of [requests.get], except the first
    call for the homepage, comes after the acceptance of a page that has
    the url among its links. *)
Theorem request_follows_acceptance `{!Platform} `{!CrawlConfig}
    homepage schedule σ f before url after :
  reaches homepage schedule σ f →
  history σ = before ++ Requested url :: after →
  url = homepage ∨
  ∃ page links,
    Accepted page ∈ before ∧ links_at page = Some links ∧ url ∈ links.
Proof.
  intros Hrun Hsplit.
  destruct (run_all_found homepage _ _ _ _ _ Hrun
              (all_found_initial homepage)) as [_ Hpast].
  by eapply Hpast.
Qed.

Lemma request_follows_acceptance_witness :
  let A := "http://x.com/" in
  let B := "http://x.com/b" in
  let C := "http://x.com/c" in
  ∃ σ,
    (@reaches faulty_site (config "hello" 1) A faulty_one_by_one σ
       (Returned A [("hello", C)])) ∧
    history σ =
      [Requested A; Accepted A; Requested B; Printed B (HTTPError 500)] ++
      Requested C :: [Accepted C] ∧
    (C = A ∨
     ∃ page links,
       Accepted page ∈
         [Requested A; Accepted A; Requested B; Printed B (HTTPError 500)] ∧
       @links_at faulty_site page = Some links ∧ C ∈ links).
Proof.
  intros A B C. eexists. split; [by vm_compute|]. split; [by vm_compute|].
  exact (@request_follows_acceptance faulty_site (config "hello" 1)
           A faulty_one_by_one _ _
           [Requested A; Accepted A; Requested B; Printed B (HTTPError 500)]
           C [Accepted C] ltac:(by vm_compute) ltac:(by vm_compute)).
Defined.

(** X17.  With [max_threads = 1] the result of a crawl that returns has
    no pair twice, and no response was accepted twice.  The result does
    not depend on the schedule, except for its order: any two runs that
    return give the same pairs. *)
Theorem one_worker_result_has_no_duplicates `{!Platform} `{!CrawlConfig}
    homepage schedule σ url result :
  max_threads = 1 →
  reaches homepage schedule σ (Returned url result) →
  NoDup (accepted σ) ∧ NoDup result ∧
  ∀ schedule' σ' url' result',
    reaches homepage schedule' σ' (Returned url' result') →
    result ≡ₚ result'.
Proof.
  intros Hone Hrun.
  assert (∀ schedule σ url result,
            reaches homepage schedule σ (Returned url result) →
            NoDup (accepted σ) ∧ NoDup result) as Hnodup.
  { clear -Hone. intros schedule σ url result Hrun.
    destruct (reaches_one_worker _ _ _ _ Hone Hrun)
      as (_ & _ & _ & _ & Hnd).
    destruct (reaches_accounting _ _ _ _ Hrun) as [Hperm _].
    rewrite Hperm in Hnd. apply NoDup_app in Hnd as (Hacc & _ & _).
    split; [done|].
    destruct (reaches_Returned _ _ _ _ _ Hrun) as [_ ->]. unfold expected.
    apply NoDup_bind; [| |done].
    - intros u1 u2 [text page] _ _ (-> & _)%elem_of_matches_at
        (-> & _)%elem_of_matches_at. done.
    - intros u _. unfold matches_at.
      destruct (requests_get u) as [|response]; [constructor|].
      destruct (page_matches_cases query u (get_text (soup response)))
        as [[_ ->]|[_ ->]]; [apply NoDup_singleton|constructor]. }
  destruct (Hnodup _ _ _ _ Hrun) as [Hacc Hres].
  split; [done|]. split; [done|].
  intros schedule' σ' url' result' Hrun'.
  destruct (Hnodup _ _ _ _ Hrun') as [_ Hres'].
  assert (0 < max_threads) as Hpos by lia.
  apply NoDup_Permutation; [done..|]. intros [text page].
  rewrite (returned_result_iff _ _ _ _ _ _ _ Hpos Hrun),
    (returned_result_iff _ _ _ _ _ _ _ Hpos Hrun'). done.
Qed.

Lemma one_worker_result_has_no_duplicates_witness :
  let A := "http://x.com/" in
  let B := "http://x.com/b" in
  ∃ σ,
    (@reaches twice_site (config "" 1) A twice_one_by_one σ
       (Returned A [("", A); ("", B)])) ∧
    NoDup [("", A); ("", B)].
Proof.
  intros A B. eexists. split; [by vm_compute|].
  exact (proj1 (proj2 (@one_worker_result_has_no_duplicates twice_site
                         (config "" 1) A twice_one_by_one _ A _ eq_refl
                         ltac:(by vm_compute)))).
Defined.

(** X18.  The file that [save_results_to_csv] writes determines the
    results: two lists of results that give files with the same text are
    the same list, in the same order.  Quoting and the doubling of quotes
    lose nothing, whatever characters the fields hold. *)
Theorem csv_file_determines_results results1 results2 file1 file2 fs1 fs2 :
  save_results_to_csv results1 file1 fs1 !! file1 =
  save_results_to_csv results2 file2 fs2 !! file2 →
  results1 = results2.
Proof.
  rewrite !save_lookup. intros [= Heq].
  apply append_inv_head in Heq. by apply rows_inj.
Qed.

Lemma csv_file_determines_results_witness :
  let results := [("a,b", "http://x.com/?q=" +:+ String csv.quotechar "")] in
  save_results_to_csv results "out.csv" ∅ !! "out.csv" =
  save_results_to_csv results "search_results.csv" ∅
    !! "search_results.csv" ∧
  results = results.
Proof.
  intros results.
  assert (save_results_to_csv results "out.csv" ∅ !! "out.csv" =
          save_results_to_csv results "search_results.csv" ∅
            !! "search_results.csv") as Heq by (by vm_compute).
  split; [exact Heq|].
  exact (csv_file_determines_results results results "out.csv"
           "search_results.csv" ∅ ∅ Heq).
Defined.

(** X19.  Results whose fields hold no comma, no double quote, no CR and
    no LF are written as they are: the file is the header line and, for
    each result in order, the line text,url; every line ends with CR LF.
    With no results the file is the header line alone. *)
Theorem plain_results_are_written_verbatim results csv_file fs :
  Forall (λ result, csv.needs_quotes result.1 = false ∧
                    csv.needs_quotes result.2 = false) results →
  save_results_to_csv results csv_file fs !! csv_file =
  Some ("Text,URL" +:+ csv.lineterminator +:+
        foldr (λ '(text, url) file,
                 text +:+ "," +:+ url +:+ csv.lineterminator +:+ file)
              "" results).
Proof.
  intros Hplain. rewrite save_lookup. f_equal.
  change (csv.writerow ["Text"; "URL"])
    with ("Text,URL" +:+ csv.lineterminator).
  rewrite !append_assoc. f_equal. f_equal.
  induction Hplain as [|[text url] results [Ht Hu] _ IH]; [done|].
  simpl in *. rewrite writerow_pair, IH. unfold csv_read.written.
  rewrite Ht, Hu, !field_data_plain by done.
  by rewrite append_assoc, append_cons, append_assoc.
Qed.

Lemma plain_results_are_written_verbatim_witness :
  save_results_to_csv [("hello", "http://x.com/c")] "search_results.csv" ∅
    !! "search_results.csv" =
  Some ("Text,URL" +:+ csv.lineterminator +:+
        "hello,http://x.com/c" +:+ csv.lineterminator).
Proof.
  exact (plain_results_are_written_verbatim [("hello", "http://x.com/c")]
           "search_results.csv" ∅
           ltac:(repeat constructor)).
Defined.

(** X20.  When the fetch of the homepage fails, the program ends after
    four steps, whatever the schedule: it has a complete run, every run
    is a beginning of that run, and the complete run requests nothing but
    the homepage, prints the one error line, ends without an exception
    and leaves a results file that holds the header line alone. *)
Theorem main_homepage_fails `{!Platform} args fs e :
  fetch_error (Namespace.homepage args) = Some e →
  is_Some (main args [Tick; Tick; Tick; Tick] fs) ∧
  (∀ schedule σ f,
      (@reaches _ (config_of args) (Namespace.homepage args) schedule σ f) →
      schedule `prefix_of` [Tick; Tick; Tick; Tick]) ∧
  ∀ schedule σ fs' exc,
    main args schedule fs = Some (σ, fs', exc) →
    schedule = [Tick; Tick; Tick; Tick] ∧
    exc = None ∧
    fs' = <["search_results.csv" := "Text,URL" +:+ csv.lineterminator]> fs ∧
    stdout σ = [(Namespace.homepage args, e)] ∧
    fetches σ = [Namespace.homepage args].
Proof.
  intros He.
  pose proof (@receive_error _ (config_of args)
                (log (Requested (Namespace.homepage args))
                   (add_visited (Namespace.homepage args) initial))
                _ _ He) as Hrec.
  split; [apply main_leaf; by rewrite Hrec|]. split.
  { intros schedule σ f Hrun.
    eapply (@reaches_leaf_prefix _ (config_of args)); [|done].
    by rewrite Hrec. }
  intros schedule σ fs' exc Hmain.
  apply main_finished in Hmain as (f & Hrun & Hfin & -> & ->).
  destruct (@reaches_leaf _ (config_of args) _ _ _ _
              ltac:(by rewrite Hrec) Hrun Hfin) as [-> Heq].
  rewrite Hrec in Heq. simplify_eq. done.
Qed.

Lemma main_homepage_fails_witness :
  let args := Namespace.mk "http://x.com/" "hello" 8 in
  let schedule := [Tick; Tick; Tick; Tick] in
  ∃ σ,
    @main silent_site args schedule ∅ =
      Some (σ, save_results_to_csv [] "search_results.csv" ∅, None) ∧
    stdout σ = [("http://x.com/", RequestException "ConnectionError")] ∧
    save_results_to_csv [] "search_results.csv" ∅ =
      <["search_results.csv" := "Text,URL" +:+ csv.lineterminator]> ∅.
Proof.
  intros args schedule.
  assert (@fetch_error silent_site (Namespace.homepage args) =
          Some (RequestException "ConnectionError")) as He by (by vm_compute).
  eexists. split.
  { apply main_Some. left. eexists _, _. split; [by vm_compute|done]. }
  destruct (proj2 (proj2 (@main_homepage_fails silent_site args ∅ _ He))
              schedule _ _ _
              ltac:(apply main_Some; left; eexists _, _;
                    split; [by vm_compute|done]))
    as (_ & _ & Hfile & Hout & _).
  split; [exact Hout|exact Hfile].
Defined.

(** X21.  With a number of threads that is not positive the program ends
    after four steps, whatever the schedule: it has a complete run, every
    run is a beginning of that run, and it requests the homepage and
    nothing else.  If the fetch fails it prints the error and writes a
    file with the header line alone; if the response is accepted, line 36
    or line 39 raises [ValueError], which ends the program, and no file
    is written. *)
Theorem main_without_threads `{!Platform} args fs :
  Namespace.threads args ≤ 0 →
  is_Some (main args [Tick; Tick; Tick; Tick] fs) ∧
  (∀ schedule σ f,
      (@reaches _ (config_of args) (Namespace.homepage args) schedule σ f) →
      schedule `prefix_of` [Tick; Tick; Tick; Tick]) ∧
  ∀ schedule σ fs' exc,
    main args schedule fs = Some (σ, fs', exc) →
    schedule = [Tick; Tick; Tick; Tick] ∧
    fetches σ = [Namespace.homepage args] ∧
    ((∃ e, fetch_error (Namespace.homepage args) = Some e ∧
           exc = None ∧ stdout σ = [(Namespace.homepage args, e)] ∧
           fs' = <["search_results.csv" :=
                     "Text,URL" +:+ csv.lineterminator]> fs) ∨
     (fetch_error (Namespace.homepage args) = None ∧
      exc = Some ValueError ∧ stdout σ = [] ∧ fs' = fs)).
Proof.
  intros Hneg.
  pose proof (@receive_cases _ (config_of args)
                (log (Requested (Namespace.homepage args))
                   (add_visited (Namespace.homepage args) initial))
                (Namespace.homepage args)) as Hcases.
  assert (finished
            (@receive _ (config_of args)
               (log (Requested (Namespace.homepage args))
                  (add_visited (Namespace.homepage args) initial))
               (Namespace.homepage args)).2 = true) as Hleaf.
  { destruct Hcases
      as [(e & _ & _ & ->)|[(_ & _ & ->)|(links & _ & _ & Hpos & _)]];
      [done..|]. simpl in Hpos. lia. }
  split; [by apply main_leaf|]. split.
  { intros schedule σ f Hrun.
    by eapply (@reaches_leaf_prefix _ (config_of args)). }
  intros schedule σ fs' exc Hmain.
  apply main_finished in Hmain as (f & Hrun & Hfin & -> & ->).
  destruct (@reaches_leaf _ (config_of args) _ _ _ _ Hleaf Hrun Hfin)
    as [-> Heq].
  destruct Hcases
    as [(e & He & _ & Hrec)|[(He & _ & Hrec)|(links & _ & _ & Hpos & _)]];
    [| |simpl in Hpos; lia].
  - rewrite Hrec in Heq. simplify_eq. split; [done|]. split; [done|].
    left. by exists e.
  - rewrite Hrec in Heq. simplify_eq. split; [done|]. split; [done|].
    by right.
Qed.

Lemma main_without_threads_witness :
  let args := Namespace.mk "http://x.com/" "hello" 0 in
  let schedule := [Tick; Tick; Tick; Tick] in
  ∃ σ,
    @main diamond_site args schedule ∅ = Some (σ, ∅, Some ValueError) ∧
    fetches σ = ["http://x.com/"].
Proof.
  intros args schedule. eexists. split.
  { apply main_Some. right. eexists _, _. split; [by vm_compute|done]. }
  exact (proj1 (proj2 (proj2 (proj2 (@main_without_threads diamond_site
                                       args ∅ ltac:(done)))
                         schedule _ _ _
                         ltac:(apply main_Some; right; eexists _, _;
                               split; [by vm_compute|done])))).
Defined.

(** X22.  On a closed site all of whose candidate hrefs [urljoin]
    accepts, with a positive number of threads, the program can run to
    its end, and however its threads are scheduled it ends without an
    exception, within the bound on the steps of the crawl, and writes to
    [search_results.csv] the matches of the accepted pages, in some
    order; no other file changes. *)
Theorem main_writes_the_matches `{!Platform} `{!Site} args fs :
  closed → Namespace.homepage args ∈ site_urls →
  0 < Namespace.threads args →
  (∀ url, url ∈ site_urls → links_at url ≠ None) →
  (∃ schedule, is_Some (main args schedule fs)) ∧
  ∀ schedule σ fs' exc,
    main args schedule fs = Some (σ, fs', exc) →
    exc = None ∧
    (length schedule ≤
     3 + receive_cost fanout
           (size (site_urls ∖ {[Namespace.homepage args]})))%nat ∧
    (∃ results,
        results ≡ₚ accepted σ ≫= @matches_at _ (config_of args) ∧
        fs' = save_results_to_csv results "search_results.csv" fs) ∧
    (∀ name, name ≠ "search_results.csv" → fs' !! name = fs !! name).
Proof.
  intros Hclosed Hin Hpos Hlinks. split.
  - destruct (@completes _ (config_of args) _ initial
                (crawl_page (Namespace.homepage args)) Hclosed)
      as (schedule & σ & f & Hrun & Hfin).
    + apply claimed_visited_initial.
    + by apply inside_initial.
    + by right.
    + exists schedule. unfold main. rewrite Hrun. by destruct f.
  - intros schedule σ fs' exc Hmain.
    assert (∃ f, (@reaches _ (config_of args) (Namespace.homepage args)
                    schedule σ f) ∧ finished f = true ∧
                 exc = match f with Raised _ e => Some e | _ => None end ∧
                 fs' = match f with
                       | Returned _ results =>
                           save_results_to_csv results "search_results.csv" fs
                       | _ => fs
                       end) as (f & Hrun & Hfin & -> & ->).
    { apply main_Some in Hmain
        as [(u & r & Hrun & -> & ->)|(u & e' & Hrun & -> & ->)]; eauto. }
    destruct (@crawl_terminates _ (config_of args) _ _ _ _ _ Hclosed Hin Hrun)
      as [Hbound _].
    assert (¬ dirty f) as Hclean.
    { intros (page & Hacc & [Hnone|Hneg])%(reaches_cause _ _ _ _ Hrun);
        [|simpl in Hneg; lia].
      apply (Hlinks page); [|done].
      eapply (@run_confined _ (config_of args)); [done..| | |].
      - by apply inside_initial.
      - simpl. set_solver.
      - eapply (@run_fetched_visited _ (config_of args)); [done| | |].
        + apply claimed_visited_initial.
        + apply fetched_visited_initial.
        + destruct (reaches_accounting _ _ _ _ Hrun) as [-> _].
          apply elem_of_app. by left. }
    destruct f as [| | | | | |url result|url e]; try done.
    + split; [done|]. split; [lia|]. split.
      * exists result. split; [|done].
        by destruct (reaches_Returned _ _ _ _ _ Hrun).
      * intros name Hname. unfold save_results_to_csv, files in *.
        cbv zeta. by rewrite lookup_insert_ne.
    + destruct Hclean. by apply dirty_root.
Qed.

Lemma main_writes_the_matches_witness :
  let args := Namespace.mk "http://x.com/" "hello" 2 in
  let D := "http://x.com/d" in
  ∃ σ,
    @main diamond_site args both_return ∅ =
      Some (σ,
            save_results_to_csv [("hello", D); ("hello", D)]
              "search_results.csv" ∅,
            None) ∧
    (length both_return ≤ 151)%nat.
Proof.
  intros args D. eexists. split.
  { apply main_Some. left. eexists _, _. split; [by vm_compute|done]. }
  assert (Namespace.homepage args ∈ @site_urls diamond_urls) as Hin
    by (by vm_compute).
  assert (∀ url, url ∈ @site_urls diamond_urls →
                 @links_at diamond_site url ≠ None) as Hlinks.
  { intros url Hurl. unfold site_urls, diamond_urls in Hurl.
    set_unfold in Hurl. destruct_or! Hurl; subst url; by vm_compute. }
  destruct (proj2 (@main_writes_the_matches diamond_site diamond_urls args ∅
                     diamond_closed Hin ltac:(done) Hlinks)
              both_return _ _ _
              ltac:(apply main_Some; left; eexists _, _;
                    split; [by vm_compute|done]))
    as (_ & Hlen & _).
  unfold args in Hlen. cbn [Namespace.homepage] in Hlen.
  by rewrite diamond_bound in Hlen.
Defined.
